(** * ScholarGraph: chunking, embedding cache, supersession and result fusion

    A shallow embedding of the content pipeline of ScholarGraph
    (ingestion/chunker.py, embeddings/cache.py, embeddings/generator.py,
    ingestion/supersession_detector.py, search/hybrid_search.py) together
    with the properties its specification states about it.

    Conventions.
    - Python [int] is [Z]; a Python [str] is a list of characters
      ([list ascii], code points below 256) where the code inspects its
      characters, and a [string] where it is only an identifier or a key.
    - A call that may raise returns a [result]; [try]/[except] is written
      out with [try_except].
    - A [dict] is a [gmap]; a [set] is a [gset] together with the order in
      which the interpreter happens to iterate over it. *)

From Stdlib Require Import ZArith QArith Qcanon Ascii String List Lia PrimFloat.
From stdpp Require Import base option list gmap strings numbers sorting.

Local Open Scope Z_scope.

(** ** Python values, exceptions and slices *)

Module Py.

(** The exception classes the modelled code raises or catches.  All of them
    derive from [Exception]. *)
Inductive exn : Type :=
  | ValueError
  | IndexError
  | KeyError
  | TypeError
  | AttributeError
  | NotImplementedError
  | ImportError
  | OSError
  | EOFError
  | UnpicklingError
  | RuntimeError.

#[global] Instance exn_eq_dec : EqDecision exn.
Proof. solve_decision. Defined.

(** The outcome of a call: a value, or an exception on its way up. *)
Inductive result (A : Type) : Type :=
  | Ok (a : A)
  | Raise (e : exn).
Arguments Ok {A} a.
Arguments Raise {A} e.

Definition bind {A B} (r : result A) (k : A -> result B) : result B :=
  match r with
  | Ok a => k a
  | Raise e => Raise e
  end.

(** [try: body except (classes): handler]; an exception outside [classes]
    keeps propagating. *)
Definition try_except {A} (body : result A) (catches : exn -> bool)
    (handler : exn -> result A) : result A :=
  match body with
  | Ok a => Ok a
  | Raise e => if catches e then handler e else Raise e
  end.

(** [except Exception]: every class of [exn]. *)
Definition any_exception (e : exn) : bool := true.

Definition is_ok {A} (r : result A) : bool :=
  match r with Ok _ => true | Raise _ => false end.

(** [len(l)] *)
Definition len {A} (l : list A) : Z := Z.of_nat (length l).

(** Normalisation of a slice bound: a negative bound counts from the end,
    and every bound is clamped to [0 .. len]. *)
Definition slice_index (n i : Z) : Z :=
  if i <? 0 then Z.max (i + n) 0 else Z.min i n.

(** [l[i:j]] *)
Definition slice {A} (l : list A) (i j : Z) : list A :=
  let a := slice_index (len l) i in
  let b := slice_index (len l) j in
  firstn (Z.to_nat (b - a)) (skipn (Z.to_nat a) l).

(** [l[:j]] and [l[i:]] *)
Definition slice_to {A} (l : list A) (j : Z) : list A := slice l 0 j.
Definition slice_from {A} (l : list A) (i : Z) : list A := slice l i (len l).

(** [str.isspace] on one character (code points below 256): TAB, LF, VT, FF,
    CR, FS, GS, RS, US, SPACE, NEL and NBSP. *)
Definition is_space (c : ascii) : bool :=
  let n := nat_of_ascii c in
  ((9 <=? n) && (n <=? 13) || (28 <=? n) && (n <=? 32)
   || (n =? 133) || (n =? 160))%nat.

(** [s.split()]: maximal runs of non-whitespace characters.  [cur] is the
    word being read, in reverse. *)
Fixpoint split_aux (cur : list ascii) (s : list ascii) : list (list ascii) :=
  match s with
  | [] => match cur with [] => [] | _ => [rev cur] end
  | c :: rest =>
      if is_space c
      then match cur with
           | [] => split_aux [] rest
           | _ => rev cur :: split_aux [] rest
           end
      else split_aux (c :: cur) rest
  end.

Definition split (s : list ascii) : list (list ascii) := split_aux [] s.

(** [not s.strip()]: the string holds whitespace only. *)
Definition blank (s : list ascii) : bool := forallb is_space s.

Definition newline : ascii := ascii_of_nat 10.
Definition space : ascii := ascii_of_nat 32.

(** [s.split('\n\n')]: cut at every occurrence of two line feeds, scanning
    from the left; always at least one piece. *)
Fixpoint split_paragraphs_aux (cur : list ascii) (s : list ascii)
    : list (list ascii) :=
  match s with
  | [] => [rev cur]
  | c :: rest =>
      match rest with
      | c' :: rest' =>
          if (Ascii.eqb c newline && Ascii.eqb c' newline)%bool
          then rev cur :: split_paragraphs_aux [] rest'
          else split_paragraphs_aux (c :: cur) rest
      | [] => [rev (c :: cur)]
      end
  end.

Definition split_paragraphs (s : list ascii) : list (list ascii) :=
  split_paragraphs_aux [] s.

(** [" ".join(ws)] *)
Fixpoint join (ws : list (list ascii)) : list ascii :=
  match ws with
  | [] => []
  | [w] => w
  | w :: rest => w ++ space :: join rest
  end.

(** [sum(len(w) + 1 for w in ws)] *)
Definition sum_len_plus_one (ws : list (list ascii)) : Z :=
  fold_right (fun w acc => (len w + 1) + acc) 0 ws.

Definition str (s : string) : list ascii := list_ascii_of_string s.

(** [s.strip(chars)] with the stripped characters given as a predicate. *)
Fixpoint drop_while (p : ascii -> bool) (s : list ascii) : list ascii :=
  match s with
  | [] => []
  | c :: rest => if p c then drop_while p rest else s
  end.

Definition strip_with (p : ascii -> bool) (s : string) : string :=
  string_of_list_ascii
    (rev (drop_while p (rev (drop_while p (list_ascii_of_string s))))).

(** [s.strip()] *)
Definition strip (s : string) : string := strip_with is_space s.

(** [s.replace(c, t)] for a one-character pattern [c]. *)
Fixpoint replace_char (c : ascii) (t : string) (s : string) : string :=
  match s with
  | EmptyString => EmptyString
  | String a rest =>
      if Ascii.eqb a c
      then (t ++ replace_char c t rest)%string
      else String a (replace_char c t rest)
  end.

(** *** Stateful code

    A method that updates its object and may raise is a function from the
    state before the call to an outcome and the state after it.  What was
    written before an exception is raised stays written. *)
Definition M (S A : Type) : Type := S -> result A * S.

Definition ret {S A} (a : A) : M S A := fun s => (Ok a, s).

Definition raise {S A} (e : exn) : M S A := fun s => (Raise e, s).

Definition mbind {S A B} (m : M S A) (k : A -> M S B) : M S B :=
  fun s =>
    match m s with
    | (Ok a, s') => k a s'
    | (Raise e, s') => (Raise e, s')
    end.

Definition lift {S A} (r : result A) : M S A := fun s => (r, s).

Definition gets {S A} (f : S -> A) : M S A := fun s => (Ok (f s), s).

Definition modify {S} (f : S -> S) : M S unit := fun s => (Ok tt, f s).

(** [try: body except (classes) as e: handler e] *)
Definition try_catch {S A} (body : M S A) (catches : exn -> bool)
    (handler : exn -> M S A) : M S A :=
  fun s =>
    match body s with
    | (Ok a, s') => (Ok a, s')
    | (Raise e, s') => if catches e then handler e s' else (Raise e, s')
    end.

(** [range(start, stop, step)]; a zero step raises [ValueError]. *)
Definition range3 (start stop step : Z) : result (list Z) :=
  if step =? 0 then Raise ValueError
  else
    let count :=
      if step >? 0 then (stop - start + step - 1) / step
      else (start - stop - step - 1) / (- step) in
    Ok (map (fun j => start + Z.of_nat j * step) (seq 0 (Z.to_nat count))).

(** [a / (a + b) if (a + b) > 0 else 0.0], with the quotient taken in the
    rationals. *)
Definition rate (a b : Z) : Qc :=
  if a + b >? 0 then Q2Qc (a # Z.to_pos (a + b)) else Q2Qc 0.

(** A computation on a part of the state, run on the whole state. *)
Definition zoom {S T A} (project : S -> T) (update : T -> S -> S)
    (c : M T A) : M S A :=
  fun s => let '(r, t) := c (project s) in (r, update t s).

(** [for x in xs: body x] *)
Fixpoint for_each {S A} (xs : list A) (body : A -> M S unit) : M S unit :=
  match xs with
  | [] => ret tt
  | x :: rest => mbind (body x) (fun _ => for_each rest body)
  end.

Module Notations.
  Notation "x <- c1 ;; c2" := (mbind c1 (fun x => c2))
    (at level 20, c1 at level 99, c2 at level 200, only parsing).
  Notation "c1 ;; c2" := (mbind c1 (fun _ => c2))
    (at level 100, c2 at level 200, only parsing, right associativity).
End Notations.

End Py.

Import Py Py.Notations.

(** ** config/settings.py *)

Module Config.

(** The fields of [Settings] the pipeline reads.  They are loaded from the
    environment, so any integer can occur. *)
Record Settings : Type := {
  chunk_size_words : Z;
  chunk_overlap_words : Z;
  embedding_dimension : Z
}.

(** The defaults declared by the [Field]s of [Settings]. *)
Definition default_settings : Settings :=
  {| chunk_size_words := 3500;
     chunk_overlap_words := 400;
     embedding_dimension := 768 |}.

End Config.

(** ** ingestion/chunker.py *)

Module Chunker.

Record Chunk : Type := {
  content : list ascii;
  position : Z;
  start_char : Z;
  end_char : Z;
  word_count : Z;
  char_count : Z
}.

Record TextChunker : Type := {
  chunk_size : Z;
  chunk_overlap : Z
}.

(** [x or d] for an [int | None] argument: [None] and [0] are falsy. *)
Definition or_default (x : option Z) (d : Z) : Z :=
  match x with
  | Some v => if v =? 0 then d else v
  | None => d
  end.

(** [TextChunker.__init__] *)
Definition __init__ (settings : Config.Settings)
    (chunk_size_words_arg chunk_overlap_words_arg : option Z)
    : result TextChunker :=
  let size :=
    or_default chunk_size_words_arg (Config.chunk_size_words settings) in
  let overlap :=
    or_default chunk_overlap_words_arg (Config.chunk_overlap_words settings) in
  if overlap >=? size
  then Raise ValueError
  else Ok {| chunk_size := size; chunk_overlap := overlap |}.

(** [TextChunker._find_char_position]; [target_word] is not used by the
    code. *)
Definition _find_char_position (text : list ascii) (target_word : list ascii)
    (word_index : Z) : Z :=
  let words_before := slice_to (split text) word_index in
  sum_len_plus_one words_before.

(** The [while] loop of [chunk_text].  Each round consumes one unit of
    [fuel]; [None] stands for a loop that is still running when the fuel is
    spent.  [chunk_words[0]] raises [IndexError] on an empty slice. *)
Fixpoint chunk_loop (fuel : nat) (self : TextChunker) (text : list ascii)
    (words : list (list ascii)) (position current_word_index : Z)
    : option (result (list Chunk)) :=
  if current_word_index <? len words then
    match fuel with
    | O => None
    | S fuel' =>
        let chunk_words :=
          slice words current_word_index
                (current_word_index + chunk_size self) in
        let chunk_text := join chunk_words in
        match chunk_words with
        | [] => Some (Raise IndexError)
        | first_word :: _ =>
            let start_char :=
              _find_char_position text first_word current_word_index in
            let end_char := start_char + len chunk_text in
            let chunk :=
              {| content := chunk_text;
                 position := position;
                 start_char := start_char;
                 end_char := end_char;
                 word_count := len chunk_words;
                 char_count := len chunk_text |} in
            match chunk_loop fuel' self text words (position + 1)
                    (current_word_index
                     + (chunk_size self - chunk_overlap self)) with
            | Some (Ok chunks) => Some (Ok (chunk :: chunks))
            | other => other
            end
        end
    end
  else Some (Ok []).

(** [TextChunker.chunk_text].  With a positive stride the loop runs at most
    [len(words)] rounds, so that much fuel never runs out. *)
Definition chunk_text (self : TextChunker) (text : list ascii)
    : option (result (list Chunk)) :=
  if blank text then Some (Ok [])
  else
    let words := split text in
    if len words <=? chunk_size self then
      Some (Ok [ {| content := text;
                    position := 0;
                    start_char := 0;
                    end_char := len text;
                    word_count := len words;
                    char_count := len text |} ])
    else chunk_loop (length words) self text words 0 0.

(** The state carried by the [for] loop of [chunk_text_smart]. *)
Record SmartState : Type := {
  chunks_acc : list Chunk;
  current_chunk_words : list (list ascii);
  smart_position : Z
}.

(** The chunk built from the accumulated words, at both places where
    [chunk_text_smart] emits one. *)
Definition emit (text : list ascii) (words : list (list ascii))
    (position : Z) : Chunk :=
  let chunk_text := join words in
  let start_char :=
    _find_char_position text (List.hd [] words) 0 in
  {| content := chunk_text;
     position := position;
     start_char := start_char;
     end_char := start_char + len chunk_text;
     word_count := len words;
     char_count := len chunk_text |}.

(** One round of the [for] loop over the paragraphs. *)
Definition smart_step (self : TextChunker) (text : list ascii)
    (st : SmartState) (paragraph : list ascii) : SmartState :=
  let para_words := split paragraph in
  let cur := current_chunk_words st in
  let st' :=
    if ((len cur + len para_words >? chunk_size self)
        && negb (match cur with [] => true | _ => false end))%bool
    then
      let overlap_start := Z.max 0 (len cur - chunk_overlap self) in
      {| chunks_acc := chunks_acc st ++ [emit text cur (smart_position st)];
         current_chunk_words := slice_from cur overlap_start;
         smart_position := smart_position st + 1 |}
    else st in
  {| chunks_acc := chunks_acc st';
     current_chunk_words := current_chunk_words st' ++ para_words;
     smart_position := smart_position st' |}.

Definition smart_loop (self : TextChunker) (text : list ascii)
    (paragraphs : list (list ascii)) : SmartState :=
  fold_left (smart_step self text) paragraphs
    {| chunks_acc := []; current_chunk_words := []; smart_position := 0 |}.

(** [TextChunker.chunk_text_smart] *)
Definition chunk_text_smart (self : TextChunker) (text : list ascii)
    (prefer_paragraph_breaks : bool) : option (result (list Chunk)) :=
  if negb prefer_paragraph_breaks then chunk_text self text
  else
    let paragraphs := split_paragraphs text in
    let st := smart_loop self text paragraphs in
    let chunks :=
      match current_chunk_words st with
      | [] => chunks_acc st
      | _ => chunks_acc st
             ++ [emit text (current_chunk_words st) (smart_position st)]
      end in
    match chunks with
    | [] => chunk_text self text
    | _ => Some (Ok chunks)
    end.

(** The words of a chunk, read back from its content. *)
Definition words_of (c : Chunk) : list (list ascii) := split (content c).

(** *** The vocabulary of the statements about the chunker *)

(** A word: not empty, and free of whitespace. *)
Definition word (w : list ascii) : Prop :=
  w <> [] /\ Forall (fun c => is_space c = false) w.

(** The distance between the starts of two consecutive windows. *)
Definition stride (self : TextChunker) : Z :=
  chunk_size self - chunk_overlap self.

(** The words of the window that starts at word [i]. *)
Definition window (self : TextChunker) (words : list (list ascii)) (i : Z)
    : list (list ascii) :=
  slice words i (i + chunk_size self).

(** The chunk the loop builds for the window that starts at word [i]. *)
Definition loop_chunk (self : TextChunker) (text : list ascii)
    (words : list (list ascii)) (position i : Z) : Chunk :=
  let chunk_text := join (window self words i) in
  let start_char := sum_len_plus_one (slice_to (split text) i) in
  {| content := chunk_text;
     position := position;
     start_char := start_char;
     end_char := start_char + len chunk_text;
     word_count := len (window self words i);
     char_count := len chunk_text |}.

(** The property as the specification words it: every chunk but the last
    has [chunk_size] words. *)
Definition every_chunk_but_last_is_full (self : TextChunker)
    (chunks : list Chunk) : Prop :=
  forall (k : nat) ch,
    chunks !! k = Some ch ->
    (S k < length chunks)%nat ->
    len (words_of ch) = chunk_size self.

(** Likewise: of two consecutive chunks, the later of which is not the last,
    the last [chunk_overlap] words of the earlier are the first
    [chunk_overlap] words of the later. *)
Definition consecutive_chunks_overlap (self : TextChunker)
    (chunks : list Chunk) : Prop :=
  forall (k : nat) ch ch',
    chunks !! k = Some ch ->
    chunks !! S k = Some ch' ->
    (S (S k) < length chunks)%nat ->
    skipn (length (words_of ch) - Z.to_nat (chunk_overlap self))
      (words_of ch)
    = firstn (Z.to_nat (chunk_overlap self)) (words_of ch').

(** The property as the specification words it: the chunk's content is
    found in the text at [start_char], and ends at [end_char]. *)
Definition located (text : list ascii) (ch : Chunk) : Prop :=
  slice text (start_char ch) (end_char ch) = content ch.

(** [ws] occurs in [l] as a contiguous run. *)
Definition run_of (ws l : list (list ascii)) : Prop :=
  exists pre post, l = pre ++ ws ++ post.

(** What holds of the loop state after some paragraphs: the accumulated
    words are words, and each of those paragraphs lies whole in the
    accumulated words or in a chunk that has been emitted. *)
Definition whole_so_far (st : SmartState) (seen : list (list ascii))
    : Prop :=
  Forall word (current_chunk_words st)
  /\ forall p,
       p ∈ seen ->
       run_of (split p) (current_chunk_words st)
       \/ exists ch, ch ∈ chunks_acc st /\ run_of (split p) (words_of ch).

(** *** Example chunkers and texts *)

(** Size 4, overlap 3: the windows start at every word. *)
Definition dense_chunker : TextChunker :=
  {| chunk_size := 4; chunk_overlap := 3 |}.

(** Size 2, overlap 1.  On a text that begins with a space, [" a b c"],
    the first chunk is ["a b"], its [start_char] is 0, and the text has
    [" a "] there. *)
Definition sparse_chunker : TextChunker :=
  {| chunk_size := 2; chunk_overlap := 1 |}.

(** Three paragraphs under size 3 and overlap 1; the second has four
    words. *)
Definition paragraph_chunker : TextChunker :=
  {| chunk_size := 3; chunk_overlap := 1 |}.

Definition three_paragraphs : list ascii :=
  str "a b" ++ [newline; newline] ++ str "c d e f"
  ++ [newline; newline] ++ str "g".

(** Size 2 and overlap -1, which [__init__] accepts: the windows start at
    every third word. *)
Definition gapped_chunker : TextChunker :=
  {| chunk_size := 2; chunk_overlap := -1 |}.

(** The list [chunks] that [chunk_text_smart] has built when it reaches its
    [return]. *)
Definition smart_chunks (self : TextChunker) (text : list ascii)
    : list Chunk :=
  let st := smart_loop self text (split_paragraphs text) in
  match current_chunk_words st with
  | [] => chunks_acc st
  | _ => chunks_acc st
         ++ [emit text (current_chunk_words st) (smart_position st)]
  end.

(** Three paragraphs of at most two words. *)
Definition short_paragraphs : list ascii :=
  str "a b" ++ [newline; newline] ++ str "c d"
  ++ [newline; newline] ++ str "e".

End Chunker.

(** An embedding: a list of Python floats (IEEE binary64). *)
Abbreviation vector := (list float).

(** [if embedding:] for a value that is [None] or a list. *)
Definition truthy (embedding : option vector) : option vector :=
  match embedding with
  | Some (x :: l) => Some (x :: l)
  | _ => None
  end.

(** ** embeddings/cache.py *)

Module EmbeddingCache.

(** What a cache file holds: a pickle that loads to an embedding, or bytes on
    which [pickle.load] raises. *)
Inductive file : Type :=
  | Pickled (embedding : vector)
  | Damaged (e : exn).

(** The cache object together with its directory, keyed by file stem. *)
Record EmbeddingCache : Type := {
  files : gmap string file;
  hits : Z;
  misses : Z;
  writes : Z
}.

Definition add_hit (c : EmbeddingCache) : EmbeddingCache :=
  {| files := files c; hits := hits c + 1; misses := misses c;
     writes := writes c |}.
Definition add_miss (c : EmbeddingCache) : EmbeddingCache :=
  {| files := files c; hits := hits c; misses := misses c + 1;
     writes := writes c |}.
Definition add_write (c : EmbeddingCache) : EmbeddingCache :=
  {| files := files c; hits := hits c; misses := misses c;
     writes := writes c + 1 |}.
Definition store_file (k : string) (f : file) (c : EmbeddingCache)
    : EmbeddingCache :=
  {| files := <[k := f]> (files c); hits := hits c; misses := misses c;
     writes := writes c |}.

(** [pickle.load] on an opened cache file. *)
Definition load (f : file) : result vector :=
  match f with
  | Pickled embedding => Ok embedding
  | Damaged e => Raise e
  end.

Section WithHash.

(** [hashlib.sha256(text.encode()).hexdigest()] *)
Variable sha256_hexdigest : list ascii -> string.

Definition _get_cache_key (text : list ascii) : string :=
  sha256_hexdigest text.

(** [EmbeddingCache.get].  [open_rb] is the outcome of
    [open(cache_file, 'rb')]. *)
Definition get (open_rb : result unit) (text : list ascii)
    : M EmbeddingCache (option vector) :=
  let cache_key := _get_cache_key text in
  cache_file <- gets (fun c => files c !! cache_key) ;;
  found <-
    match cache_file with
    | Some f =>
        try_catch
          (_ <- lift open_rb ;;
           embedding <- lift (load f) ;;
           modify add_hit ;;
           ret (Some embedding))
          any_exception
          (fun e => ret None)
    | None => ret None
    end ;;
  match found with
  | Some embedding => ret (Some embedding)
  | None => modify add_miss ;; ret None
  end.

(** [EmbeddingCache.set].  [open_wb] and [dump] are the outcomes of
    [open(cache_file, 'wb')] and of [pickle.dump]; opening for writing
    leaves an empty file, on which a later load raises [EOFError]. *)
Definition set (open_wb dump : result unit) (text : list ascii)
    (embedding : vector) : M EmbeddingCache bool :=
  let cache_key := _get_cache_key text in
  try_catch
    (_ <- lift open_wb ;;
     modify (store_file cache_key (Damaged EOFError)) ;;
     _ <- lift dump ;;
     modify (store_file cache_key (Pickled embedding)) ;;
     modify add_write ;;
     ret true)
    any_exception
    (fun e => ret false).

End WithHash.

Section Maintenance.

Variable sha256_hexdigest : list ascii -> string.

(** [cache_file.unlink()] that went through. *)
Definition remove_file (k : string) (c : EmbeddingCache) : EmbeddingCache :=
  {| files := base.delete k (files c); hits := hits c; misses := misses c;
     writes := writes c |}.

(** [EmbeddingCache.__init__]: the directory is created if it is missing, so
    it may hold the files of an earlier run; the counters start at 0. *)
Definition __init__ (directory : gmap string file) : EmbeddingCache :=
  {| files := directory; hits := 0; misses := 0; writes := 0 |}.

(** [EmbeddingCache.delete].  [unlink] is the outcome of
    [cache_file.unlink()]. *)
Definition delete (unlink : result unit) (text : list ascii)
    : M EmbeddingCache bool :=
  let cache_key := _get_cache_key sha256_hexdigest text in
  cache_file <- gets (fun c => files c !! cache_key) ;;
  deleted <-
    match cache_file with
    | Some _ =>
        try_catch
          (_ <- lift unlink ;;
           modify (remove_file cache_key) ;;
           ret true)
          any_exception
          (fun e => ret false)
    | None => ret false
    end ;;
  ret deleted.

(** The [for] loop of [clear] over the files that [glob] has listed;
    [unlink] gives the outcome of [cache_file.unlink()] for each file. *)
Fixpoint clear_loop (unlink : string -> result unit)
    (cache_files : list string) (count : Z) : M EmbeddingCache Z :=
  match cache_files with
  | [] => ret count
  | cache_file :: rest =>
      count' <-
        try_catch
          (_ <- lift (unlink cache_file) ;;
           modify (remove_file cache_file) ;;
           ret (count + 1))
          any_exception
          (fun e => ret count) ;;
      clear_loop unlink rest count'
  end.

(** [EmbeddingCache.clear].  [glob] lists the files of the directory in the
    order of the file system. *)
Definition clear (glob : gmap string file -> list string)
    (unlink : string -> result unit) : M EmbeddingCache Z :=
  cache_files <- gets (fun c => glob (files c)) ;;
  clear_loop unlink cache_files 0.

(** [EmbeddingCache.get_size] *)
Definition get_size : M EmbeddingCache Z :=
  gets (fun c => Z.of_nat (size (files c))).

End Maintenance.

(** *** Sequences of calls *)

(** A call of one of the methods, with the outcomes of its file
    operations. *)
Inductive call : Type :=
  | CallGet (open_rb : result unit) (text : list ascii)
  | CallSet (open_wb dump : result unit) (text : list ascii) (embedding : vector)
  | CallDelete (unlink : result unit) (text : list ascii)
  | CallClear (glob : gmap string file -> list string)
              (unlink : string -> result unit).




(** The dictionary returned by [get_statistics]. *)
Record CacheStatistics : Type := {
  stat_hits : Z;
  stat_misses : Z;
  stat_writes : Z;
  stat_cache_size : Z;
  stat_hit_rate : Qc
}.

(** [EmbeddingCache.get_statistics] *)
Definition get_statistics : M EmbeddingCache CacheStatistics :=
  cache_size <- get_size ;;
  gets (fun c =>
    {| stat_hits := hits c; stat_misses := misses c;
       stat_writes := writes c; stat_cache_size := cache_size;
       stat_hit_rate := rate (hits c) (misses c) |}).

End EmbeddingCache.

(** ** embeddings/generator.py *)

Module EmbeddingGenerator.

Record Stats : Type := {
  embeddings_generated : Z;
  cache_hits : Z;
  cache_misses : Z;
  errors : Z
}.

(** The generator.  [gpu_client] tells whether a client was passed (it is
    not [None]); [_st_model] whether the local model has been loaded. *)
Record EmbeddingGenerator : Type := {
  gpu_client : bool;
  embedding_dimension : Z;
  use_cache : bool;
  _cache : gmap string vector;
  stats : Stats;
  _st_model : bool
}.

(** What the collaborators answer during one call. *)
Record Backends : Type := {
  (** [self.gpu_client.generate_embedding(text)]; [None] is a JSON null *)
  gpu_generate_embedding : result (option vector);
  (** [from sentence_transformers import SentenceTransformer] *)
  st_import : result unit;
  (** [SentenceTransformer(model_name)] *)
  st_load : result unit;
  (** [self._st_model.encode(text, convert_to_numpy=True).tolist()] *)
  st_encode : result vector
}.

(** [EmbeddingGenerator.__init__] *)
Definition __init__ (settings : Config.Settings) (gpu_client : bool)
    (use_cache : bool)
    : EmbeddingGenerator :=
  {| gpu_client := gpu_client;
     embedding_dimension := Config.embedding_dimension settings;
     use_cache := use_cache;
     _cache := ∅;
     stats := {| embeddings_generated := 0; cache_hits := 0;
                 cache_misses := 0; errors := 0 |};
     _st_model := false |}.

Definition with_stats (f : Stats -> Stats) (g : EmbeddingGenerator)
    : EmbeddingGenerator :=
  {| gpu_client := gpu_client g; embedding_dimension := embedding_dimension g;
     use_cache := use_cache g; _cache := _cache g; stats := f (stats g);
     _st_model := _st_model g |}.

Definition add_generated : EmbeddingGenerator -> EmbeddingGenerator :=
  with_stats (fun s =>
    {| embeddings_generated := embeddings_generated s + 1;
       cache_hits := cache_hits s; cache_misses := cache_misses s;
       errors := errors s |}).
Definition add_cache_hit : EmbeddingGenerator -> EmbeddingGenerator :=
  with_stats (fun s =>
    {| embeddings_generated := embeddings_generated s;
       cache_hits := cache_hits s + 1; cache_misses := cache_misses s;
       errors := errors s |}).
Definition add_cache_miss : EmbeddingGenerator -> EmbeddingGenerator :=
  with_stats (fun s =>
    {| embeddings_generated := embeddings_generated s;
       cache_hits := cache_hits s; cache_misses := cache_misses s + 1;
       errors := errors s |}).
Definition add_error : EmbeddingGenerator -> EmbeddingGenerator :=
  with_stats (fun s =>
    {| embeddings_generated := embeddings_generated s;
       cache_hits := cache_hits s; cache_misses := cache_misses s;
       errors := errors s + 1 |}).
Definition cache_store (k : string) (v : vector) (g : EmbeddingGenerator)
    : EmbeddingGenerator :=
  {| gpu_client := gpu_client g; embedding_dimension := embedding_dimension g;
     use_cache := use_cache g; _cache := <[k := v]> (_cache g);
     stats := stats g; _st_model := _st_model g |}.
Definition model_loaded (g : EmbeddingGenerator) : EmbeddingGenerator :=
  {| gpu_client := gpu_client g; embedding_dimension := embedding_dimension g;
     use_cache := use_cache g; _cache := _cache g; stats := stats g;
     _st_model := true |}.

(** [[0.0] * n] *)
Definition zeros (n : Z) : vector := replicate (Z.to_nat n) 0%float.

Section WithHash.

(** [hashlib.sha256(text.encode()).hexdigest()] *)
Variable sha256_hexdigest : list ascii -> string.

(** [EmbeddingGenerator._get_cache_key]: the first 16 hex digits. *)
Definition _get_cache_key (text : list ascii) : string :=
  String.substring 0 16 (sha256_hexdigest text).

(** [EmbeddingGenerator._generate_with_sentence_transformers] *)
Definition _generate_with_sentence_transformers (env : Backends)
    (text : list ascii) : M EmbeddingGenerator (option vector) :=
  try_catch
    (_ <- lift (st_import env) ;;
     loaded <- gets _st_model ;;
     (if loaded then ret tt
      else (_ <- lift (st_load env) ;; modify model_loaded)) ;;
     embedding <- lift (st_encode env) ;;
     ret (Some embedding))
    any_exception
    (fun e =>
       match e with
       | ImportError => raise ImportError
       | _ => ret None
       end).

(** [EmbeddingGenerator._generate_embedding_impl] *)
Definition _generate_embedding_impl (env : Backends) (text : list ascii)
    : M EmbeddingGenerator (option vector) :=
  gpu <- gets gpu_client ;;
  from_gpu <-
    (if gpu then
       try_catch
         (embedding <- lift (gpu_generate_embedding env) ;;
          ret (truthy embedding))
         any_exception
         (fun e =>
            match e with
            | NotImplementedError => ret None
            | _ => ret None
            end)
     else ret None) ;;
  match from_gpu with
  | Some embedding => ret (Some embedding)
  | None =>
      from_st <-
        try_catch
          (embedding <- _generate_with_sentence_transformers env text ;;
           ret (truthy embedding))
          any_exception
          (fun e => ret None) ;;
      match from_st with
      | Some embedding => ret (Some embedding)
      | None =>
          n <- gets embedding_dimension ;;
          ret (Some (zeros n))
      end
  end.

(** [EmbeddingGenerator.generate_embedding] *)
Definition generate_embedding (env : Backends) (text : list ascii)
    : M EmbeddingGenerator (option vector) :=
  if blank text then ret None
  else
    let cache_key := _get_cache_key text in
    caching <- gets use_cache ;;
    cached <-
      (if caching then
         entry <- gets (fun g => _cache g !! cache_key) ;;
         match entry with
         | Some embedding => modify add_cache_hit ;; ret (Some embedding)
         | None => modify add_cache_miss ;; ret None
         end
       else ret None) ;;
    match cached with
    | Some embedding => ret (Some embedding)
    | None =>
        try_catch
          (embedding <- _generate_embedding_impl env text ;;
           match truthy embedding with
           | Some embedding =>
               (if caching then modify (cache_store cache_key embedding)
                else ret tt) ;;
               modify add_generated ;;
               ret (Some embedding)
           | None => ret None
           end)
          any_exception
          (fun e => modify add_error ;; ret None)
    end.

End WithHash.

(** *** The vocabulary of the statements about the generator *)

(** What the inference client contributes: a non-empty vector, if there is a
    client and its call returns one. *)
Definition gpu_yields (env : Backends) (g : EmbeddingGenerator)
    : option vector :=
  if gpu_client g then
    match gpu_generate_embedding env with
    | Ok embedding => truthy embedding
    | Raise _ => None
    end
  else None.

(** What the local model contributes: a non-empty vector, if the package
    imports, the model is or gets loaded, and encoding succeeds. *)
Definition st_yields (env : Backends) (g : EmbeddingGenerator)
    : option vector :=
  match st_import env with
  | Raise _ => None
  | Ok _ =>
      match (if _st_model g then Ok tt else st_load env) with
      | Raise _ => None
      | Ok _ =>
          match st_encode env with
          | Ok embedding => truthy (Some embedding)
          | Raise _ => None
          end
      end
  end.

(** The fallback chain: client, then local model, then zeros. *)
Definition chain (env : Backends) (g : EmbeddingGenerator) : vector :=
  match gpu_yields env g with
  | Some embedding => embedding
  | None =>
      match st_yields env g with
      | Some embedding => embedding
      | None => zeros (embedding_dimension g)
      end
  end.

(** *** An example generator *)

(** A generator with caching and no inference client, under settings whose
    embedding dimension is 3, and an environment without the local model. *)
Definition example_generator : EmbeddingGenerator :=
  __init__ {| Config.chunk_size_words := 3500;
          Config.chunk_overlap_words := 400;
          Config.embedding_dimension := 3 |} false true.

Definition no_backend : Backends :=
  {| gpu_generate_embedding := Raise NotImplementedError;
     st_import := Raise ImportError;
     st_load := Raise OSError;
     st_encode := Raise RuntimeError |}.

(** A stand-in for the hash: the text itself. *)
Definition identity_hash (text : list ascii) : string :=
  string_of_list_ascii text.

(** *** Batches and the cache's maintenance *)

(** The [for] loop of [generate_embeddings_batch]; [env i] is what the
    collaborators answer during the call for text [i]. *)
Fixpoint batch_loop (sha256_hexdigest : list ascii -> string)
    (env : nat -> Backends) (i : nat) (texts : list (list ascii))
    : M EmbeddingGenerator (list (option vector)) :=
  match texts with
  | [] => ret []
  | text :: rest =>
      embedding <- generate_embedding sha256_hexdigest (env i) text ;;
      embeddings <- batch_loop sha256_hexdigest env (S i) rest ;;
      ret (embedding :: embeddings)
  end.

(** [EmbeddingGenerator.generate_embeddings_batch] *)
Definition generate_embeddings_batch
    (sha256_hexdigest : list ascii -> string) (env : nat -> Backends)
    (texts : list (list ascii))
    : M EmbeddingGenerator (list (option vector)) :=
  batch_loop sha256_hexdigest env 0 texts.



(** [EmbeddingGenerator.get_cache_size] *)
Definition get_cache_size : M EmbeddingGenerator Z :=
  gets (fun g => Z.of_nat (size (_cache g))).

(** The texts of a batch that are not blank, and their cache keys. *)
Definition spoken (texts : list (list ascii)) : list (list ascii) :=
  List.filter (fun text => negb (blank text)) texts.



(** The example generator with caching off. *)
Definition uncached_generator : EmbeddingGenerator :=
  __init__ {| Config.chunk_size_words := 3500;
          Config.chunk_overlap_words := 400;
          Config.embedding_dimension := 3 |} false false.

(** The dictionary returned by [get_statistics]. *)
Record GeneratorStatistics : Type := {
  counters : Stats;
  stat_cache_size : Z;
  stat_cache_hit_rate : Qc
}.

(** [EmbeddingGenerator.get_statistics] *)
Definition get_statistics : M EmbeddingGenerator GeneratorStatistics :=
  cache_size <- get_cache_size ;;
  gets (fun g =>
    {| counters := stats g; stat_cache_size := cache_size;
       stat_cache_hit_rate :=
         rate (cache_hits (stats g)) (cache_misses (stats g)) |}).

End EmbeddingGenerator.

(** ** ingestion/supersession_detector.py *)

Module Supersession.

(** A property value in a row returned by the store: a string or null. *)
Inductive pyval : Type :=
  | PyNone
  | PyStr (s : string).

#[global] Instance pyval_eq_dec : EqDecision pyval.
Proof. solve_decision. Defined.

(** [d.get(k, default)] *)
Definition get_or (d : gmap string pyval) (k : string) (default : pyval)
    : pyval :=
  match d !! k with
  | Some v => v
  | None => default
  end.

(** [d[k]] *)
Definition item (d : gmap string pyval) (k : string) : result pyval :=
  match d !! k with
  | Some v => Ok v
  | None => Raise KeyError
  end.

(** A [datetime]: microseconds since [datetime.min] (taken in UTC when the
    value carries an offset) and whether it carries an offset. *)
Record datetime : Type := {
  ticks : Z;
  aware : bool
}.

Definition datetime_min : datetime := {| ticks := 0; aware := false |}.

(** [a <= b]: comparing an offset-naive with an offset-aware value raises
    [TypeError]. *)
Definition datetime_le (a b : datetime) : result bool :=
  if Bool.eqb (aware a) (aware b)
  then Ok (ticks a <=? ticks b)
  else Raise TypeError.

(** The functions of the Python library the detector calls. *)
Record Library : Type := {
  (** [datetime.fromisoformat]; [None] when it raises [ValueError] *)
  fromisoformat : string -> option datetime;
  (** [datetime.now()]: offset-naive, microseconds after [datetime.min] *)
  clock : positive;
  (** [str.lower] *)
  lower : string -> string;
  (** [SequenceMatcher(None, a, b).ratio()] *)
  ratio : string -> string -> Qc;
  (** the format [{similarity:.2f}] *)
  format_2f : Qc -> string;
  (** [Path(p).stem] *)
  stem : string -> string;
  (** [SESSION_DATE_PATTERN.search(s)] finds a match *)
  session_search : string -> bool;
  (** [SESSION_DATE_PATTERN.sub("", s)] *)
  session_sub : string -> string
}.

Definition TITLE_SIMILARITY_THRESHOLD : Qc := Q2Qc (85 # 100).

(** The writes the detector asks of the temporal schema manager. *)
Inductive StoreCall : Type :=
  | mark_document_superseded (document_id : pyval) (superseded_by : string)
  | create_supersedes_relationship
      (newer_document_id : string) (older_document_id : pyval)
      (reason : string).

#[global] Instance StoreCall_eq_dec : EqDecision StoreCall.
Proof. solve_decision. Defined.

(** One entry of [results["superseded"]]. *)
Record Superseded : Type := {
  sup_document_id : pyval;
  sup_title : pyval;
  sup_reason : string
}.

Record Results : Type := {
  superseded : list Superseded;
  reasons : list string;
  count : Z
}.

Section WithLibrary.

Variable L : Library.

Definition now : datetime :=
  {| ticks := Z.pos (clock L); aware := false |}.

(** [s.replace("Z", "+00:00")], on a value that may be null. *)
Definition replace_Z (v : pyval) : result string :=
  match v with
  | PyStr s => Ok (replace_char "Z"%char "+00:00" s)
  | PyNone => Raise AttributeError
  end.

Definition parse (s : string) : result datetime :=
  match fromisoformat L s with
  | Some d => Ok d
  | None => Raise ValueError
  end.

(** [if v] on a string or null. *)
Definition nonempty (v : pyval) : bool :=
  match v with
  | PyStr EmptyString => false
  | PyStr _ => true
  | PyNone => false
  end.

(** [v.lower()] on a value that may be null. *)
Definition lower_of (v : pyval) : result string :=
  match v with
  | PyStr s => Ok (lower L s)
  | PyNone => Raise AttributeError
  end.

(** [Path(v).stem] on a value that may be null. *)
Definition stem_of (v : pyval) : result string :=
  match v with
  | PyStr s => Ok (stem L s)
  | PyNone => Raise TypeError
  end.

Definition is_dash (c : ascii) : bool :=
  (Ascii.eqb c "-" || Ascii.eqb c "_")%bool.

(** The [try] block of [_should_supersede] with its [except] clause: the
    two timestamps that are compared. *)
Definition parse_dates (new_ingestion_date : pyval)
    (candidate : gmap string pyval) : result (datetime * datetime) :=
  let cand_date := get_or candidate "ingestion_date" (PyStr "") in
  try_except
    (bind (bind (replace_Z new_ingestion_date) parse) (fun new_date =>
     bind (if nonempty cand_date
           then bind (replace_Z cand_date) parse
           else Ok datetime_min) (fun cand_dt =>
     Ok (new_date, cand_dt))))
    (fun e => match e with
              | ValueError | AttributeError => true
              | _ => false
              end)
    (fun e => Ok (now, datetime_min)).

(** [SupersessionDetector._should_supersede] *)
Definition _should_supersede (new_title new_file_path : string)
    (new_ingestion_date : pyval) (candidate : gmap string pyval)
    : result (bool * string) :=
  bind (parse_dates new_ingestion_date candidate) (fun '(new_date, cand_dt) =>
  bind (datetime_le new_date cand_dt) (fun not_newer =>
  if not_newer then Ok (false, "newer_document_required"%string)
  else
    let cand_title := get_or candidate "title" (PyStr "") in
    bind (lower_of cand_title) (fun cand_lower =>
    if decide (strip (lower L new_title) = strip cand_lower)
    then Ok (true, "exact_title_match"%string)
    else
      let similarity := ratio L (lower L new_title) cand_lower in
      if decide (TITLE_SIMILARITY_THRESHOLD <= similarity)%Qc
      then Ok (true, ("title_similarity_" ++ format_2f L similarity)%string)
      else
        let cand_path := get_or candidate "file_path" (PyStr "") in
        let new_session := session_search L (stem L new_file_path) in
        bind (stem_of cand_path) (fun cand_stem =>
        let cand_session := session_search L cand_stem in
        if (new_session && cand_session)%bool then
          let new_base :=
            strip_with is_dash (session_sub L (stem L new_file_path)) in
          let cand_base := strip_with is_dash (session_sub L cand_stem) in
          if decide (lower L new_base = lower L cand_base)
          then Ok (true, "session_document_pattern"%string)
          else Ok (false, "no_supersession"%string)
        else Ok (false, "no_supersession"%string))))).

(** [SupersessionDetector._find_supersession_candidates]: the rows the
    store answers to the candidate query, or none when the query fails. *)
Definition _find_supersession_candidates
    (execute_read : result (list (gmap string pyval)))
    : list (gmap string pyval) :=
  match try_except execute_read any_exception (fun e => Ok []) with
  | Ok rows => rows
  | Raise _ => []
  end.

(** The body of the [for] loop of [detect_and_mark_supersession]; the state
    is the sequence of writes issued so far. *)
Definition detect_step (new_document_id new_title new_file_path : string)
    (new_ingestion_date : pyval) (results : Results)
    (candidate : gmap string pyval) : M (list StoreCall) Results :=
  decision <- lift (_should_supersede new_title new_file_path
                      new_ingestion_date candidate) ;;
  let '(should_supersede, reason) := decision in
  if (should_supersede : bool) then
    old_doc_id <- lift (item candidate "document_id") ;;
    modify (fun log =>
      log ++ [mark_document_superseded old_doc_id new_document_id]) ;;
    modify (fun log =>
      log ++ [create_supersedes_relationship new_document_id old_doc_id
                reason]) ;;
    title <- lift (item candidate "title") ;;
    ret {| superseded := superseded results
             ++ [{| sup_document_id := old_doc_id; sup_title := title;
                    sup_reason := reason |}];
           reasons := reasons results ++ [reason];
           count := count results |}
  else ret results.

Fixpoint detect_loop (new_document_id new_title new_file_path : string)
    (new_ingestion_date : pyval) (candidates : list (gmap string pyval))
    (results : Results) : M (list StoreCall) Results :=
  match candidates with
  | [] => ret results
  | candidate :: rest =>
      results' <- detect_step new_document_id new_title new_file_path
                    new_ingestion_date results candidate ;;
      detect_loop new_document_id new_title new_file_path
        new_ingestion_date rest results'
  end.

(** [SupersessionDetector.detect_and_mark_supersession] *)
Definition detect_and_mark_supersession
    (execute_read : result (list (gmap string pyval)))
    (new_document_id new_title new_file_path : string)
    (new_ingestion_date : pyval) : M (list StoreCall) Results :=
  let candidates := _find_supersession_candidates execute_read in
  results <- detect_loop new_document_id new_title new_file_path
               new_ingestion_date candidates
               {| superseded := []; reasons := []; count := 0 |} ;;
  ret {| superseded := superseded results;
         reasons := reasons results;
         count := len (superseded results) |}.

(** *** The vocabulary of the statements about the detector *)



End WithLibrary.

(** *** An instance of the library for the examples *)

Definition ascii_lower (c : ascii) : ascii :=
  let n := nat_of_ascii c in
  if ((65 <=? n) && (n <=? 90))%nat then ascii_of_nat (n + 32) else c.

Definition example_lower (s : string) : string :=
  string_of_list_ascii (map ascii_lower (list_ascii_of_string s)).

(** The timestamps of the examples, in microseconds since year 1. *)
Definition example_fromisoformat (s : string) : option datetime :=
  if decide (s = "2024-01-01T00:00:00"%string)
  then Some {| ticks := 63839664000000000; aware := false |}
  else if decide (s = "2024-02-01T00:00:00"%string)
  then Some {| ticks := 63842342400000000; aware := false |}
  else if decide (s = "2024-03-01T00:00:00+00:00"%string)
  then Some {| ticks := 63844848000000000; aware := true |}
  else None.

(** It parses the three timestamps above, lower-cases ASCII letters, rates
    two titles 1 when they are equal and 0 otherwise, takes a path for its
    own stem and finds no session pattern. *)
Definition example_library : Library :=
  {| fromisoformat := example_fromisoformat;
     clock := 63900000000000000%positive;
     lower := example_lower;
     ratio := fun a b => if decide (a = b) then Q2Qc 1 else Q2Qc 0;
     format_2f := fun q => if decide (q = Q2Qc 1) then "1.00" else "0.00";
     stem := fun p => p;
     session_search := fun _ => false;
     session_sub := fun s => s |}%string.

(** The stored document of the examples, ingested on 1 January 2024. *)
Definition older_row : gmap string pyval :=
  <["document_id" := PyStr "doc-a"]>
    (<["title" := PyStr "Session Report"]>
       (<["file_path" := PyStr "notes/report.md"]>
          (<["ingestion_date" := PyStr "2024-01-01T00:00:00"]> ∅)))%string.

(** *** More vocabulary *)

(** The two writes that go with one reported supersession. *)
Definition writes_for (new_document_id : string)
    (entries : list Superseded) : list StoreCall :=
  flat_map
    (fun entry =>
       [mark_document_superseded (sup_document_id entry) new_document_id;
        create_supersedes_relationship new_document_id
          (sup_document_id entry) (sup_reason entry)])
    entries.

(** A timestamp that [datetime.fromisoformat] does not take: null, or a
    string it rejects. *)
Definition unparseable (L : Library) (v : pyval) : Prop :=
  match v with
  | PyNone => True
  | PyStr s => fromisoformat L (replace_char "Z"%char "+00:00" s) = None
  end.


(** *** The retroactive scan *)

(** [needle in hay] on strings. *)
Definition contains (needle hay : string) : bool :=
  match String.index 0 needle hay with
  | Some _ => true
  | None => false
  end.

(** The writes of the scan; both identifiers are values of a row. *)
Inductive RetroCall : Type :=
  | retro_mark (document_id superseded_by : pyval)
  | retro_link (newer_document_id older_document_id : pyval)
      (reason : string).

(** One entry of [results["superseded_documents"]]. *)
Record RetroEntry : Type := {
  older : pyval;
  newer : pyval;
  retro_reason : string
}.

(** The dictionary [results] of the scan; [retro_errors] holds the
    exceptions whose messages are recorded. *)
Record RetroResults : Type := {
  documents_checked : Z;
  supersessions_found : Z;
  superseded_documents : list RetroEntry;
  retro_errors : list exn
}.

(** The scan updates [results] and the store. *)
Definition RetroState : Type := RetroResults * list RetroCall.

Definition set_checked (n : Z) (st : RetroState) : RetroState :=
  ({| documents_checked := n;
      supersessions_found := supersessions_found st.1;
      superseded_documents := superseded_documents st.1;
      retro_errors := retro_errors st.1 |}, st.2).

Definition add_entry (entry : RetroEntry) (st : RetroState) : RetroState :=
  ({| documents_checked := documents_checked st.1;
      supersessions_found := supersessions_found st.1;
      superseded_documents := superseded_documents st.1 ++ [entry];
      retro_errors := retro_errors st.1 |}, st.2).

Definition add_found (st : RetroState) : RetroState :=
  ({| documents_checked := documents_checked st.1;
      supersessions_found := supersessions_found st.1 + 1;
      superseded_documents := superseded_documents st.1;
      retro_errors := retro_errors st.1 |}, st.2).

Definition add_retro_error (e : exn) (st : RetroState) : RetroState :=
  ({| documents_checked := documents_checked st.1;
      supersessions_found := supersessions_found st.1;
      superseded_documents := superseded_documents st.1;
      retro_errors := retro_errors st.1 ++ [e] |}, st.2).

Definition store_write (call : RetroCall) (st : RetroState) : RetroState :=
  (st.1, st.2 ++ [call]).

Section Retroactive.

Variable L : Library.

(** [SupersessionDetector._should_supersede] as the scan calls it: the title
    and the file path of the later document are values of a row, too, and
    may be null. *)
Definition _should_supersede_values
    (new_title new_file_path new_ingestion_date : pyval)
    (candidate : gmap string pyval) : result (bool * string) :=
  bind (parse_dates L new_ingestion_date candidate)
    (fun '(new_date, cand_dt) =>
  bind (datetime_le new_date cand_dt) (fun not_newer =>
  if not_newer then Ok (false, "newer_document_required"%string)
  else
    bind (lower_of L new_title) (fun new_lower =>
    let cand_title := get_or candidate "title" (PyStr "") in
    bind (lower_of L cand_title) (fun cand_lower =>
    if decide (strip new_lower = strip cand_lower)
    then Ok (true, "exact_title_match"%string)
    else
      let similarity := ratio L new_lower cand_lower in
      if decide (TITLE_SIMILARITY_THRESHOLD <= similarity)%Qc
      then Ok (true, ("title_similarity_" ++ format_2f L similarity)%string)
      else
        bind (stem_of L new_file_path) (fun new_stem =>
        let cand_path := get_or candidate "file_path" (PyStr "") in
        let new_session := session_search L new_stem in
        bind (stem_of L cand_path) (fun cand_stem =>
        let cand_session := session_search L cand_stem in
        if (new_session && cand_session)%bool then
          let new_base := strip_with is_dash (session_sub L new_stem) in
          let cand_base := strip_with is_dash (session_sub L cand_stem) in
          if decide (lower L new_base = lower L cand_base)
          then Ok (true, "session_document_pattern"%string)
          else Ok (false, "no_supersession"%string)
        else Ok (false, "no_supersession"%string))))))).

(** The inner [for] loop of the scan, over [documents[i+1:]]; it ends at the
    first later document that supersedes [doc_data]. *)
Fixpoint retro_inner (dry_run : bool) (doc_data : gmap string pyval)
    (later : list (gmap string pyval)) : M RetroState unit :=
  match later with
  | [] => ret tt
  | later_data :: rest =>
      title <- lift (item later_data "title") ;;
      file_path <- lift (item later_data "file_path") ;;
      ingestion_date <- lift (item later_data "ingestion_date") ;;
      decision <- lift (_should_supersede_values title file_path
                          ingestion_date doc_data) ;;
      let '(should_supersede, reason) := decision in
      if ((should_supersede : bool)
          && negb (contains "no_supersession" reason))%bool
      then
        (if dry_run then ret tt
         else
           document_id <- lift (item doc_data "document_id") ;;
           superseded_by <- lift (item later_data "document_id") ;;
           modify (store_write (retro_mark document_id superseded_by)) ;;
           newer_id <- lift (item later_data "document_id") ;;
           older_id <- lift (item doc_data "document_id") ;;
           modify (store_write (retro_link newer_id older_id reason))) ;;
        older_title <- lift (item doc_data "title") ;;
        newer_title <- lift (item later_data "title") ;;
        modify (add_entry {| older := older_title; newer := newer_title;
                             retro_reason := reason |}) ;;
        modify add_found
      else retro_inner dry_run doc_data rest
  end.

(** The outer [for] loop, over the documents in the order of the query. *)
Fixpoint retro_outer (dry_run : bool) (documents : list (gmap string pyval))
    : M RetroState unit :=
  match documents with
  | [] => ret tt
  | doc_data :: later =>
      retro_inner dry_run doc_data later ;;
      retro_outer dry_run later
  end.

(** [SupersessionDetector.retroactively_detect_supersessions];
    [execute_read] is the outcome of the query. *)
Definition retroactively_detect_supersessions
    (execute_read : result (list (gmap string pyval))) (dry_run : bool)
    : M (list RetroCall) RetroResults :=
  fun log =>
    let start :=
      ({| documents_checked := 0; supersessions_found := 0;
          superseded_documents := []; retro_errors := [] |}, log) in
    let '(outcome, st) :=
      try_catch
        (documents <- lift execute_read ;;
         modify (set_checked (len documents)) ;;
         retro_outer dry_run documents)
        any_exception
        (fun e => modify (add_retro_error e))
        start in
    match outcome with
    | Ok _ => (Ok st.1, st.2)
    | Raise e => (Raise e, st.2)
    end.

End Retroactive.

(** A row with an identifier. *)
Definition has_document_id (row : gmap string pyval) : Prop :=
  is_Some (row !! "document_id"%string).

(** A later version of [older_row], ingested on 1 February 2024. *)
Definition newer_row : gmap string pyval :=
  <["document_id" := PyStr "doc-b"]>
    (<["title" := PyStr "Session Report"]>
       (<["file_path" := PyStr "notes/report-v2.md"]>
          (<["ingestion_date" := PyStr "2024-02-01T00:00:00"]> ∅)))%string.

(** What the scan decides about a document and a later one: the reason, if
    the later one supersedes it. *)
Definition verdict (L : Library) (doc_data later_data : gmap string pyval)
    : result (option string) :=
  bind (item later_data "title") (fun title =>
  bind (item later_data "file_path") (fun file_path =>
  bind (item later_data "ingestion_date") (fun ingestion_date =>
  bind (_should_supersede_values L title file_path ingestion_date doc_data)
    (fun '(should_supersede, reason) =>
  Ok (if ((should_supersede : bool)
          && negb (contains "no_supersession" reason))%bool
      then Some reason else None))))).

(** The writes that go with a supersession found by the scan. *)
Definition scan_writes (dry_run : bool)
    (doc_data later_data : gmap string pyval) (reason : string)
    : result (list RetroCall) :=
  if dry_run then Ok []
  else
    bind (item doc_data "document_id") (fun document_id =>
    bind (item later_data "document_id") (fun superseded_by =>
    Ok [retro_mark document_id superseded_by;
        retro_link superseded_by document_id reason])).

(** The results of the scan with some more supersessions found. *)
Definition extended (results : RetroResults) (entries : list RetroEntry)
    : RetroResults :=
  {| documents_checked := documents_checked results;
     supersessions_found := supersessions_found results + len entries;
     superseded_documents := superseded_documents results ++ entries;
     retro_errors := retro_errors results |}.

End Supersession.

(** ** search/hybrid_search.py *)

Module HybridSearch.

(** A result row.  The score fields are Python floats; the model computes
    with exact rationals, so rounding is not part of it.  The three score
    fields at the end are absent until the fusion attaches them. *)
Record Hit : Type := {
  chunk_id : option string;
  score : Qc;
  document_id : string;
  content : string;
  ingestion_date : option string;
  hybrid_score : option Qc;
  semantic_score : option Qc;
  keyword_score : option Qc
}.

Record HybridSearch : Type := {
  semantic_weight : Qc;
  keyword_weight : Qc
}.

(** The defaults of [HybridSearch.__init__]. *)
Definition default_weights : HybridSearch :=
  {| semantic_weight := Q2Qc (7 # 10); keyword_weight := Q2Qc (3 # 10) |}.

(** [{r['chunk_id']: r['score'] for r in results if 'chunk_id' in r}]: a
    later row overwrites an earlier one with the same identifier. *)
Definition score_dict (results : list Hit) : gmap string Qc :=
  fold_left
    (fun m r =>
       match chunk_id r with
       | Some i => <[i := score r]> m
       | None => m
       end)
    results ∅.

(** The first row whose ['chunk_id'] is [i]. *)
Definition find_row (i : string) (results : list Hit) : option Hit :=
  List.find (fun r => bool_decide (chunk_id r = Some i)) results.

Definition attach (hybrid semantic keyword : Qc) (r : Hit) : Hit :=
  {| chunk_id := chunk_id r; score := score r;
     document_id := document_id r; content := content r;
     ingestion_date := ingestion_date r;
     hybrid_score := Some hybrid;
     semantic_score := Some semantic;
     keyword_score := Some keyword |}.

Section WithIteration.

(** The order in which the interpreter iterates over a set of strings. *)
Variable iterate : gset string -> list string.

Variable self : HybridSearch.

(** The body of the loop of [_combine_results] for one identifier: the row
    to append, if any. *)
Definition combine_one (semantic_results keyword_results : list Hit)
    (semantic_scores keyword_scores : gmap string Qc) (i : string)
    : option Hit :=
  let semantic := default (Q2Qc 0) (semantic_scores !! i) in
  let keyword := default (Q2Qc 0) (keyword_scores !! i) in
  let hybrid :=
    (semantic_weight self * semantic + keyword_weight self * keyword)%Qc in
  let result_data :=
    match find_row i semantic_results with
    | Some r => Some r
    | None => find_row i keyword_results
    end in
  attach hybrid semantic keyword <$> result_data.

(** [HybridSearch._combine_results] *)
Definition _combine_results (semantic_results keyword_results : list Hit)
    : list Hit :=
  let semantic_scores := score_dict semantic_results in
  let keyword_scores := score_dict keyword_results in
  let all_chunk_ids := dom semantic_scores ∪ dom keyword_scores in
  omap (combine_one semantic_results keyword_results
          semantic_scores keyword_scores)
       (iterate all_chunk_ids).

(** The sort key [(x.get('hybrid_score', 0), x.get('ingestion_date', ''))]. *)
Definition sort_key (x : Hit) : Qc * string :=
  (default (Q2Qc 0) (hybrid_score x), default EmptyString (ingestion_date x)).





End WithIteration.

(** *** The vocabulary of the statements about the fusion *)

(** The score a list of rows gives to an identifier, 0 when it lists none. *)
Definition score_of (results : list Hit) (i : string) : Qc :=
  default (Q2Qc 0) (score_dict results !! i).

(** [x] may stand before [y] in the ranking: its combined score is higher,
    or the scores are equal and its ingestion date is not the earlier one. *)
Definition ranks_before (x y : Hit) : Prop :=
  ((sort_key y).1 < (sort_key x).1)%Qc
  \/ ((sort_key x).1 = (sort_key y).1
      /\ String.le (sort_key y).2 (sort_key x).2).

Definition add_row (m : gmap string Qc) (r : Hit) : gmap string Qc :=
  match chunk_id r with
  | Some i => <[i := score r]> m
  | None => m
  end.

(** *** Scenario 4 *)

(** A row of scenario 4: an identifier and a score, everything else
    fixed. *)
Definition scenario_row (i : string) (s : Q) : Hit :=
  {| chunk_id := Some i; score := Q2Qc s;
     document_id := "doc"; content := "text";
     ingestion_date := Some "2024-01-01T00:00:00"%string;
     hybrid_score := None; semantic_score := None;
     keyword_score := None |}.

Definition scenario_semantic : list Hit :=
  [scenario_row "c1" (9 # 10); scenario_row "c2" (4 # 10)].

Definition scenario_keyword : list Hit :=
  [scenario_row "c2" (8 # 10); scenario_row "c3" (6 # 10)].

End HybridSearch.

(** ** search/semantic_search.py, search/keyword_search.py and the vector
    query of graph/vector_index.py *)

Module SearchStack.
Import EmbeddingGenerator.

(** What the graph store answers during one search. *)
Record Store : Type := {
  (** the vector query, for an embedding and a number of rows *)
  vector_query : vector -> Z -> result (list HybridSearch.Hit);
  (** whether the message of its exception mentions ["vector"] or
      ["procedure"] *)
  names_vector_index : bool;
  (** the full-text query, for a query string and a number of rows *)
  fulltext_query : list ascii -> Z -> result (list HybridSearch.Hit)
}.



Section WithGenerator.

Variable sha256_hexdigest : list ascii -> string.
Variable iterate : gset string -> list string.



End WithGenerator.


(** A store whose vector index answers the semantic rows of scenario 4 and
    whose full-text query fails. *)
Definition semantic_only_store : Store :=
  {| vector_query := fun _ _ => Ok HybridSearch.scenario_semantic;
     names_vector_index := false;
     fulltext_query := fun _ _ => Raise OSError |}.

End SearchStack.

(** ** embeddings/batch_processor.py *)

Module BatchEmbeddingProcessor.

(** The counters of the processor; [time_elapsed], a reading of the clock,
    is left out. *)
Record ProcessorStats : Type := {
  total_processed : Z;
  successful : Z;
  failed : Z;
  cached : Z
}.

(** The processor.  [cache] is [None] without [use_cache]; [vector_manager]
    tells whether there is one (a client for the graph store was passed). *)
Record BatchEmbeddingProcessor : Type := {
  batch_size : Z;
  generator : EmbeddingGenerator.EmbeddingGenerator;
  cache : option EmbeddingCache.EmbeddingCache;
  vector_manager : bool;
  stats : ProcessorStats
}.

(** What the collaborators answer while one text is processed. *)
Record ItemEnv : Type := {
  (** [open(cache_file, 'rb')] in [cache.get] *)
  open_rb : result unit;
  (** the backends of the generator *)
  backends : EmbeddingGenerator.Backends;
  (** [open(cache_file, 'wb')] and [pickle.dump] in [cache.set] *)
  open_wb : result unit;
  dump : result unit;
  (** [vector_manager.add_chunk_embedding]: whether a node was updated *)
  add_chunk_embedding : result bool
}.

(** The dictionary returned by [get_statistics]. *)
Record Statistics : Type := {
  own : ProcessorStats;
  of_generator : EmbeddingGenerator.GeneratorStatistics;
  of_cache : option EmbeddingCache.CacheStatistics
}.

(** [BatchEmbeddingProcessor.__init__]; [directory] is the cache directory
    as it is found. *)
Definition __init__ (settings : Config.Settings) (neo4j_client : bool)
    (gpu_client : bool) (use_cache : bool) (batch_size : Z)
    (directory : gmap string EmbeddingCache.file)
    : BatchEmbeddingProcessor :=
  {| batch_size := batch_size;
     generator := EmbeddingGenerator.__init__ settings gpu_client use_cache;
     cache := if use_cache then Some (EmbeddingCache.__init__ directory)
              else None;
     vector_manager := neo4j_client;
     stats := {| total_processed := 0; successful := 0; failed := 0;
                 cached := 0 |} |}.

Definition with_stats (f : ProcessorStats -> ProcessorStats)
    (p : BatchEmbeddingProcessor) : BatchEmbeddingProcessor :=
  {| batch_size := batch_size p; generator := generator p; cache := cache p;
     vector_manager := vector_manager p; stats := f (stats p) |}.

Definition add_total : BatchEmbeddingProcessor -> BatchEmbeddingProcessor :=
  with_stats (fun s =>
    {| total_processed := total_processed s + 1; successful := successful s;
       failed := failed s; cached := cached s |}).
Definition add_successful
    : BatchEmbeddingProcessor -> BatchEmbeddingProcessor :=
  with_stats (fun s =>
    {| total_processed := total_processed s; successful := successful s + 1;
       failed := failed s; cached := cached s |}).
Definition add_failed : BatchEmbeddingProcessor -> BatchEmbeddingProcessor :=
  with_stats (fun s =>
    {| total_processed := total_processed s; successful := successful s;
       failed := failed s + 1; cached := cached s |}).
Definition add_cached : BatchEmbeddingProcessor -> BatchEmbeddingProcessor :=
  with_stats (fun s =>
    {| total_processed := total_processed s; successful := successful s;
       failed := failed s; cached := cached s + 1 |}).

(** A call on [self.generator]. *)
Definition on_generator {A} (c : M EmbeddingGenerator.EmbeddingGenerator A)
    : M BatchEmbeddingProcessor A :=
  zoom generator
    (fun g p =>
       {| batch_size := batch_size p; generator := g; cache := cache p;
          vector_manager := vector_manager p; stats := stats p |})
    c.

(** A call on [self.cache], which is [c0] before the call. *)
Definition on_cache {A} (c0 : EmbeddingCache.EmbeddingCache)
    (c : M EmbeddingCache.EmbeddingCache A) : M BatchEmbeddingProcessor A :=
  zoom (fun _ => c0)
    (fun c' p =>
       {| batch_size := batch_size p; generator := generator p;
          cache := Some c'; vector_manager := vector_manager p;
          stats := stats p |})
    c.

Section WithHash.

Variable sha256_hexdigest : list ascii -> string.

(** The body of the inner loop of [process_chunks], for one chunk. *)
Definition process_item (env : ItemEnv) (store_in_neo4j : bool)
    (chunk_id : string) (text : list ascii) : M BatchEmbeddingProcessor unit :=
  the_cache <- gets cache ;;
  from_cache <-
    match the_cache with
    | Some c0 =>
        embedding <- on_cache c0
                       (EmbeddingCache.get sha256_hexdigest (open_rb env)
                          text) ;;
        match truthy embedding with
        | Some _ => modify add_cached
        | None => ret tt
        end ;;
        ret embedding
    | None => ret None
    end ;;
  embedding <-
    match truthy from_cache with
    | Some v => ret (Some v)
    | None =>
        on_generator
          (EmbeddingGenerator.generate_embedding sha256_hexdigest
             (backends env) text)
    end ;;
  the_cache <- gets cache ;;
  match truthy embedding, the_cache with
  | Some v, Some c0 =>
      _ <- on_cache c0
             (EmbeddingCache.set sha256_hexdigest (open_wb env) (dump env)
                text v) ;;
      ret tt
  | _, _ => ret tt
  end ;;
  has_manager <- gets vector_manager ;;
  match truthy embedding with
  | Some v =>
      if (store_in_neo4j && has_manager)%bool then
        success <- lift (add_chunk_embedding env) ;;
        if (success : bool) then modify add_successful
        else modify add_failed
      else modify add_successful
  | None => modify add_failed
  end ;;
  modify add_total.

(** The items of a batch with their places in the whole input. *)
Definition numbered (first : Z) (batch_ids : list string)
    (batch_texts : list (list ascii))
    : list (nat * (string * list ascii)) :=
  imap (fun j item => (Z.to_nat first + j, item))%nat
    (zip batch_ids batch_texts).

(** The inner loop: the chunks of one batch; [env n] is what the
    collaborators answer for chunk [n] of the input. *)
Definition process_batch (env : nat -> ItemEnv) (store_in_neo4j : bool)
    (items : list (nat * (string * list ascii)))
    : M BatchEmbeddingProcessor unit :=
  for_each items
    (fun '(n, (chunk_id, text)) =>
       process_item (env n) store_in_neo4j chunk_id text).

(** [BatchEmbeddingProcessor.get_statistics] *)
Definition get_statistics : M BatchEmbeddingProcessor Statistics :=
  own_stats <- gets stats ;;
  gen_stats <- on_generator EmbeddingGenerator.get_statistics ;;
  the_cache <- gets cache ;;
  cache_stats <-
    match the_cache with
    | Some c0 =>
        cache_stats <- on_cache c0 EmbeddingCache.get_statistics ;;
        ret (Some cache_stats)
    | None => ret None
    end ;;
  ret {| own := own_stats; of_generator := gen_stats;
         of_cache := cache_stats |}.

(** [BatchEmbeddingProcessor.process_chunks] *)
Definition process_chunks (env : nat -> ItemEnv)
    (chunk_ids : list string) (chunk_texts : list (list ascii))
    (store_in_neo4j : bool) : M BatchEmbeddingProcessor Statistics :=
  if negb (len chunk_ids =? len chunk_texts) then raise ValueError
  else
    size <- gets batch_size ;;
    starts <- lift (range3 0 (len chunk_texts) size) ;;
    for_each starts
      (fun i =>
         let batch_ids := slice chunk_ids i (i + size) in
         let batch_texts := slice chunk_texts i (i + size) in
         process_batch env store_in_neo4j
           (numbered i batch_ids batch_texts)) ;;
    get_statistics.

(** [BatchEmbeddingProcessor.reset_statistics] *)
Definition reset_statistics : M BatchEmbeddingProcessor unit :=
  modify (with_stats (fun _ =>
    {| total_processed := 0; successful := 0; failed := 0; cached := 0 |})).

End WithHash.

(** *** The vocabulary of the statements about the processor *)

(** All chunks in one loop, without batches. *)
Definition process_all (sha256_hexdigest : list ascii -> string)
    (env : nat -> ItemEnv) (store_in_neo4j : bool)
    (chunk_ids : list string) (chunk_texts : list (list ascii))
    : M BatchEmbeddingProcessor unit :=
  process_batch sha256_hexdigest env store_in_neo4j
    (numbered 0 chunk_ids chunk_texts).

(** The same processor with another batch size. *)
Definition with_batch_size (size : Z) (p : BatchEmbeddingProcessor)
    : BatchEmbeddingProcessor :=
  {| batch_size := size; generator := generator p; cache := cache p;
     vector_manager := vector_manager p; stats := stats p |}.

(** *** An example *)

Definition quiet_item : ItemEnv :=
  {| open_rb := Ok tt; backends := EmbeddingGenerator.no_backend;
     open_wb := Ok tt; dump := Ok tt; add_chunk_embedding := Ok true |}.

(** A processor without store and without persistent cache, embedding
    dimension 3, batches of two. *)
Definition example_processor : BatchEmbeddingProcessor :=
  __init__ {| Config.chunk_size_words := 3500;
              Config.chunk_overlap_words := 400;
              Config.embedding_dimension := 3 |} false false false 2 ∅.

End BatchEmbeddingProcessor.

(** * Properties *)

(** ** Slices *)

Module PyFacts.

(** A slice with non-negative bounds. *)
Lemma slice_nonneg {A} (l : list A) (i j : Z) :
  0 <= i -> 0 <= j ->
  slice l i j = firstn (Z.to_nat j - Z.to_nat i) (skipn (Z.to_nat i) l).
Proof.
  intros Hi Hj. unfold slice, slice_index, len.
  destruct (Z.ltb_spec i 0); [lia|]. destruct (Z.ltb_spec j 0); [lia|].
  destruct (Z_lt_le_dec i (Z.of_nat (length l))) as [Hlt|Hge].
  - rewrite (Z.min_l i) by lia.
    destruct (Z_lt_le_dec j (Z.of_nat (length l))) as [Hj'|Hj'].
    + rewrite Z.min_l by lia. f_equal. lia.
    + rewrite Z.min_r by lia.
      rewrite !firstn_all2; [reflexivity | |]; rewrite length_skipn; lia.
  - rewrite (Z.min_r i) by lia.
    rewrite !skipn_all2 by lia. rewrite !firstn_nil. reflexivity.
Qed.

(** [l[:k]] for a non-negative [k]. *)
Lemma slice_to_take {A} (l : list A) (k : Z) :
  0 <= k -> slice_to l k = firstn (Z.to_nat k) l.
Proof.
  intros Hk. unfold slice_to. rewrite slice_nonneg by lia.
  cbn. f_equal. lia.
Qed.

(** [l[i:]] for a non-negative [i]. *)
Lemma slice_from_drop {A} (l : list A) (i : Z) :
  0 <= i -> slice_from l i = skipn (Z.to_nat i) l.
Proof.
  intros Hi. unfold slice_from. rewrite slice_nonneg by (unfold len; lia).
  apply firstn_all2. rewrite length_skipn. unfold len. lia.
Qed.

End PyFacts.

(** ** The chunker's constructor *)

Module ChunkerInit.
Import Chunker.

Lemma or_default_zero (d : Z) : or_default (Some 0) d = d.
Proof. reflexivity. Qed.

Lemma or_default_none (d : Z) : or_default None d = d.
Proof. reflexivity. Qed.

Lemma or_default_given (v d : Z) : v <> 0 -> or_default (Some v) d = v.
Proof.
  intros Hv. unfold or_default.
  destruct (Z.eqb_spec v 0) as [->|_]; [contradiction|reflexivity].
Qed.

(** The value [__init__] stores is never an explicitly passed zero. *)
Lemma or_default_is_zero (x : option Z) (d : Z) :
  or_default x d = 0 -> d = 0 /\ (x = None \/ x = Some 0).
Proof.
  destruct x as [v|]; simpl.
  - destruct (Z.eqb_spec v 0) as [->|Hv]; intros H.
    + split; [exact H | right; reflexivity].
    + contradiction.
  - intros H. split; [exact H | left; reflexivity].
Qed.

(** C9.  A constructor argument of 0, for the size or for the overlap, is
    replaced by the value from the settings exactly as an omitted argument
    is; hence a chunker whose overlap is 0 got that 0 from the settings and
    not from the argument; and [ValueError] is raised exactly when the
    values after substitution have overlap >= size, whatever the arguments
    were (an overlap argument of 0 with size 100 is rejected under the
    default settings, because 400 is compared with 100). *)
Theorem init_substitutes_falsy_arguments :
  forall (settings : Config.Settings) (size_arg overlap_arg : option Z),
    __init__ settings (Some 0) overlap_arg = __init__ settings None overlap_arg
    /\ __init__ settings size_arg (Some 0) = __init__ settings size_arg None
    /\ (forall c, __init__ settings size_arg overlap_arg = Ok c ->
          chunk_overlap c = 0 ->
          Config.chunk_overlap_words settings = 0
          /\ (overlap_arg = None \/ overlap_arg = Some 0))
    /\ (__init__ settings size_arg overlap_arg = Raise ValueError <->
          or_default size_arg (Config.chunk_size_words settings)
          <= or_default overlap_arg (Config.chunk_overlap_words settings))
    /\ __init__ Config.default_settings (Some 100) (Some 0) = Raise ValueError
    /\ __init__ Config.default_settings (Some 0) (Some 3000)
       = Ok {| chunk_size := 3500; chunk_overlap := 3000 |}.
Proof.
  intros settings size_arg overlap_arg.
  split; [reflexivity|]. split; [reflexivity|].
  split; [|split; [|split; reflexivity]].
  - intros c Hinit Hzero. unfold __init__ in Hinit.
    destruct (_ >=? _) in Hinit; [discriminate|].
    injection Hinit as <-. simpl in Hzero.
    exact (or_default_is_zero _ _ Hzero).
  - unfold __init__.
    destruct (Z.geb_spec
                (or_default overlap_arg (Config.chunk_overlap_words settings))
                (or_default size_arg (Config.chunk_size_words settings)))
      as [Hge|Hlt].
    + split; [intros _; lia | reflexivity].
    + split; [discriminate | lia].
Qed.

End ChunkerInit.

(** ** Words *)

Module Words.
Import Chunker.

Lemma split_aux_words (s cur : list ascii) :
  Forall (fun c => is_space c = false) cur ->
  Forall word (split_aux cur s).
Proof.
  revert cur. induction s as [|c s IH]; intros cur Hcur; cbn.
  - destruct cur as [|a cur]; [constructor|].
    constructor; [|constructor].
    split; [intros H; apply (f_equal (@length _)) in H;
            rewrite length_rev in H; discriminate|].
    apply Forall_rev. exact Hcur.
  - destruct (is_space c) eqn:Hc.
    + destruct cur as [|a cur]; [apply IH; constructor|].
      constructor; [|apply IH; constructor].
      split; [intros H; apply (f_equal (@length _)) in H;
              rewrite length_rev in H; discriminate|].
      apply Forall_rev. exact Hcur.
    + apply IH. constructor; assumption.
Qed.

(** [split] yields words. *)
Lemma split_words (s : list ascii) : Forall word (split s).
Proof. apply split_aux_words. constructor. Qed.

(** Whitespace only: no words. *)
Lemma split_blank (s : list ascii) : blank s = true -> split s = [].
Proof.
  unfold split, blank. induction s as [|c s IH]; cbn; [reflexivity|].
  intros H. apply andb_prop in H as [Hc Hs]. rewrite Hc. auto.
Qed.

Lemma split_aux_app_word (w rest cur : list ascii) :
  Forall (fun c => is_space c = false) w ->
  split_aux cur (w ++ rest) = split_aux (rev w ++ cur) rest.
Proof.
  revert cur. induction w as [|c w IH]; intros cur Hw; [reflexivity|].
  inversion Hw as [|? ? Hc Hw']; subst. cbn. rewrite Hc.
  rewrite IH by exact Hw'. rewrite <- app_assoc. reflexivity.
Qed.

Lemma space_is_space : is_space space = true.
Proof. reflexivity. Qed.

(** Splitting the join of words gives the words back. *)
Lemma split_join (ws : list (list ascii)) :
  Forall word ws -> split (join ws) = ws.
Proof.
  unfold split. induction 1 as [|w ws [Hne Hw] Hws IH]; [reflexivity|].
  destruct ws as [|w' ws].
  - cbn. rewrite <- (app_nil_r w) at 1.
    rewrite split_aux_app_word by exact Hw. cbn.
    rewrite app_nil_r. destruct (rev w) eqn:E.
    + apply (f_equal (@length _)) in E. rewrite length_rev in E.
      destruct w; [contradiction | discriminate].
    + rewrite <- E, rev_involutive. reflexivity.
  - change (join (w :: w' :: ws)) with (w ++ space :: join (w' :: ws)).
    rewrite split_aux_app_word by exact Hw.
    cbn [split_aux]. rewrite space_is_space. rewrite app_nil_r.
    destruct (rev w) eqn:E.
    + apply (f_equal (@length _)) in E. rewrite length_rev in E.
      destruct w; [contradiction | discriminate].
    + rewrite <- E, rev_involutive. f_equal. exact IH.
Qed.

Lemma Forall_word_firstn (n : nat) (ws : list (list ascii)) :
  Forall word ws -> Forall word (firstn n ws).
Proof. apply Forall_take. Qed.

Lemma Forall_word_skipn (n : nat) (ws : list (list ascii)) :
  Forall word ws -> Forall word (skipn n ws).
Proof. apply Forall_drop. Qed.

(** The join of a non-empty list of words is not empty. *)
Lemma join_nonempty (ws : list (list ascii)) :
  Forall word ws -> ws <> [] -> 0 < len (join ws).
Proof.
  intros Hws Hne. destruct ws as [|w ws]; [contradiction|].
  inversion Hws as [|? ? [Hw _] _]; subst.
  destruct w as [|c w]; [contradiction|].
  destruct ws; unfold len; cbn; lia.
Qed.

(** Joining two non-empty lists of words puts one space between them. *)
Lemma join_app (a b : list (list ascii)) :
  a <> [] -> b <> [] -> join (a ++ b) = join a ++ space :: join b.
Proof.
  intros Ha Hb. induction a as [|w a IH]; [contradiction|].
  destruct a as [|w' a].
  - cbn. destruct b; [contradiction | reflexivity].
  - change (join ((w :: w' :: a) ++ b))
      with (w ++ space :: join ((w' :: a) ++ b)).
    rewrite IH by discriminate.
    change (join (w :: w' :: a)) with (w ++ space :: join (w' :: a)).
    rewrite <- app_assoc. reflexivity.
Qed.

(** The estimate of [_find_char_position] is the length of the joined
    words plus one space. *)
Lemma sum_len_plus_one_join (ws : list (list ascii)) :
  ws <> [] -> sum_len_plus_one ws = len (join ws) + 1.
Proof.
  intros Hne. induction ws as [|w ws IH]; [contradiction|].
  destruct ws as [|w' ws].
  - cbn. lia.
  - change (sum_len_plus_one (w :: w' :: ws))
      with (len w + 1 + sum_len_plus_one (w' :: ws)).
    rewrite IH by discriminate.
    change (join (w :: w' :: ws)) with (w ++ space :: join (w' :: ws)).
    unfold len. rewrite length_app. cbn [length]. lia.
Qed.

Lemma sum_len_plus_one_nonneg (ws : list (list ascii)) :
  0 <= sum_len_plus_one ws.
Proof.
  unfold sum_len_plus_one, len.
  induction ws as [|w ws IH]; cbn [fold_right]; lia.
Qed.

(** In a text that is its words joined by single spaces, the estimate for
    word [i] is where the rest of the text from word [i] on begins. *)
Lemma skipn_join (ws : list (list ascii)) (i : nat) :
  (i < length ws)%nat ->
  skipn (Z.to_nat (sum_len_plus_one (firstn i ws))) (join ws)
  = join (skipn i ws).
Proof.
  intros Hi. destruct i as [|i]; [reflexivity|].
  assert (Ha : firstn (S i) ws <> [])
    by (destruct ws; [cbn in Hi; lia | discriminate]).
  assert (Hb : skipn (S i) ws <> []).
  { intros E. apply (f_equal (@length _)) in E.
    rewrite length_skipn in E. cbn in E. lia. }
  rewrite <- (firstn_skipn (S i) ws) at 2.
  rewrite join_app by assumption.
  rewrite sum_len_plus_one_join by exact Ha.
  unfold len.
  replace (Z.to_nat (Z.of_nat (length (join (firstn (S i) ws))) + 1))
    with (1 + length (join (firstn (S i) ws)))%nat by lia.
  rewrite <- skipn_skipn. rewrite drop_app_length. reflexivity.
Qed.

(** The join of the first [m] words is a prefix of the join of all. *)
Lemma firstn_join (ws : list (list ascii)) (m : nat) :
  firstn (length (join (firstn m ws))) (join ws) = join (firstn m ws).
Proof.
  destruct (Nat.le_gt_cases (length ws) m) as [Hge|Hlt].
  - rewrite (firstn_all2 ws) by exact Hge. apply firstn_all.
  - destruct m as [|m]; [reflexivity|].
    assert (Ha : firstn (S m) ws <> [])
      by (destruct ws; [cbn in Hlt; lia | discriminate]).
    assert (Hb : skipn (S m) ws <> []).
    { intros E. apply (f_equal (@length _)) in E.
      rewrite length_skipn in E. cbn in E. lia. }
    rewrite <- (firstn_skipn (S m) ws) at 2.
    rewrite join_app by assumption.
    apply take_app_length.
Qed.

End Words.

(** ** The chunker's loop *)

Module ChunkerFacts.
Import Chunker Words.

Lemma window_firstn (self : TextChunker) (words : list (list ascii)) (i : Z) :
  0 <= i -> 0 < chunk_size self ->
  window self words i
  = firstn (Z.to_nat (chunk_size self)) (skipn (Z.to_nat i) words).
Proof.
  intros Hi Hs. unfold window. rewrite PyFacts.slice_nonneg by lia.
  f_equal. lia.
Qed.

(** A window has [chunk_size] words, or what is left of the text. *)
Lemma window_length (self : TextChunker) (words : list (list ascii)) (i : Z) :
  0 <= i -> 0 < chunk_size self -> i <= len words ->
  len (window self words i) = Z.min (chunk_size self) (len words - i).
Proof.
  intros Hi Hs Hn. rewrite window_firstn by assumption.
  unfold len in *. rewrite length_firstn, length_skipn. lia.
Qed.

Lemma window_words (self : TextChunker) (words : list (list ascii)) (i : Z) :
  0 <= i -> 0 < chunk_size self ->
  Forall word words -> Forall word (window self words i).
Proof.
  intros Hi Hs Hw. rewrite window_firstn by assumption.
  apply Forall_word_firstn, Forall_word_skipn, Hw.
Qed.

(** Under a positive size and stride the loop ends within [len words - idx]
    rounds, raises nothing, and yields the chunks of the windows at
    [idx], [idx + stride], ... below [len words], numbered from
    [position]. *)
Lemma chunk_loop_spec (self : TextChunker) (text : list ascii)
    (words : list (list ascii)) :
  0 < chunk_size self -> 0 < stride self ->
  forall (fuel : nat) (position idx : Z),
    0 <= idx -> len words - idx <= Z.of_nat fuel ->
    exists chunks,
      chunk_loop fuel self text words position idx = Some (Ok chunks)
      /\ (forall j : nat,
            (j < length chunks)%nat <->
            idx + Z.of_nat j * stride self < len words)
      /\ (forall (j : nat) ch,
            chunks !! j = Some ch ->
            ch = loop_chunk self text words (position + Z.of_nat j)
                   (idx + Z.of_nat j * stride self)).
Proof.
  intros Hsize Hstride. unfold stride in *.
  induction fuel as [|fuel IH]; intros position idx Hidx Hfuel.
  - exists []. cbn. destruct (Z.ltb_spec idx (len words)); [lia|].
    split; [reflexivity|]. split.
    + intros j. cbn. split; [lia | nia].
    + intros j ch Hj. rewrite lookup_nil in Hj. discriminate.
  - cbn [chunk_loop].
    destruct (Z.ltb_spec idx (len words)) as [Hlt|Hge].
    + pose proof (window_length self words idx Hidx Hsize ltac:(lia)) as Hlen.
      unfold window in Hlen.
      destruct (slice words idx (idx + chunk_size self))
        as [|first_word rest] eqn:Hslice.
      { unfold len in Hlen, Hlt. cbn in Hlen. lia. }
      destruct (IH (position + 1)
                  (idx + (chunk_size self - chunk_overlap self))
                  ltac:(lia) ltac:(lia))
        as (chunks & -> & Hcount & Hnth).
      eexists. split; [reflexivity|]. split.
      * intros [|j]; cbn [length].
        -- split; [lia | intros _; lia].
        -- rewrite <- Nat.succ_lt_mono, Hcount.
           replace (idx + (chunk_size self - chunk_overlap self)
                    + Z.of_nat j * (chunk_size self - chunk_overlap self))
             with (idx + Z.of_nat (S j)
                         * (chunk_size self - chunk_overlap self)) by lia.
           reflexivity.
      * intros [|j] ch Hj; cbn in Hj.
        -- injection Hj as <-.
           unfold loop_chunk, window, _find_char_position.
           rewrite Z.mul_0_l, !Z.add_0_r, Hslice. reflexivity.
        -- apply Hnth in Hj. rewrite Hj. f_equal; lia.
    + exists []. split; [reflexivity|]. split.
      * intros j. cbn. split; [lia | nia].
      * intros j ch Hj. rewrite lookup_nil in Hj. discriminate.
Qed.

End ChunkerFacts.

(** ** The chunks of [chunk_text] *)

Module ChunkTextSpec.
Import Chunker Words ChunkerFacts.

(** A text with more words than fit one chunk goes through the loop, which
    ends and yields the chunks of all windows that start inside the text. *)
Lemma chunk_text_long (self : TextChunker) (text : list ascii) :
  0 < chunk_size self -> 0 < stride self ->
  chunk_size self < len (split text) ->
  exists chunks,
    chunk_text self text = Some (Ok chunks)
    /\ (forall k : nat,
          (k < length chunks)%nat <->
          Z.of_nat k * stride self < len (split text))
    /\ (forall (k : nat) ch,
          chunks !! k = Some ch ->
          ch = loop_chunk self text (split text) (Z.of_nat k)
                 (Z.of_nat k * stride self)).
Proof.
  intros Hsize Hstride Hlong. unfold chunk_text.
  destruct (blank text) eqn:Hb.
  { rewrite (split_blank text Hb) in Hlong. unfold len in Hlong.
    cbn in Hlong. lia. }
  destruct (Z.leb_spec (len (split text)) (chunk_size self)); [lia|].
  destruct (chunk_loop_spec self text (split text) Hsize Hstride
              (length (split text)) 0 0 ltac:(lia)
              ltac:(unfold len; lia))
    as (chunks & Heq & Hcount & Hnth).
  exists chunks. split; [exact Heq|]. split.
  - intros k. rewrite Hcount. rewrite Z.add_0_l. reflexivity.
  - intros k ch Hk. apply Hnth in Hk. rewrite Hk. f_equal; lia.
Qed.

(** The words of a loop chunk are those of its window. *)
Lemma words_of_loop_chunk (self : TextChunker) (text : list ascii)
    (position i : Z) :
  0 <= i -> 0 < chunk_size self ->
  words_of (loop_chunk self text (split text) position i)
  = window self (split text) i.
Proof.
  intros Hi Hsize. unfold words_of, loop_chunk. cbn.
  apply split_join, window_words; [assumption..|apply split_words].
Qed.

(** *** Window sizes and overlaps *)

(** As worded, the property fails: with size 4 and overlap 3 the text
    ["a b c d e"] yields the chunks ["a b c d"], ["b c d e"], ["c d e"],
    ["d e"] and ["e"].  The third, which is not the last, has three words;
    and the fourth, which is not the last either, does not begin with the
    last three words of the third. *)
Lemma short_chunk_before_last :
  chunk_size dense_chunker < len (split (str "a b c d e"))
  /\ exists chunks,
       chunk_text dense_chunker (str "a b c d e") = Some (Ok chunks)
       /\ ~ every_chunk_but_last_is_full dense_chunker chunks
       /\ ~ consecutive_chunks_overlap dense_chunker chunks.
Proof.
  split; [reflexivity|].
  eexists. split; [vm_compute; reflexivity|]. split.
  - intros H. specialize (H 2%nat _ eq_refl ltac:(cbn; lia)).
    vm_compute in H. discriminate.
  - intros H. specialize (H 2%nat _ _ eq_refl eq_refl ltac:(cbn; lia)).
    vm_compute in H. discriminate.
Qed.

(** C1, amended.  For a text with more than [chunk_size] words and
    [0 <= chunk_overlap < chunk_size], [chunk_text] returns one chunk for
    every multiple of the stride [chunk_size - chunk_overlap] below the
    number of words; chunk [k] has position [k] and holds the words of the
    window that starts at word [k * stride], that is [chunk_size] words, or
    the rest of the text where fewer are left (which may be the case for
    several chunks at the end, not only the last); and when chunk [k] is
    full, its last [chunk_overlap] words are the first [chunk_overlap] words
    of chunk [k + 1], or all of chunk [k + 1] if it is shorter than that. *)
Theorem long_text_windows :
  forall (self : TextChunker) (text : list ascii),
    0 <= chunk_overlap self < chunk_size self ->
    chunk_size self < len (split text) ->
    exists chunks,
      chunk_text self text = Some (Ok chunks)
      /\ (forall k : nat,
            (k < length chunks)%nat <->
            Z.of_nat k * stride self < len (split text))
      /\ (forall (k : nat) ch,
            chunks !! k = Some ch ->
            position ch = Z.of_nat k
            /\ words_of ch
               = window self (split text) (Z.of_nat k * stride self)
            /\ word_count ch = len (words_of ch)
            /\ len (words_of ch)
               = Z.min (chunk_size self)
                   (len (split text) - Z.of_nat k * stride self))
      /\ (forall (k : nat) ch ch',
            chunks !! k = Some ch ->
            chunks !! S k = Some ch' ->
            len (words_of ch) = chunk_size self ->
            skipn (length (words_of ch) - Z.to_nat (chunk_overlap self))
              (words_of ch)
            = firstn (Z.to_nat (chunk_overlap self)) (words_of ch')).
Proof.
  intros self text Hov Hlong.
  assert (Hsize : 0 < chunk_size self) by lia.
  assert (Hstride : 0 < stride self) by (unfold stride; lia).
  destruct (chunk_text_long self text Hsize Hstride Hlong)
    as (chunks & Heq & Hcount & Hnth).
  exists chunks. split; [exact Heq|]. split; [exact Hcount|]. split.
  - intros k ch Hk.
    assert (Hin : Z.of_nat k * stride self < len (split text)).
    { apply Hcount. apply lookup_lt_Some in Hk. exact Hk. }
    apply Hnth in Hk. subst ch.
    rewrite words_of_loop_chunk by lia.
    split; [reflexivity|]. split; [reflexivity|]. split; [reflexivity|].
    apply window_length; lia.
  - intros k ch ch' Hk Hk' Hfull.
    apply Hnth in Hk, Hk'. subst ch ch'.
    rewrite !words_of_loop_chunk in * by lia.
    rewrite !window_firstn in * by lia.
    set (ws := split text) in *.
    set (a := Z.to_nat (Z.of_nat k * stride self)) in *.
    replace (Z.to_nat (Z.of_nat (S k) * stride self))
      with (a + Z.to_nat (stride self))%nat by lia.
    unfold len in Hfull.
    replace (length (firstn (Z.to_nat (chunk_size self)) (skipn a ws))
             - Z.to_nat (chunk_overlap self))%nat
      with (Z.to_nat (stride self)) by (unfold stride; lia).
    rewrite skipn_firstn_comm, skipn_skipn, firstn_firstn.
    unfold stride in *. f_equal; [lia | f_equal; lia].
Qed.

Lemma long_text_windows_witness :
  exists chunks,
    chunk_text dense_chunker (str "a b c d e") = Some (Ok chunks)
    /\ (forall k : nat,
          (k < length chunks)%nat <->
          Z.of_nat k * stride dense_chunker < len (split (str "a b c d e")))
    /\ (forall (k : nat) ch,
          chunks !! k = Some ch ->
          position ch = Z.of_nat k
          /\ words_of ch
             = window dense_chunker (split (str "a b c d e"))
                 (Z.of_nat k * stride dense_chunker)
          /\ word_count ch = len (words_of ch)
          /\ len (words_of ch)
             = Z.min (chunk_size dense_chunker)
                 (len (split (str "a b c d e"))
                  - Z.of_nat k * stride dense_chunker))
    /\ (forall (k : nat) ch ch',
          chunks !! k = Some ch ->
          chunks !! S k = Some ch' ->
          len (words_of ch) = chunk_size dense_chunker ->
          skipn (length (words_of ch)
                 - Z.to_nat (chunk_overlap dense_chunker))
            (words_of ch)
          = firstn (Z.to_nat (chunk_overlap dense_chunker)) (words_of ch')).
Proof.
  apply (long_text_windows dense_chunker (str "a b c d e")).
  - cbn. lia.
  - reflexivity.
Defined.

(** *** Character offsets *)

(** As worded, the property fails on a text with leading whitespace: the
    first chunk of [" a b c"] is ["a b"] with [start_char = 0] and
    [end_char = 3], where the text reads [" a "]. *)
Lemma start_char_misses_content :
  blank (str " a b c") = false
  /\ exists chunks ch,
       chunk_text sparse_chunker (str " a b c") = Some (Ok chunks)
       /\ chunks !! 0%nat = Some ch
       /\ content ch = str "a b"
       /\ start_char ch = 0
       /\ slice (str " a b c") (start_char ch) (end_char ch) = str " a "
       /\ ~ located (str " a b c") ch.
Proof.
  split; [reflexivity|].
  eexists _, _. split; [vm_compute; reflexivity|].
  split; [reflexivity|].
  split; [reflexivity|]. split; [reflexivity|]. split; [reflexivity|].
  unfold located. vm_compute. discriminate.
Qed.

(** A text that is not blank has a character. *)
Lemma not_blank_nonempty (text : list ascii) :
  blank text = false -> 0 < len text.
Proof. destruct text; [discriminate | unfold len; cbn; lia]. Qed.

(** In a text that is its words joined by single spaces, a loop chunk is
    found at its [start_char]. *)
Lemma loop_chunk_located (self : TextChunker) (text : list ascii)
    (position : Z) (i : nat) :
  0 < chunk_size self ->
  (i < length (split text))%nat ->
  text = join (split text) ->
  located text (loop_chunk self text (split text) position (Z.of_nat i)).
Proof.
  intros Hsize Hi Htext. unfold located, loop_chunk. cbn.
  rewrite PyFacts.slice_to_take by lia.
  rewrite window_firstn by lia.
  rewrite !Nat2Z.id.
  set (ws := split text) in *.
  pose proof (sum_len_plus_one_nonneg (firstn i ws)) as Hnonneg.
  rewrite PyFacts.slice_nonneg by (unfold len; lia).
  rewrite Htext at 1. rewrite skipn_join by exact Hi.
  replace (Z.to_nat
             (sum_len_plus_one (firstn i ws)
              + len (join (firstn (Z.to_nat (chunk_size self))
                             (skipn i ws))))
           - Z.to_nat (sum_len_plus_one (firstn i ws)))%nat
    with (length (join (firstn (Z.to_nat (chunk_size self))
                          (skipn i ws))))
    by (unfold len; lia).
  apply firstn_join.
Qed.

(** C2, amended.  For a text that is not blank and a chunker with
    [chunk_overlap < chunk_size] and a positive size, [chunk_text] returns
    at least one chunk; the [start_char] of chunk [k] is the sum of
    [len(w) + 1] over the words before its first word (an estimate of its
    place: word lengths plus one separator each), [end_char] is [start_char]
    plus the length of the content, and [end_char > start_char].  When the
    text consists of its words joined by single spaces, the estimate is
    exact: the text holds the content from [start_char] to [end_char]. *)
Theorem char_offsets_are_estimates :
  forall (self : TextChunker) (text : list ascii),
    blank text = false ->
    0 < chunk_size self ->
    chunk_overlap self < chunk_size self ->
    exists chunks,
      chunk_text self text = Some (Ok chunks)
      /\ chunks <> []
      /\ (forall (k : nat) ch,
            chunks !! k = Some ch ->
            start_char ch
            = sum_len_plus_one
                (firstn (Z.to_nat (Z.of_nat k * stride self)) (split text))
            /\ end_char ch = start_char ch + len (content ch)
            /\ start_char ch < end_char ch
            /\ (text = join (split text) -> located text ch)).
Proof.
  intros self text Hb Hsize Hov.
  assert (Hstride : 0 < stride self) by (unfold stride; lia).
  destruct (Z_le_gt_dec (len (split text)) (chunk_size self)) as [Hle|Hgt].
  - unfold chunk_text. rewrite Hb.
    destruct (Z.leb_spec (len (split text)) (chunk_size self)); [|lia].
    eexists. split; [reflexivity|]. split; [discriminate|].
    intros [|k] ch Hk; cbn in Hk; [|discriminate].
    injection Hk as <-. cbn.
    pose proof (not_blank_nonempty text Hb) as Hlen.
    repeat split; try lia.
    intros _. unfold located. cbn.
    rewrite PyFacts.slice_nonneg by lia. cbn. rewrite Nat.sub_0_r.
    apply firstn_all2. unfold len. lia.
  - destruct (chunk_text_long self text Hsize Hstride ltac:(lia))
      as (chunks & Heq & Hcount & Hnth).
    exists chunks. split; [exact Heq|]. split.
    { intros ->. specialize (Hcount 0%nat). cbn in Hcount.
      destruct Hcount as [_ Hc]. specialize (Hc ltac:(lia)). lia. }
    intros k ch Hk.
    assert (Hin : Z.of_nat k * stride self < len (split text)).
    { apply Hcount. apply lookup_lt_Some in Hk. exact Hk. }
    apply Hnth in Hk. subst ch.
    assert (Hpos : 0 < len (join (window self (split text)
                                    (Z.of_nat k * stride self)))).
    { apply join_nonempty.
      - apply window_words; [lia | lia | apply split_words].
      - intros E.
        pose proof (window_length self (split text)
                      (Z.of_nat k * stride self) ltac:(lia) Hsize
                      ltac:(lia)) as Hl.
        rewrite E in Hl. unfold len in Hl at 1. cbn in Hl. lia. }
    split; [|split; [|split]].
    + cbn. rewrite PyFacts.slice_to_take by lia. reflexivity.
    + reflexivity.
    + cbn. lia.
    + intros Htext.
      replace (Z.of_nat k * stride self)
        with (Z.of_nat (Z.to_nat (Z.of_nat k * stride self))) by lia.
      apply loop_chunk_located; [exact Hsize | unfold len in Hin; lia
                                | exact Htext].
Qed.

Lemma char_offsets_are_estimates_witness :
  exists chunks,
    chunk_text sparse_chunker (str "a b c") = Some (Ok chunks)
    /\ chunks <> []
    /\ (forall (k : nat) ch,
          chunks !! k = Some ch ->
          start_char ch
          = sum_len_plus_one
              (firstn (Z.to_nat (Z.of_nat k * stride sparse_chunker))
                 (split (str "a b c")))
          /\ end_char ch = start_char ch + len (content ch)
          /\ start_char ch < end_char ch
          /\ (str "a b c" = join (split (str "a b c")) ->
              located (str "a b c") ch)).
Proof.
  apply (char_offsets_are_estimates sparse_chunker (str "a b c")).
  - reflexivity.
  - reflexivity.
  - reflexivity.
Defined.

End ChunkTextSpec.

(** ** The chunks of [chunk_text_smart] *)

Module ChunkSmartSpec.
Import Chunker Words.

Lemma run_of_app_r (ws l more : list (list ascii)) :
  run_of ws l -> run_of ws (l ++ more).
Proof.
  intros (pre & post & ->). exists pre, (post ++ more).
  rewrite <- !app_assoc. reflexivity.
Qed.

Lemma run_of_suffix (ws pre : list (list ascii)) : run_of ws (pre ++ ws).
Proof. exists pre, []. rewrite app_nil_r. reflexivity. Qed.

(** The words of an emitted chunk are the accumulated words. *)
Lemma words_of_emit (text : list ascii) (words : list (list ascii))
    (position : Z) :
  Forall word words -> words_of (emit text words position) = words.
Proof. intros Hw. unfold words_of, emit. cbn. apply split_join, Hw. Qed.

Lemma smart_step_whole (self : TextChunker) (text : list ascii)
    (st : SmartState) (seen : list (list ascii)) (paragraph : list ascii) :
  whole_so_far st seen ->
  whole_so_far (smart_step self text st paragraph) (seen ++ [paragraph]).
Proof.
  intros [Hwords Hseen]. unfold smart_step.
  destruct ((len (current_chunk_words st) + len (split paragraph)
             >? chunk_size self)
            && negb match current_chunk_words st with
                    | [] => true
                    | _ => false
                    end)%bool eqn:Hemit; cbn.
  - split.
    + apply Forall_app. split; [|apply split_words].
      rewrite PyFacts.slice_from_drop by lia.
      apply Forall_word_skipn, Hwords.
    + intros p Hp. apply elem_of_app in Hp as [Hp|Hp].
      * right. destruct (Hseen p Hp) as [Hrun|(ch & Hch & Hrun)].
        -- exists (emit text (current_chunk_words st) (smart_position st)).
           split; [apply elem_of_app; right; apply list_elem_of_singleton;
                   reflexivity|].
           rewrite words_of_emit by exact Hwords. exact Hrun.
        -- exists ch. split; [apply elem_of_app; auto | exact Hrun].
      * apply list_elem_of_singleton in Hp as ->.
        left. apply run_of_suffix.
  - split.
    + apply Forall_app. split; [exact Hwords | apply split_words].
    + intros p Hp. apply elem_of_app in Hp as [Hp|Hp].
      * destruct (Hseen p Hp) as [Hrun|Hch]; [|auto].
        left. apply run_of_app_r, Hrun.
      * apply list_elem_of_singleton in Hp as ->.
        left. apply run_of_suffix.
Qed.

Lemma smart_fold_whole (self : TextChunker) (text : list ascii)
    (paragraphs : list (list ascii)) :
  forall (st : SmartState) (seen : list (list ascii)),
    whole_so_far st seen ->
    whole_so_far (fold_left (smart_step self text) paragraphs st)
      (seen ++ paragraphs).
Proof.
  induction paragraphs as [|p ps IH]; intros st seen H; cbn.
  - rewrite app_nil_r. exact H.
  - replace (seen ++ p :: ps) with ((seen ++ [p]) ++ ps)
      by (rewrite <- app_assoc; reflexivity).
    apply IH, smart_step_whole, H.
Qed.

Lemma smart_loop_whole (self : TextChunker) (text : list ascii)
    (paragraphs : list (list ascii)) :
  whole_so_far (smart_loop self text paragraphs) paragraphs.
Proof.
  unfold smart_loop.
  apply (smart_fold_whole self text paragraphs _ []).
  split; [constructor|].
  intros p Hp. apply elem_of_nil in Hp. contradiction.
Qed.

(** C7.  In paragraph mode, every paragraph of the text that has words lies
    whole, as one contiguous run of words, in one of the chunks that
    [chunk_text_smart] returns, whatever the size and overlap are and
    however long the paragraph is. *)
Theorem paragraphs_stay_whole :
  forall (self : TextChunker) (text paragraph : list ascii),
    paragraph ∈ split_paragraphs text ->
    split paragraph <> [] ->
    exists chunks ch,
      chunk_text_smart self text true = Some (Ok chunks)
      /\ ch ∈ chunks
      /\ run_of (split paragraph) (words_of ch).
Proof.
  intros self text paragraph Hin Hwords.
  destruct (smart_loop_whole self text (split_paragraphs text))
    as [Hcur Hseen].
  unfold chunk_text_smart. cbn [negb].
  set (st := smart_loop self text (split_paragraphs text)) in *.
  assert (Hfound :
    exists ch,
      ch ∈ match current_chunk_words st with
           | [] => chunks_acc st
           | _ => chunks_acc st
                  ++ [emit text (current_chunk_words st)
                        (smart_position st)]
           end
      /\ run_of (split paragraph) (words_of ch)).
  { destruct (Hseen paragraph Hin) as [Hrun|(ch & Hch & Hrun)].
    - exists (emit text (current_chunk_words st) (smart_position st)).
      rewrite words_of_emit by exact Hcur. split; [|exact Hrun].
      destruct (current_chunk_words st) as [|w ws] eqn:E.
      + destruct Hrun as (pre & post & Hrun).
        destruct pre; [|discriminate].
        destruct (split paragraph); [contradiction | discriminate].
      + apply elem_of_app. right. apply list_elem_of_singleton. reflexivity.
    - exists ch. split; [|exact Hrun].
      destruct (current_chunk_words st); [exact Hch|].
      apply elem_of_app. auto. }
  destruct Hfound as (ch & Hch & Hrun).
  destruct (match current_chunk_words st with
            | [] => chunks_acc st
            | _ => _
            end) as [|c chunks] eqn:E.
  - apply elem_of_nil in Hch. contradiction.
  - exists (c :: chunks), ch. auto.
Qed.

Lemma paragraphs_stay_whole_witness :
  exists chunks ch,
    chunk_text_smart paragraph_chunker three_paragraphs true
    = Some (Ok chunks)
    /\ ch ∈ chunks
    /\ run_of (split (str "c d e f")) (words_of ch).
Proof.
  apply (paragraphs_stay_whole paragraph_chunker three_paragraphs
           (str "c d e f")).
  - vm_compute. apply list_elem_of_further, list_elem_of_here.
  - vm_compute. discriminate.
Defined.

End ChunkSmartSpec.

(** ** The embedding cache *)

Module EmbeddingCacheFacts.
Import EmbeddingCache.

Section WithHash.

Variable sha256_hexdigest : list ascii -> string.

Local Abbreviation get := (get sha256_hexdigest).
Local Abbreviation set := (set sha256_hexdigest).
Local Abbreviation key := (_get_cache_key sha256_hexdigest).

(** What [get] does, case by case: a hit needs the file to exist, to open
    and to unpickle; everything else is a miss. *)
Lemma get_cases (open_rb : result unit) (text : list ascii)
    (c : EmbeddingCache) :
  get open_rb text c =
    match files c !! key text with
    | Some f =>
        match bind open_rb (fun _ => load f) with
        | Ok embedding => (Ok (Some embedding), add_hit c)
        | Raise _ => (Ok None, add_miss c)
        end
    | None => (Ok None, add_miss c)
    end.
Proof.
  unfold EmbeddingCache.get, mbind, gets, try_catch, lift, modify, ret.
  cbn.
  destruct (files c !! key text) as [f|]; [|reflexivity].
  destruct open_rb as [[]|e]; cbn; [|reflexivity].
  destruct f as [v|e]; reflexivity.
Qed.

(** What [set] does, case by case. *)
Lemma set_cases (open_wb dump : result unit) (text : list ascii)
    (embedding : vector) (c : EmbeddingCache) :
  set open_wb dump text embedding c =
    match open_wb with
    | Raise _ => (Ok false, c)
    | Ok _ =>
        match dump with
        | Raise _ =>
            (Ok false, store_file (key text) (Damaged EOFError) c)
        | Ok _ =>
            (Ok true,
             add_write
               (store_file (key text) (Pickled embedding)
                  (store_file (key text) (Damaged EOFError) c)))
        end
    end.
Proof.
  unfold EmbeddingCache.set, mbind, try_catch, lift, modify, ret.
  destruct open_wb as [[]|e]; cbn; [|reflexivity].
  destruct dump as [[]|e]; reflexivity.
Qed.

End WithHash.


End EmbeddingCacheFacts.

(** ** The embedding generator *)

Module EmbeddingGeneratorFacts.
Import EmbeddingGenerator.

Lemma truthy_some (e : option vector) (v : vector) :
  truthy e = Some v -> e = Some v /\ v <> [].
Proof.
  destruct e as [[|x l]|]; simpl; intros H; try discriminate.
  injection H as <-. split; [reflexivity | discriminate].
Qed.

Lemma truthy_nonempty (v : vector) : v <> [] -> truthy (Some v) = Some v.
Proof. destruct v; [contradiction | reflexivity]. Qed.

Lemma zeros_nonempty (n : Z) : 0 < n -> zeros n <> [].
Proof.
  intros Hn. unfold zeros.
  destruct (Z.to_nat n) eqn:E; [lia | discriminate].
Qed.

Lemma chain_nonempty (env : Backends) (g : EmbeddingGenerator) :
  0 < embedding_dimension g -> chain env g <> [].
Proof.
  intros Hn. unfold chain.
  destruct (gpu_yields env g) as [v|] eqn:Eg.
  - unfold gpu_yields in Eg. destruct (gpu_client g); [|discriminate].
    destruct (gpu_generate_embedding env); [|discriminate].
    apply truthy_some in Eg. tauto.
  - destruct (st_yields env g) as [v|] eqn:Es.
    + unfold st_yields in Es.
      repeat match type of Es with
             | match ?x with _ => _ end = _ => destruct x; try discriminate
             end.
      apply truthy_some in Es. tauto.
    + apply zeros_nonempty, Hn.
Qed.

Section WithHash.

Variable sha256_hexdigest : list ascii -> string.

Local Abbreviation impl := _generate_embedding_impl.
Local Abbreviation generate := (generate_embedding sha256_hexdigest).
Local Abbreviation key := (_get_cache_key sha256_hexdigest).

(** Case analysis on every value that the goal still inspects. *)
Ltac split_cases :=
  repeat (cbn;
          match goal with
          | |- context [match ?x with _ => _ end] => is_var x; destruct x
          end);
  cbn.

(** The attempt with the local model, seen through the [try] block around
    it: it contributes [st_yields] and raises nothing. *)
Lemma st_attempt_cases (env : Backends) (text : list ascii)
    (g : EmbeddingGenerator) :
  exists g',
    try_catch
      (mbind (_generate_with_sentence_transformers env text)
             (fun embedding => ret (truthy embedding)))
      any_exception (fun e => ret None) g
    = (Ok (st_yields env g), g')
    /\ (g' = g \/ g' = model_loaded g).
Proof.
  destruct g as [gpu dim uc cache st loaded].
  destruct env as [gpu_call imp ld enc].
  unfold _generate_with_sentence_transformers, st_yields, mbind, try_catch,
    gets, modify, lift, ret, raise.
  split_cases;
    (eexists; split;
     [reflexivity | (left; reflexivity) || (right; reflexivity)]).
Qed.

(** The attempt with the inference client, likewise. *)
Lemma gpu_attempt_cases (env : Backends) (g : EmbeddingGenerator) :
  (if gpu_client g then
     try_catch
       (mbind (lift (gpu_generate_embedding env))
              (fun embedding => ret (truthy embedding)))
       any_exception
       (fun e =>
          match e with
          | NotImplementedError => ret None
          | _ => ret None
          end)
   else ret None) g
  = (Ok (gpu_yields env g), g).
Proof.
  unfold gpu_yields, mbind, try_catch, lift, ret.
  destruct (gpu_client g); [|reflexivity].
  destruct (gpu_generate_embedding env) as [embedding|e]; [reflexivity|].
  destruct e; reflexivity.
Qed.

(** The implementation never raises and never returns [None]: it returns
    the value of the fallback chain, and touches nothing but the lazily
    loaded model. *)
Lemma impl_cases (env : Backends) (text : list ascii) (g : EmbeddingGenerator) :
  exists g',
    impl env text g = (Ok (Some (chain env g)), g')
    /\ (g' = g \/ g' = model_loaded g).
Proof.
  unfold _generate_embedding_impl, chain.
  unfold mbind at 1. unfold gets at 1.
  unfold mbind at 1. rewrite gpu_attempt_cases.
  destruct (gpu_yields env g) as [v|].
  - exists g. split; [reflexivity | left; reflexivity].
  - unfold mbind at 1.
    destruct (st_attempt_cases env text g) as (g' & -> & Hg').
    destruct (st_yields env g) as [v|].
    + exists g'. split; [reflexivity | exact Hg'].
    + exists g'. split; [|exact Hg'].
      unfold mbind, gets, ret.
      destruct Hg' as [->| ->]; reflexivity.
Qed.

Lemma chain_add_cache_miss (env : Backends) (g : EmbeddingGenerator) :
  chain env (add_cache_miss g) = chain env g.
Proof. reflexivity. Qed.

(** A call that finds the text in the cache. *)
Lemma generate_hit (env : Backends) (text : list ascii) (g : EmbeddingGenerator)
    (v : vector) :
  blank text = false ->
  use_cache g = true ->
  _cache g !! key text = Some v ->
  generate env text g = (Ok (Some v), add_cache_hit g).
Proof.
  intros Hb Hc Hk.
  unfold generate_embedding. rewrite Hb.
  unfold mbind, gets, modify, ret. rewrite Hc. cbn. rewrite Hk.
  reflexivity.
Qed.

(** A call that has to generate: caching is off, or the text is not in the
    cache. *)
Lemma generate_miss (env : Backends) (text : list ascii)
    (g : EmbeddingGenerator) :
  blank text = false ->
  (use_cache g = true -> _cache g !! key text = None) ->
  exists g',
    generate env text g
    = (match chain env g with
       | [] => Ok None
       | _ => Ok (Some (chain env g))
       end, g')
    /\ use_cache g' = use_cache g
    /\ embedding_dimension g' = embedding_dimension g
    /\ errors (stats g') = errors (stats g)
    /\ cache_hits (stats g') = cache_hits (stats g)
    /\ (chain env g <> [] ->
        embeddings_generated (stats g')
        = embeddings_generated (stats g) + 1
        /\ (use_cache g = true ->
            _cache g' !! key text = Some (chain env g))).
Proof.
  intros Hb Hk.
  unfold generate_embedding. rewrite Hb.
  unfold mbind at 1. unfold gets at 1.
  unfold mbind at 1.
  destruct (use_cache g) eqn:Hc.
  - unfold mbind at 1. unfold gets at 1. rewrite (Hk eq_refl).
    unfold mbind at 1. unfold modify at 1. unfold ret at 1.
    unfold try_catch. unfold mbind at 1.
    destruct (impl_cases env text (add_cache_miss g)) as (g1 & -> & Hg1).
    rewrite chain_add_cache_miss.
    destruct (chain env g) as [|x v] eqn:Hch.
    + cbn. exists g1. split; [reflexivity|].
      destruct Hg1 as [->| ->]; cbn; rewrite ?Hc;
        repeat split; try reflexivity; intros; congruence.
    + cbn. eexists. split; [reflexivity|].
      destruct Hg1 as [->| ->]; cbn; rewrite ?Hc;
        (repeat split; try reflexivity; intros;
         apply lookup_insert_eq).
  - unfold ret at 1.
    unfold try_catch. unfold mbind at 1.
    destruct (impl_cases env text g) as (g1 & -> & Hg1).
    destruct (chain env g) as [|x v] eqn:Hch.
    + cbn. exists g1. split; [reflexivity|].
      destruct Hg1 as [->| ->]; cbn; rewrite ?Hc;
        repeat split; try reflexivity; intros; congruence.
    + cbn. eexists. split; [reflexivity|].
      destruct Hg1 as [->| ->]; cbn; rewrite ?Hc;
        (repeat split; try reflexivity; intros; discriminate).
Qed.

End WithHash.

End EmbeddingGeneratorFacts.

Module EmbeddingGeneratorSpec.
Import EmbeddingGenerator EmbeddingGeneratorFacts.

Lemma generate_blank (sha256_hexdigest : list ascii -> string)
    (env : Backends) (text : list ascii) (g : EmbeddingGenerator) :
  blank text = true ->
  generate_embedding sha256_hexdigest env text g = (Ok None, g).
Proof. intros Hb. unfold generate_embedding. rewrite Hb. reflexivity. Qed.

(** C6.  With caching enabled, if a call of [generate_embedding] returns a
    vector, then the next call with the same text returns the same vector,
    whatever the backends would answer then, and the only change it makes to
    the generator is one more cache hit: the number of generated embeddings
    stays as it is. *)
Theorem repeated_call_hits_cache :
  forall (sha256_hexdigest : list ascii -> string) (env1 env2 : Backends)
         (text : list ascii) (g g1 : EmbeddingGenerator) (v : vector),
    use_cache g = true ->
    generate_embedding sha256_hexdigest env1 text g = (Ok (Some v), g1) ->
    generate_embedding sha256_hexdigest env2 text g1
    = (Ok (Some v), add_cache_hit g1)
    /\ cache_hits (stats (add_cache_hit g1)) = cache_hits (stats g1) + 1
    /\ embeddings_generated (stats (add_cache_hit g1))
       = embeddings_generated (stats g1).
Proof.
  intros sha env1 env2 text g g1 v Hc Hfirst.
  split; [|split; reflexivity].
  destruct (blank text) eqn:Hb.
  { rewrite generate_blank in Hfirst by exact Hb. discriminate. }
  destruct (_cache g !! _get_cache_key sha text) as [v0|] eqn:Hk.
  - rewrite (generate_hit sha env1 text g v0 Hb Hc Hk) in Hfirst.
    injection Hfirst as <- <-.
    apply generate_hit; [exact Hb | exact Hc | exact Hk].
  - destruct (generate_miss sha env1 text g Hb (fun _ => Hk))
      as (g' & Heq & Hc' & _ & _ & _ & Hgen).
    rewrite Heq in Hfirst.
    destruct (chain env1 g) as [|x w] eqn:Hch; [discriminate|].
    injection Hfirst as <- <-.
    assert (Hne : x :: w <> []) by discriminate.
    destruct (Hgen Hne) as [_ Hstored].
    apply generate_hit; [exact Hb | congruence | exact (Hstored Hc)].
Qed.

Lemma repeated_call_hits_cache_witness :
  let first :=
    generate_embedding identity_hash no_backend (str "federated learning")
      example_generator in
  generate_embedding identity_hash no_backend (str "federated learning")
    first.2
  = (Ok (Some (zeros 3)), add_cache_hit first.2)
  /\ cache_hits (stats (add_cache_hit first.2))
     = cache_hits (stats first.2) + 1
  /\ embeddings_generated (stats (add_cache_hit first.2))
     = embeddings_generated (stats first.2).
Proof.
  intros first.
  apply (repeated_call_hits_cache identity_hash no_backend no_backend
           (str "federated learning") example_generator first.2 (zeros 3)).
  - reflexivity.
  - vm_compute. reflexivity.
Defined.



End EmbeddingGeneratorSpec.

(** ** The supersession detector *)

Module SupersessionFacts.
Import Supersession.

Section WithLibrary.

Variable L : Library.

(** The [except] clause catches everything the [try] block can raise. *)
Lemma parse_dates_ok (new_ingestion_date : pyval)
    (candidate : gmap string pyval) :
  exists new_date cand_dt,
    parse_dates L new_ingestion_date candidate = Ok (new_date, cand_dt).
Proof.
  unfold parse_dates, try_except, bind, replace_Z, parse.
  destruct new_ingestion_date as [|s]; [eauto|].
  destruct (fromisoformat L _) as [d|]; [|eauto].
  destruct (nonempty _); [|eauto].
  destruct (get_or candidate "ingestion_date" (PyStr "")) as [|sc]; [eauto|].
  destruct (fromisoformat L _) as [dc|]; eauto.
Qed.



(** Rule 2: an older candidate with the same title is superseded. *)
Lemma should_supersede_same_title (new_title new_file_path : string)
    (new_ingestion_date : pyval) (candidate : gmap string pyval)
    (d_new d_cand : datetime) :
  parse_dates L new_ingestion_date candidate = Ok (d_new, d_cand) ->
  aware d_new = aware d_cand ->
  ticks d_cand < ticks d_new ->
  candidate !! "title"%string = Some (PyStr new_title) ->
  _should_supersede L new_title new_file_path new_ingestion_date candidate
  = Ok (true, "exact_title_match"%string).
Proof.
  intros Hd Ha Ht Htitle. unfold _should_supersede. rewrite Hd. cbn.
  unfold datetime_le. rewrite Ha, Bool.eqb_reflx. cbn.
  destruct (Z.leb_spec (ticks d_new) (ticks d_cand)); [lia|].
  unfold get_or. rewrite Htitle. cbn.
  destruct (decide _) as [_|Hne]; [reflexivity | contradiction].
Qed.

(** One round of the loop, case by case. *)
Lemma detect_step_cases (new_document_id new_title new_file_path : string)
    (new_ingestion_date : pyval) (results : Results)
    (candidate : gmap string pyval) (log : list StoreCall) :
  detect_step L new_document_id new_title new_file_path new_ingestion_date
    results candidate log
  = match _should_supersede L new_title new_file_path new_ingestion_date
            candidate with
    | Raise e => (Raise e, log)
    | Ok (false, _) => (Ok results, log)
    | Ok (true, reason) =>
        match item candidate "document_id" with
        | Raise e => (Raise e, log)
        | Ok old_doc_id =>
            let log' :=
              (log ++ [mark_document_superseded old_doc_id new_document_id])
              ++ [create_supersedes_relationship new_document_id old_doc_id
                    reason] in
            match item candidate "title" with
            | Raise e => (Raise e, log')
            | Ok title =>
                (Ok {| superseded := superseded results
                         ++ [{| sup_document_id := old_doc_id;
                                sup_title := title;
                                sup_reason := reason |}];
                       reasons := reasons results ++ [reason];
                       count := count results |}, log')
            end
        end
    end.
Proof.
  unfold detect_step, mbind, lift, modify, ret.
  destruct (_should_supersede _ _ _ _ _) as [[[|] reason]|e];
    try reflexivity.
Qed.



End WithLibrary.

End SupersessionFacts.

Module SupersessionSpec.
Import Supersession SupersessionFacts.





End SupersessionSpec.

(** ** Result fusion *)

Module HybridSearchFacts.
Import HybridSearch.

Local Open Scope Qc_scope.

(** *** The score dictionaries *)

Lemma score_dict_fold (results : list Hit) :
  score_dict results = fold_left add_row results ∅.
Proof. reflexivity. Qed.


Lemma fold_add_row_is_some (results : list Hit) (m : gmap string Qc)
    (i : string) :
  is_Some (fold_left add_row results m !! i) <->
  is_Some (m !! i) \/ exists r, r ∈ results /\ chunk_id r = Some i.
Proof.
  revert m. induction results as [|r rest IH]; intros m; cbn.
  - split; [auto|]. intros [H|(r & Hin & _)]; [exact H|].
    apply elem_of_nil in Hin. contradiction.
  - rewrite IH. unfold add_row. split.
    + intros [H|(r' & Hin & Hid)].
      * destruct (chunk_id r) as [j|] eqn:Hj; [|auto].
        destruct (decide (j = i)) as [->|Hne].
        -- right. exists r. split; [apply elem_of_cons; auto | exact Hj].
        -- rewrite lookup_insert_ne in H by exact Hne. auto.
      * right. exists r'. split; [apply elem_of_cons; auto | exact Hid].
    + intros [H|(r' & Hin & Hid)].
      * left. destruct (chunk_id r) as [j|]; [|exact H].
        destruct (decide (j = i)) as [->|Hne].
        -- rewrite lookup_insert_eq. eauto.
        -- rewrite lookup_insert_ne by exact Hne. exact H.
      * apply elem_of_cons in Hin as [->|Hin].
        -- left. rewrite Hid. rewrite lookup_insert_eq. eauto.
        -- right. eauto.
Qed.

(** The identifiers of a dictionary are those of the rows. *)
Lemma elem_of_dom_score_dict (results : list Hit) (i : string) :
  i ∈ dom (score_dict results) <->
  exists r, r ∈ results /\ chunk_id r = Some i.
Proof.
  rewrite elem_of_dom, score_dict_fold, fold_add_row_is_some.
  rewrite lookup_empty. split.
  - intros [[x Hx]|H]; [discriminate | exact H].
  - auto.
Qed.


(** An identifier that a list does not mention scores 0. *)
Lemma score_of_missing (results : list Hit) (i : string) :
  (forall r, r ∈ results -> chunk_id r <> Some i) ->
  score_of results i = Q2Qc 0.
Proof.
  intros Hnone. unfold score_of.
  destruct (score_dict results !! i) as [s|] eqn:Hs; [|reflexivity].
  assert (Hdom : i ∈ dom (score_dict results))
    by (apply elem_of_dom; eauto).
  apply elem_of_dom_score_dict in Hdom as (r & Hin & Hid).
  destruct (Hnone r Hin Hid).
Qed.

(** *** Looking up the row of an identifier *)

Lemma find_row_some (i : string) (results : list Hit) (r : Hit) :
  find_row i results = Some r -> r ∈ results /\ chunk_id r = Some i.
Proof.
  unfold find_row. induction results as [|x rest IH]; cbn; [discriminate|].
  case_bool_decide as Hx.
  - intros [= <-]. split; [apply elem_of_cons; auto | exact Hx].
  - intros H. apply IH in H as [Hin Hid].
    split; [apply elem_of_cons; auto | exact Hid].
Qed.

Lemma find_row_none (i : string) (results : list Hit) :
  find_row i results = None ->
  forall r, r ∈ results -> chunk_id r <> Some i.
Proof.
  unfold find_row. induction results as [|x rest IH]; cbn.
  - intros _ r Hin. apply elem_of_nil in Hin. contradiction.
  - case_bool_decide as Hx; [discriminate|].
    intros H r Hin. apply elem_of_cons in Hin as [->|Hin]; auto.
Qed.

(** *** Combining *)

Section Combine.

Variable self : HybridSearch.
Variables semantic_results keyword_results : list Hit.

Local Abbreviation ids :=
  (dom (score_dict semantic_results) ∪ dom (score_dict keyword_results)).

Local Abbreviation one :=
  (combine_one self semantic_results keyword_results
     (score_dict semantic_results) (score_dict keyword_results)).

(** Every identifier of the union gets a row: the first semantic row with
    that identifier or else the first keyword row, with the three scores
    attached. *)
Lemma combine_one_some (i : string) :
  i ∈ ids ->
  exists r,
    (r ∈ semantic_results \/ r ∈ keyword_results)
    /\ chunk_id r = Some i
    /\ one i
       = Some (attach
                 (semantic_weight self * score_of semantic_results i
                  + keyword_weight self * score_of keyword_results i)
                 (score_of semantic_results i)
                 (score_of keyword_results i) r).
Proof.
  intros Hi. unfold combine_one.
  destruct (find_row i semantic_results) as [r|] eqn:Hs.
  - apply find_row_some in Hs as [Hin Hid].
    exists r. split; [auto | split; [exact Hid | reflexivity]].
  - destruct (find_row i keyword_results) as [r|] eqn:Hk.
    + apply find_row_some in Hk as [Hin Hid].
      exists r. split; [auto | split; [exact Hid | reflexivity]].
    + exfalso. apply elem_of_union in Hi as [Hi|Hi];
        apply elem_of_dom_score_dict in Hi as (r & Hin & Hid).
      * exact (find_row_none _ _ Hs r Hin Hid).
      * exact (find_row_none _ _ Hk r Hin Hid).
Qed.


Lemma combined_scores (l : list string) (r : Hit) :
  (forall i, i ∈ l -> i ∈ ids) ->
  r ∈ omap one l ->
  exists i,
    i ∈ l
    /\ chunk_id r = Some i
    /\ semantic_score r = Some (score_of semantic_results i)
    /\ keyword_score r = Some (score_of keyword_results i)
    /\ hybrid_score r
       = Some (semantic_weight self * score_of semantic_results i
               + keyword_weight self * score_of keyword_results i).
Proof.
  intros Hl Hr. apply list_elem_of_omap in Hr as (i & Hi & Hone).
  destruct (combine_one_some i (Hl i Hi)) as (r0 & _ & Hid & Heq).
  rewrite Heq in Hone. injection Hone as <-.
  exists i. repeat split; auto.
Qed.

End Combine.

(** *** Sorting *)



#[local] Instance ranks_before_trans : Transitive ranks_before.
Proof.
  intros x y z. unfold ranks_before.
  destruct (sort_key x) as [hx dx], (sort_key y) as [hy dy],
    (sort_key z) as [hz dz]. cbn.
  intros [Hxy|[-> Hxy]] [Hyz|[-> Hyz]].
  - left. etrans; eassumption.
  - left. exact Hxy.
  - left. exact Hyz.
  - right. split; [reflexivity | etrans; eassumption].
Qed.





End HybridSearchFacts.

Module HybridSearchSpec.
Import HybridSearch HybridSearchFacts.

Local Open Scope Qc_scope.




(** The scenario evaluated in binary64 arithmetic, as the interpreter does:
    the three combined scores are the doubles written 0.63, 0.52 and 0.18. *)
#[warnings="-inexact-float"]
Example scenario_scores_in_binary64 :
  (PrimFloat.eqb (0.7 * 0.9 + 0.3 * 0.0) 0.63
   && PrimFloat.eqb (0.7 * 0.4 + 0.3 * 0.8) 0.52
   && PrimFloat.eqb (0.7 * 0.0 + 0.3 * 0.6) 0.18)%float = true.
Proof. reflexivity. Qed.

End HybridSearchSpec.

(** * Further properties *)

(** ** Paragraphs and words *)

Module ParagraphWords.
Import Chunker Words.

(** A word that has been started is always delivered. *)
Lemma split_aux_started (s cur : list ascii) :
  cur <> [] -> split_aux cur s <> [].
Proof.
  revert cur. induction s as [|c s IH]; intros cur Hcur; cbn.
  - destruct cur; [contradiction | discriminate].
  - destruct (is_space c).
    + destruct cur; [contradiction | discriminate].
    + apply IH. discriminate.
Qed.

(** No words: whitespace only. *)
Lemma split_nil_blank (s : list ascii) : split s = [] -> blank s = true.
Proof.
  unfold split, blank. induction s as [|c s IH]; cbn; [reflexivity|].
  destruct (is_space c) eqn:Hc; cbn.
  - exact IH.
  - intros H. exfalso. revert H. apply split_aux_started. discriminate.
Qed.

Lemma blank_iff_no_words (s : list ascii) : blank s = true <-> split s = [].
Proof. split; [apply split_blank | apply split_nil_blank]. Qed.

(** Splitting at a whitespace character splits the words. *)
Lemma split_aux_app_space (a b cur : list ascii) (c : ascii) :
  is_space c = true ->
  split_aux cur (a ++ c :: b) = split_aux cur a ++ split b.
Proof.
  intros Hc. revert cur. induction a as [|x a IH]; intros cur; cbn.
  - rewrite Hc. destruct cur; reflexivity.
  - destruct (is_space x).
    + destruct cur; rewrite IH; reflexivity.
    + apply IH.
Qed.

Lemma split_app_space (a b : list ascii) (c : ascii) :
  is_space c = true -> split (a ++ c :: b) = split a ++ split b.
Proof. apply split_aux_app_space. Qed.

Lemma newline_is_space : is_space newline = true.
Proof. reflexivity. Qed.

Lemma split_paragraphs_aux_step (cur : list ascii) (c c' : ascii)
    (rest : list ascii) :
  split_paragraphs_aux cur (c :: c' :: rest) =
  if (Ascii.eqb c newline && Ascii.eqb c' newline)%bool
  then rev cur :: split_paragraphs_aux [] rest
  else split_paragraphs_aux (c :: cur) (c' :: rest).
Proof. reflexivity. Qed.

(** The words of the paragraphs, in order, are the words of the text. *)
Lemma paragraph_words_aux (n : nat) :
  forall (s cur : list ascii),
    (length s <= n)%nat ->
    concat (split <$> split_paragraphs_aux cur s) = split (rev cur ++ s).
Proof.
  induction n as [|n IH]; intros s cur Hlen.
  - destruct s; [|cbn in Hlen; lia]. cbn. rewrite !app_nil_r. reflexivity.
  - destruct s as [|c [|c' rest]].
    + cbn. rewrite !app_nil_r. reflexivity.
    + cbn. rewrite !app_nil_r. reflexivity.
    + rewrite split_paragraphs_aux_step.
      destruct (Ascii.eqb c newline && Ascii.eqb c' newline)%bool eqn:Hnl.
      * apply andb_prop in Hnl as [H1 H2].
        apply Ascii.eqb_eq in H1, H2. subst c c'.
        rewrite fmap_cons. cbn [concat].
        rewrite (IH rest []) by (cbn in Hlen |- *; lia). cbn [rev app].
        rewrite (split_app_space _ _ _ newline_is_space).
        change (newline :: rest) with ([] ++ newline :: rest).
        rewrite (split_app_space _ _ _ newline_is_space). reflexivity.
      * rewrite (IH (c' :: rest) (c :: cur)) by (cbn in Hlen |- *; lia).
        cbn [rev]. rewrite <- app_assoc. reflexivity.
Qed.

Lemma paragraph_words (text : list ascii) :
  concat (split <$> split_paragraphs text) = split text.
Proof. apply (paragraph_words_aux (length text)). lia. Qed.

End ParagraphWords.

(** ** What the chunks of [chunk_text] hold *)

Module ChunkTextExtra.
Import Chunker Words ChunkerFacts ChunkTextSpec ParagraphWords.

(** A window is a contiguous run of the words. *)
Lemma window_run (self : TextChunker) (words : list (list ascii)) (i : Z) :
  0 <= i -> 0 < chunk_size self -> run_of (window self words i) words.
Proof.
  intros Hi Hsize. rewrite window_firstn by assumption.
  exists (firstn (Z.to_nat i) words),
    (skipn (Z.to_nat (chunk_size self)) (skipn (Z.to_nat i) words)).
  rewrite (firstn_skipn (Z.to_nat (chunk_size self))).
  rewrite firstn_skipn. reflexivity.
Qed.

(** The window that starts at the last multiple of the stride below [i]
    holds word [i]. *)
Lemma window_covers (self : TextChunker) (words : list (list ascii))
    (i : nat) (w : list ascii) :
  0 <= chunk_overlap self < chunk_size self ->
  words !! i = Some w ->
  w ∈ window self words (Z.of_nat i / stride self * stride self).
Proof.
  intros Hcfg Hw.
  assert (Hstride : 0 < stride self) by (unfold stride; lia).
  assert (Hle : stride self <= chunk_size self) by (unfold stride; lia).
  pose proof (Z.div_pos (Z.of_nat i) (stride self) ltac:(lia) Hstride) as Hq.
  pose proof (Z.mul_div_le (Z.of_nat i) (stride self) Hstride) as Hlo.
  pose proof (Z.mod_pos_bound (Z.of_nat i) (stride self) Hstride) as Hmod.
  pose proof (Z.div_mod (Z.of_nat i) (stride self) ltac:(lia)) as Hdm.
  set (q := Z.of_nat i / stride self) in *.
  rewrite window_firstn by lia.
  apply (list_elem_of_lookup_2 _ (i - Z.to_nat (q * stride self))).
  rewrite lookup_take_lt by lia.
  rewrite lookup_drop.
  replace (Z.to_nat (q * stride self) + (i - Z.to_nat (q * stride self)))%nat
    with i by lia.
  exact Hw.
Qed.

(** X1.  With [0 <= chunk_overlap < chunk_size], [chunk_text] returns on
    every text, every word of the text lies in some chunk, and the words of
    every chunk are a contiguous run of the words of the text. *)
Theorem chunk_text_keeps_every_word :
  forall (self : TextChunker) (text : list ascii),
    0 <= chunk_overlap self < chunk_size self ->
    exists chunks,
      chunk_text self text = Some (Ok chunks)
      /\ (forall (i : nat) w,
            split text !! i = Some w ->
            exists ch, ch ∈ chunks /\ w ∈ words_of ch)
      /\ (forall ch, ch ∈ chunks -> run_of (words_of ch) (split text)).
Proof.
  intros self text Hcfg.
  assert (Hstride : 0 < stride self) by (unfold stride; lia).
  destruct (blank text) eqn:Hblank.
  { exists []. unfold chunk_text. rewrite Hblank.
    split; [reflexivity|]. split.
    - intros i w Hw. rewrite (split_blank _ Hblank) in Hw. discriminate.
    - intros ch Hch. apply elem_of_nil in Hch. contradiction. }
  destruct (Z.leb_spec (len (split text)) (chunk_size self)) as [Hshort|Hlong].
  { eexists. unfold chunk_text. rewrite Hblank.
    apply Z.leb_le in Hshort. rewrite Hshort.
    split; [reflexivity|]. split.
    - intros i w Hw. eexists. split; [apply list_elem_of_singleton; reflexivity|].
      unfold words_of. cbn. eapply list_elem_of_lookup_2. exact Hw.
    - intros ch Hch. apply list_elem_of_singleton in Hch. subst ch.
      unfold words_of. cbn. exists [], []. rewrite app_nil_r. reflexivity. }
  destruct (chunk_text_long self text ltac:(lia) Hstride Hlong)
    as (chunks & Hrun & Hcount & Hchunk).
  exists chunks. split; [exact Hrun|]. split.
  - intros i w Hw.
    pose proof (Z.div_pos (Z.of_nat i) (stride self) ltac:(lia) Hstride) as Hq.
    pose proof (Z.mul_div_le (Z.of_nat i) (stride self) Hstride) as Hlo.
    assert (Hi : Z.of_nat i < len (split text)).
    { apply lookup_lt_Some in Hw. unfold len. lia. }
    set (k := Z.to_nat (Z.of_nat i / stride self)).
    assert (Hk : Z.of_nat k = Z.of_nat i / stride self) by (unfold k; lia).
    assert (Hlt : (k < length chunks)%nat).
    { apply Hcount. rewrite Hk. lia. }
    destruct (lookup_lt_is_Some_2 chunks k Hlt) as [ch Hch].
    exists ch. split; [eapply list_elem_of_lookup_2; exact Hch|].
    rewrite (Hchunk k ch Hch), words_of_loop_chunk by lia.
    rewrite Hk. apply window_covers; assumption.
  - intros ch Hch. apply list_elem_of_lookup_1 in Hch as [k Hk].
    rewrite (Hchunk k ch Hk), words_of_loop_chunk by lia.
    apply window_run; lia.
Qed.

Lemma chunk_text_keeps_every_word_witness :
  exists chunks,
    chunk_text dense_chunker (str "a b c d e") = Some (Ok chunks)
    /\ (forall (i : nat) w,
          split (str "a b c d e") !! i = Some w ->
          exists ch, ch ∈ chunks /\ w ∈ words_of ch)
    /\ (forall ch,
          ch ∈ chunks -> run_of (words_of ch) (split (str "a b c d e"))).
Proof.
  apply (chunk_text_keeps_every_word dense_chunker (str "a b c d e")).
  cbn. lia.
Defined.

(** X2.  A negative [chunk_overlap] passes the constructor's check, and then
    the windows leave gaps: in a text of distinct words with more than
    [chunk_size] words, the word that follows the first chunk is in no
    chunk at all. *)
Theorem negative_overlap_drops_words :
  forall (self : TextChunker) (text : list ascii) (w : list ascii),
    0 < chunk_size self ->
    chunk_overlap self < 0 ->
    NoDup (split text) ->
    split text !! Z.to_nat (chunk_size self) = Some w ->
    exists chunks,
      chunk_text self text = Some (Ok chunks)
      /\ forall ch, ch ∈ chunks -> ~ (w ∈ words_of ch).
Proof.
  intros self text w Hsize Hneg Hnodup Hw.
  assert (Hstride : chunk_size self < stride self) by (unfold stride; lia).
  assert (Hlong : chunk_size self < len (split text)).
  { apply lookup_lt_Some in Hw. unfold len. lia. }
  destruct (chunk_text_long self text Hsize ltac:(lia) Hlong)
    as (chunks & Hrun & _ & Hchunk).
  exists chunks. split; [exact Hrun|].
  intros ch Hch Hin. apply list_elem_of_lookup_1 in Hch as [k Hk].
  rewrite (Hchunk k ch Hk), words_of_loop_chunk in Hin by nia.
  rewrite window_firstn in Hin by nia.
  apply elem_of_take in Hin as (j & Hj & Hlt).
  rewrite lookup_drop in Hj.
  pose proof (NoDup_lookup _ _ _ _ Hnodup Hj Hw) as Heq.
  destruct k as [|k]; [cbn in Heq; lia|]. nia.
Qed.

Lemma negative_overlap_drops_words_witness :
  exists chunks,
    chunk_text gapped_chunker (str "a b c d") = Some (Ok chunks)
    /\ forall ch, ch ∈ chunks -> ~ (str "c" ∈ words_of ch).
Proof.
  apply (negative_overlap_drops_words gapped_chunker (str "a b c d") (str "c")).
  - reflexivity.
  - reflexivity.
  - vm_compute. repeat constructor; rewrite ?elem_of_cons, ?elem_of_nil;
      intuition discriminate.
  - reflexivity.
Defined.

End ChunkTextExtra.

(** ** What the chunks of [chunk_text_smart] hold *)

Module ChunkSmartExtra.
Import Chunker Words ChunkSmartSpec ParagraphWords PyFacts.

(** What holds before the first paragraph, and is kept by every round, holds
    after the loop. *)
Lemma smart_loop_invariant (self : TextChunker) (text : list ascii)
    (paragraphs : list (list ascii))
    (P : SmartState -> list (list ascii) -> Prop) :
  P {| chunks_acc := []; current_chunk_words := []; smart_position := 0 |} [] ->
  (forall st seen p rest,
     paragraphs = seen ++ p :: rest -> P st seen ->
     P (smart_step self text st p) (seen ++ [p])) ->
  P (smart_loop self text paragraphs) paragraphs.
Proof.
  intros Hinit Hstep. unfold smart_loop.
  set (st0 := {| chunks_acc := []; current_chunk_words := [];
                 smart_position := 0 |}) in *.
  assert (Hgen : forall rest st seen,
            paragraphs = seen ++ rest -> P st seen ->
            P (fold_left (smart_step self text) rest st) paragraphs).
  { induction rest as [|p rest IH]; intros st seen Heq HP.
    - rewrite app_nil_r in Heq. subst seen. exact HP.
    - cbn [fold_left]. apply (IH _ (seen ++ [p])).
      + rewrite <- app_assoc. exact Heq.
      + apply (Hstep st seen p rest); assumption. }
  apply (Hgen paragraphs st0 []); [reflexivity | exact Hinit].
Qed.

(** The two outcomes of one round. *)
Lemma smart_step_cases (self : TextChunker) (text : list ascii)
    (st : SmartState) (p : list ascii) :
  (smart_step self text st p
   = {| chunks_acc := chunks_acc st;
        current_chunk_words := current_chunk_words st ++ split p;
        smart_position := smart_position st |}
   /\ (len (current_chunk_words st) + len (split p) <= chunk_size self
       \/ current_chunk_words st = []))
  \/
  (smart_step self text st p
   = {| chunks_acc :=
          chunks_acc st
          ++ [emit text (current_chunk_words st) (smart_position st)];
        current_chunk_words :=
          slice_from (current_chunk_words st)
            (Z.max 0 (len (current_chunk_words st) - chunk_overlap self))
          ++ split p;
        smart_position := smart_position st + 1 |}
   /\ chunk_size self < len (current_chunk_words st) + len (split p)
   /\ current_chunk_words st <> []).
Proof.
  unfold smart_step.
  destruct (Z.gtb_spec (len (current_chunk_words st) + len (split p))
              (chunk_size self)) as [Hgt|Hle].
  - destruct (current_chunk_words st) as [|w ws] eqn:Hcur.
    + left. cbn. rewrite ?Hcur. split; [reflexivity | right; reflexivity].
    + right. cbn [andb negb]. rewrite ?Hcur.
      split; [reflexivity|]. split; [lia|discriminate].
  - left. cbn [andb]. split; [reflexivity | left; lia].
Qed.

(** The chunk made of some words. *)
Lemma emit_fields (text : list ascii) (ws : list (list ascii)) (pos : Z) :
  Forall word ws -> ws <> [] ->
  let ch := emit text ws pos in
  position ch = pos /\ start_char ch = 0
  /\ end_char ch = len (content ch)
  /\ char_count ch = len (content ch)
  /\ word_count ch = len (words_of ch)
  /\ 0 < word_count ch.
Proof.
  intros Hws Hne ch.
  assert (Hstart : start_char ch = 0).
  { unfold ch, emit, _find_char_position. cbn [start_char].
    rewrite slice_to_take by lia. reflexivity. }
  split; [reflexivity|]. split; [exact Hstart|].
  split.
  { unfold ch, emit, _find_char_position. cbn [end_char content].
    rewrite slice_to_take by lia. reflexivity. }
  split; [reflexivity|].
  split.
  - unfold ch. rewrite words_of_emit by assumption. reflexivity.
  - cbn. unfold len. destruct ws; [contradiction | cbn; lia].
Qed.

Lemma len_app {A} (a b : list A) : len (a ++ b) = len a + len b.
Proof. unfold len. rewrite length_app. lia. Qed.

Lemma words_snoc (seen : list (list ascii)) (p : list ascii) :
  concat (split <$> seen ++ [p]) = concat (split <$> seen) ++ split p.
Proof.
  rewrite fmap_app, concat_app. cbn. rewrite app_nil_r. reflexivity.
Qed.

(** Until the first chunk is emitted the accumulated words are all the words
    read so far; on a text without words nothing ever changes. *)
Lemma smart_loop_words (self : TextChunker) (text : list ascii) :
  let st := smart_loop self text (split_paragraphs text) in
  (chunks_acc st = [] -> current_chunk_words st = split text)
  /\ (blank text = true ->
      st = {| chunks_acc := []; current_chunk_words := [];
              smart_position := 0 |}).
Proof.
  cbn zeta. rewrite <- (paragraph_words text).
  apply (smart_loop_invariant self text (split_paragraphs text)
           (fun st seen =>
              (chunks_acc st = [] ->
               current_chunk_words st = concat (split <$> seen))
              /\ (blank text = true ->
                  st = {| chunks_acc := []; current_chunk_words := [];
                          smart_position := 0 |}))).
  - split; reflexivity.
  - intros st seen p rest Hpars [Hacc Hblank]. split.
    + rewrite words_snoc.
      destruct (smart_step_cases self text st p) as [[-> _]|[-> _]]; cbn.
      * intros Hnil. rewrite (Hacc Hnil). reflexivity.
      * intros Hnil. destruct (chunks_acc st); discriminate.
    + intros Hb. specialize (Hblank Hb). subst st.
      assert (Hp : split p = []).
      { pose proof (paragraph_words text) as Hw.
        rewrite (split_blank _ Hb), Hpars, fmap_app, concat_app in Hw.
        apply app_eq_nil in Hw as [_ Hw]. cbn in Hw.
        apply app_eq_nil in Hw as [Hw _]. exact Hw. }
      destruct (smart_step_cases self text
                  {| chunks_acc := []; current_chunk_words := [];
                     smart_position := 0 |} p) as [[-> _]|[_ [_ Hne]]].
      * cbn. rewrite Hp. reflexivity.
      * cbn in Hne. contradiction.
Qed.

(** [chunk_text_smart] in paragraph mode returns the list it has built; the
    call of [chunk_text] at its end is reached on whitespace-only texts and
    yields no chunk. *)
Lemma smart_returns (self : TextChunker) (text : list ascii) :
  chunk_text_smart self text true = Some (Ok (smart_chunks self text))
  /\ (smart_chunks self text = [] <-> blank text = true).
Proof.
  destruct (smart_loop_words self text) as [Hwords Hblank]. cbn zeta in *.
  unfold chunk_text_smart, smart_chunks. cbn [negb]. cbn zeta.
  destruct (blank text) eqn:Hb.
  - rewrite (Hblank eq_refl). cbn. unfold chunk_text. rewrite Hb.
    split; [reflexivity | split; reflexivity].
  - set (st := smart_loop self text (split_paragraphs text)) in *.
    assert (Hne : match current_chunk_words st with
                  | [] => chunks_acc st
                  | _ => chunks_acc st
                         ++ [emit text (current_chunk_words st)
                               (smart_position st)]
                  end <> []).
    { destruct (current_chunk_words st) eqn:Hcur.
      - intros Hacc. specialize (Hwords Hacc).
        symmetry in Hwords. apply split_nil_blank in Hwords. congruence.
      - intros Hnil. apply app_eq_nil in Hnil as [_ Hnil]. discriminate. }
    destruct (match current_chunk_words st with
              | [] => chunks_acc st
              | _ => _
              end) eqn:Hchunks; [contradiction|].
    split; [reflexivity|]. split; [discriminate|discriminate].
Qed.

(** X3.  In paragraph mode [chunk_text_smart] returns a list for every text
    under every configuration of the chunker, and the list is empty exactly
    when the text holds whitespace only. *)
Theorem smart_always_returns :
  forall (self : TextChunker) (text : list ascii),
    exists chunks,
      chunk_text_smart self text true = Some (Ok chunks)
      /\ (chunks = [] <-> blank text = true).
Proof.
  intros self text. exists (smart_chunks self text). apply smart_returns.
Qed.

(** The chunks emitted so far are numbered from 0 and made of words. *)
Lemma smart_loop_numbered (self : TextChunker) (text : list ascii) :
  let st := smart_loop self text (split_paragraphs text) in
  smart_position st = len (chunks_acc st)
  /\ Forall word (current_chunk_words st)
  /\ forall (k : nat) ch,
       chunks_acc st !! k = Some ch ->
       exists ws, Forall word ws /\ ws <> []
                  /\ ch = emit text ws (Z.of_nat k).
Proof.
  cbn zeta.
  apply (smart_loop_invariant self text (split_paragraphs text)
           (fun st _ =>
              smart_position st = len (chunks_acc st)
              /\ Forall word (current_chunk_words st)
              /\ forall (k : nat) ch,
                   chunks_acc st !! k = Some ch ->
                   exists ws, Forall word ws /\ ws <> []
                              /\ ch = emit text ws (Z.of_nat k))).
  - split; [reflexivity|]. split; [constructor|].
    intros k ch Hk. destruct k; discriminate.
  - intros st seen p rest _ (Hpos & Hcur & Hacc).
    destruct (smart_step_cases self text st p)
      as [[-> _]|[-> [_ Hne]]]; cbn.
    + split; [exact Hpos|]. split; [|exact Hacc].
      apply Forall_app. split; [exact Hcur | apply split_words].
    + split; [rewrite len_app, Hpos; reflexivity|]. split.
      * apply Forall_app. split; [|apply split_words].
        rewrite slice_from_drop by lia. apply Forall_word_skipn. exact Hcur.
      * intros k ch Hk. apply lookup_app_Some in Hk as [Hk|[Hge Hk]].
        { apply Hacc. exact Hk. }
        destruct (k - length (chunks_acc st))%nat eqn:Hd; [|destruct n; discriminate].
        cbn in Hk. injection Hk as <-.
        exists (current_chunk_words st).
        split; [exact Hcur|]. split; [exact Hne|].
        f_equal. rewrite Hpos. unfold len. lia.
Qed.

(** X4.  The bookkeeping of the chunks of paragraph mode: they are numbered
    0, 1, 2, ..., every one of them has [start_char] 0, its [end_char] and
    [char_count] are the length of its content, and its [word_count] is
    the number of words of its content, which is not zero. *)
Theorem smart_chunk_fields :
  forall (self : TextChunker) (text : list ascii),
    exists chunks,
      chunk_text_smart self text true = Some (Ok chunks)
      /\ forall (k : nat) ch,
           chunks !! k = Some ch ->
           position ch = Z.of_nat k
           /\ start_char ch = 0
           /\ end_char ch = len (content ch)
           /\ char_count ch = len (content ch)
           /\ word_count ch = len (words_of ch)
           /\ 0 < word_count ch.
Proof.
  intros self text. exists (smart_chunks self text).
  split; [apply smart_returns|].
  destruct (smart_loop_numbered self text) as (Hpos & Hcur & Hacc).
  cbn zeta in *. unfold smart_chunks.
  set (st := smart_loop self text (split_paragraphs text)) in *.
  assert (Hall : forall (k : nat) ch,
            (chunks_acc st
             ++ match current_chunk_words st with
                | [] => []
                | _ => [emit text (current_chunk_words st)
                          (smart_position st)]
                end) !! k = Some ch ->
            exists ws, Forall word ws /\ ws <> []
                       /\ ch = emit text ws (Z.of_nat k)).
  { intros k ch Hk. apply lookup_app_Some in Hk as [Hk|[Hge Hk]].
    - apply Hacc. exact Hk.
    - destruct (current_chunk_words st) as [|w ws] eqn:Hw.
      + rewrite lookup_nil in Hk. discriminate.
      + destruct (k - length (chunks_acc st))%nat eqn:Hd;
          [|destruct n; discriminate].
        cbn in Hk. injection Hk as <-.
        exists (w :: ws). split; [exact Hcur|]. split; [discriminate|].
        f_equal. rewrite Hpos. unfold len. lia. }
  intros k ch Hk.
  destruct (Hall k ch) as (ws & Hws & Hne & ->).
  { destruct (current_chunk_words st); [rewrite app_nil_r|]; exact Hk. }
  apply emit_fields; assumption.
Qed.

(** There is always a first paragraph. *)
Lemma split_paragraphs_aux_nonempty (n : nat) :
  forall (s cur : list ascii),
    (length s <= n)%nat -> split_paragraphs_aux cur s <> [].
Proof.
  induction n as [|n IH]; intros s cur Hlen.
  - destruct s; [discriminate | cbn in Hlen; lia].
  - destruct s as [|c [|c' rest]]; [discriminate | discriminate |].
    rewrite split_paragraphs_aux_step.
    destruct (Ascii.eqb c newline && Ascii.eqb c' newline)%bool;
      [discriminate|].
    apply IH. cbn in Hlen |- *. lia.
Qed.

Lemma split_paragraphs_nonempty (text : list ascii) :
  split_paragraphs text <> [].
Proof. apply (split_paragraphs_aux_nonempty (length text)). lia. Qed.

(** The words of the paragraphs read so far are among the words of the
    text. *)
Lemma words_so_far (text : list ascii) (seen rest : list (list ascii))
    (p : list ascii) :
  split_paragraphs text = seen ++ p :: rest ->
  len (concat (split <$> seen)) + len (split p) <= len (split text).
Proof.
  intros Hpars. rewrite <- (paragraph_words text), Hpars.
  rewrite fmap_app, concat_app, len_app. cbn. rewrite len_app.
  unfold len. lia.
Qed.

(** X5.  A text with words, at most [chunk_size] of them, gives one chunk in
    both modes, but not the same one: paragraph mode joins the words with
    single spaces, the plain mode keeps the text as it is. *)
Theorem smart_short_text_normalised :
  forall (self : TextChunker) (text : list ascii),
    blank text = false ->
    len (split text) <= chunk_size self ->
    (exists ch,
       chunk_text_smart self text true = Some (Ok [ch])
       /\ content ch = join (split text)
       /\ position ch = 0
       /\ word_count ch = len (split text))
    /\ (exists ch,
          chunk_text_smart self text false = Some (Ok [ch])
          /\ content ch = text
          /\ position ch = 0
          /\ word_count ch = len (split text)).
Proof.
  intros self text Hb Hshort. split.
  - exists (emit text (split text) 0).
    split; [|repeat split].
    destruct (smart_returns self text) as [-> _]. do 2 f_equal.
    unfold smart_chunks.
    assert (Hst : smart_loop self text (split_paragraphs text)
                  = {| chunks_acc := []; current_chunk_words := split text;
                       smart_position := 0 |}).
    { rewrite <- (paragraph_words text).
      apply (smart_loop_invariant self text (split_paragraphs text)
               (fun st seen =>
                  st = {| chunks_acc := [];
                          current_chunk_words := concat (split <$> seen);
                          smart_position := 0 |})); [reflexivity|].
      intros st seen p rest Hpars ->.
      pose proof (words_so_far text seen rest p Hpars) as Hle.
      rewrite words_snoc.
      destruct (smart_step_cases self text
                  {| chunks_acc := [];
                     current_chunk_words := concat (split <$> seen);
                     smart_position := 0 |} p) as [[-> _]|[_ [Hgt _]]].
      - reflexivity.
      - cbn in Hgt. lia. }
    rewrite Hst. cbn.
    destruct (split text) eqn:Hw; [|reflexivity].
    apply split_nil_blank in Hw. congruence.
  - eexists. unfold chunk_text_smart, chunk_text. cbn [negb]. rewrite Hb.
    apply Z.leb_le in Hshort. rewrite Hshort.
    split; [reflexivity|]. repeat split.
Qed.

Lemma smart_short_text_normalised_witness :
  (exists ch,
     chunk_text_smart paragraph_chunker (str "a  b") true = Some (Ok [ch])
     /\ content ch = join (split (str "a  b"))
     /\ position ch = 0
     /\ word_count ch = len (split (str "a  b")))
  /\ (exists ch,
        chunk_text_smart paragraph_chunker (str "a  b") false = Some (Ok [ch])
        /\ content ch = str "a  b"
        /\ position ch = 0
        /\ word_count ch = len (split (str "a  b"))).
Proof.
  apply (smart_short_text_normalised paragraph_chunker (str "a  b")).
  - reflexivity.
  - vm_compute. discriminate.
Defined.

(** X6.  With [0 <= chunk_overlap], if no paragraph has more words than the
    stride [chunk_size - chunk_overlap], no chunk of paragraph mode has more
    than [chunk_size] words. *)
Theorem smart_chunks_fit :
  forall (self : TextChunker) (text : list ascii),
    0 <= chunk_overlap self ->
    (forall p, p ∈ split_paragraphs text -> len (split p) <= stride self) ->
    exists chunks,
      chunk_text_smart self text true = Some (Ok chunks)
      /\ forall ch, ch ∈ chunks -> word_count ch <= chunk_size self.
Proof.
  intros self text Hov Hpar. exists (smart_chunks self text).
  split; [apply smart_returns|].
  assert (Hsize : 0 <= chunk_size self).
  { destruct (split_paragraphs text) as [|p ps] eqn:Hps.
    - exfalso. revert Hps. apply split_paragraphs_nonempty.
    - specialize (Hpar p ltac:(apply elem_of_cons; left; reflexivity)).
      unfold stride, len in Hpar. lia. }
  assert (Hinv :
    let st := smart_loop self text (split_paragraphs text) in
    len (current_chunk_words st) <= chunk_size self
    /\ Forall (fun ch => word_count ch <= chunk_size self) (chunks_acc st)).
  { cbn zeta.
    apply (smart_loop_invariant self text (split_paragraphs text)
             (fun st _ =>
                len (current_chunk_words st) <= chunk_size self
                /\ Forall (fun ch => word_count ch <= chunk_size self)
                     (chunks_acc st))).
    - split; [exact Hsize | constructor].
    - intros st seen p rest Hpars [Hlen Hacc].
      assert (Hp : len (split p) <= stride self).
      { apply Hpar. rewrite Hpars. apply elem_of_app. right.
        apply elem_of_cons. left. reflexivity. }
      unfold stride in Hp.
      destruct (smart_step_cases self text st p)
        as [[-> [Hle|Hnil]]|[-> _]]; cbn.
      + split; [rewrite len_app; lia | exact Hacc].
      + split; [rewrite Hnil; cbn; lia | exact Hacc].
      + split.
        * rewrite len_app, slice_from_drop by lia.
          unfold len in *. rewrite length_skipn. lia.
        * apply Forall_app. split; [exact Hacc|].
          constructor; [exact Hlen | constructor]. }
  cbn zeta in Hinv. destruct Hinv as [Hlen Hacc]. unfold smart_chunks.
  intros ch Hch. rewrite Forall_forall in Hacc.
  destruct (current_chunk_words
              (smart_loop self text (split_paragraphs text))) eqn:Hcur.
  - apply Hacc. exact Hch.
  - apply elem_of_app in Hch as [Hch|Hch].
    + apply Hacc. exact Hch.
    + apply list_elem_of_singleton in Hch. subst ch. exact Hlen.
Qed.

Lemma smart_chunks_fit_witness :
  exists chunks,
    chunk_text_smart paragraph_chunker short_paragraphs true
    = Some (Ok chunks)
    /\ forall ch, ch ∈ chunks -> word_count ch <= chunk_size paragraph_chunker.
Proof.
  apply (smart_chunks_fit paragraph_chunker short_paragraphs).
  - cbn. lia.
  - intros p Hp.
    assert (Hps : split_paragraphs short_paragraphs
                  = [str "a b"; str "c d"; str "e"]) by reflexivity.
    rewrite Hps in Hp.
    repeat (apply elem_of_cons in Hp as [->|Hp]; [vm_compute; discriminate|]).
    apply elem_of_nil in Hp. contradiction.
Defined.

End ChunkSmartExtra.

(** ** The embedding cache: overwriting, deleting, clearing *)

Module EmbeddingCacheExtra.
Import EmbeddingCache EmbeddingCacheFacts.

Section WithHash.

Variable sha256_hexdigest : list ascii -> string.

Local Abbreviation get := (get sha256_hexdigest).
Local Abbreviation set := (set sha256_hexdigest).
Local Abbreviation delete := (delete sha256_hexdigest).
Local Abbreviation key := (_get_cache_key sha256_hexdigest).


(** The outcome of [get] depends on the file of the text's key only. *)
Lemma get_outcome_local (open_rb : result unit) (text : list ascii)
    (c c' : EmbeddingCache) :
  files c' !! key text = files c !! key text ->
  (get open_rb text c').1 = (get open_rb text c).1.
Proof.
  intros Hsame. rewrite !get_cases, Hsame.
  destruct (files c !! key text) as [f|]; [|reflexivity].
  destruct (bind open_rb (fun _ => load f)); reflexivity.
Qed.

End WithHash.

(** X7.  Round trip: after a [set] that returned [True], a [get] of the same
    text whose file opens returns the stored embedding and counts a hit; the
    [set] has counted one write and left the outcome of [get] on every text
    with another key as it was. *)
Theorem set_then_get :
  forall (sha256_hexdigest : list ascii -> string)
         (open_wb dump : result unit) (text : list ascii)
         (embedding : vector) (c c' : EmbeddingCache),
    set sha256_hexdigest open_wb dump text embedding c = (Ok true, c') ->
    get sha256_hexdigest (Ok tt) text c' = (Ok (Some embedding), add_hit c')
    /\ writes c' = writes c + 1
    /\ forall (open_rb : result unit) (other : list ascii),
         _get_cache_key sha256_hexdigest other
         <> _get_cache_key sha256_hexdigest text ->
         (get sha256_hexdigest open_rb other c').1
         = (get sha256_hexdigest open_rb other c).1.
Proof.
  intros sha open_wb dump text embedding c c' Hset.
  rewrite set_cases in Hset.
  destruct open_wb as [[]|]; [|discriminate].
  destruct dump as [[]|]; [|discriminate].
  injection Hset as <-. split; [|split].
  - rewrite get_cases. cbn. rewrite lookup_insert_eq. reflexivity.
  - reflexivity.
  - intros open_rb other Hother. apply get_outcome_local. cbn.
    rewrite !lookup_insert_ne by congruence. reflexivity.
Qed.

Lemma set_then_get_witness :
  get string_of_list_ascii (Ok tt) (str "a")
    (set string_of_list_ascii (Ok tt) (Ok tt) (str "a") [1%float]
       (__init__ ∅)).2
  = (Ok (Some [1%float]),
     add_hit (set string_of_list_ascii (Ok tt) (Ok tt) (str "a") [1%float]
                (__init__ ∅)).2).
Proof.
  apply (set_then_get string_of_list_ascii (Ok tt) (Ok tt) (str "a")
           [1%float] (__init__ ∅)).
  reflexivity.
Defined.

(** X8.  An overwrite that fails while writing destroys the entry it was to
    replace: where [get] returned the stored embedding before, after a [set]
    whose file opened and whose [pickle.dump] raised, [set] has returned
    [False] and [get] returns [None], whatever opening the file does. *)
Theorem failed_overwrite_loses_entry :
  forall (sha256_hexdigest : list ascii -> string)
         (e : exn) (text : list ascii) (old new : vector)
         (c : EmbeddingCache),
    files c !! _get_cache_key sha256_hexdigest text = Some (Pickled old) ->
    get sha256_hexdigest (Ok tt) text c = (Ok (Some old), add_hit c)
    /\ exists c',
         set sha256_hexdigest (Ok tt) (Raise e) text new c = (Ok false, c')
         /\ forall open_rb,
              get sha256_hexdigest open_rb text c' = (Ok None, add_miss c').
Proof.
  intros sha e text old new c Hold. split.
  - rewrite get_cases, Hold. reflexivity.
  - rewrite set_cases. eexists. split; [reflexivity|].
    intros open_rb. rewrite get_cases. cbn. rewrite lookup_insert_eq.
    destruct open_rb as [[]|]; reflexivity.
Qed.

Lemma failed_overwrite_loses_entry_witness :
  get string_of_list_ascii (Ok tt) (str "a")
    (__init__ {[ "a"%string := Pickled [1%float] ]})
  = (Ok (Some [1%float]),
     add_hit (__init__ {[ "a"%string := Pickled [1%float] ]}))
  /\ exists c',
       set string_of_list_ascii (Ok tt) (Raise OSError) (str "a") [2%float]
         (__init__ {[ "a"%string := Pickled [1%float] ]}) = (Ok false, c')
       /\ forall open_rb,
            get string_of_list_ascii open_rb (str "a") c'
            = (Ok None, add_miss c').
Proof.
  apply (failed_overwrite_loses_entry string_of_list_ascii OSError (str "a")
           [1%float] [2%float]).
  reflexivity.
Defined.


(** The loop of [clear] on files that are there: each is removed exactly
    when its [unlink] goes through, and counted then. *)
Lemma clear_loop_spec (unlink : string -> result unit) :
  forall (cache_files : list string) (count : Z) (c : EmbeddingCache),
    NoDup cache_files ->
    (forall k, k ∈ cache_files -> is_Some (files c !! k)) ->
    exists (n : Z) (c' : EmbeddingCache),
      clear_loop unlink cache_files count c = (Ok n, c')
      /\ n + Z.of_nat (size (files c')) = count + Z.of_nat (size (files c))
      /\ count <= n
      /\ hits c' = hits c /\ misses c' = misses c /\ writes c' = writes c
      /\ forall k,
           files c' !! k
           = if decide (k ∈ cache_files /\ is_ok (unlink k) = true)
             then None else files c !! k.
Proof.
  induction cache_files as [|f rest IH]; intros count c Hnodup Hthere.
  - exists count, c. cbn. split; [reflexivity|]. split; [lia|].
    split; [lia|]. do 3 (split; [reflexivity|]).
    intros k. destruct (decide _) as [[Hin _]|]; [|reflexivity].
    apply elem_of_nil in Hin. contradiction.
  - apply NoDup_cons in Hnodup as [Hfresh Hnodup].
    cbn [clear_loop]. unfold mbind, try_catch, lift, modify, ret. cbn.
    destruct (unlink f) as [[]|e] eqn:Hunlink; cbn.
    + destruct (IH (count + 1) (remove_file f c) Hnodup)
        as (n & c' & Hrun & Hsize & Hge & Hh & Hm & Hw & Hfiles).
      { intros k Hk. cbn. rewrite lookup_delete_ne.
        - apply Hthere. apply elem_of_cons. right. exact Hk.
        - intros ->. contradiction. }
      exists n, c'. split; [exact Hrun|].
      assert (Hf : is_Some (files c !! f)).
      { apply Hthere. apply elem_of_cons. left. reflexivity. }
      cbn in Hsize. rewrite (map_size_delete_Some f (files c) Hf) in Hsize.
      assert (size (files c) <> 0%nat).
      { intros Hz. apply map_size_empty_inv in Hz. rewrite Hz in Hf.
        rewrite lookup_empty in Hf. destruct Hf. discriminate. }
      split; [lia|]. split; [lia|].
      do 3 (split; [assumption|]).
      intros k. rewrite Hfiles. cbn.
      destruct (decide (k = f)) as [->|Hne].
      * rewrite lookup_delete_eq.
        destruct (decide (f ∈ f :: rest /\ is_ok (unlink f) = true))
          as [|Hno]; [destruct (decide _); reflexivity|].
        exfalso. apply Hno. split; [apply elem_of_cons; left; reflexivity|].
        rewrite Hunlink. reflexivity.
      * rewrite lookup_delete_ne by congruence.
        destruct (decide _) as [[Hin Hok]|Hno], (decide _) as [[Hin' Hok']|Hno'];
          try reflexivity.
        -- exfalso. apply Hno'. split; [apply elem_of_cons; right|]; assumption.
        -- exfalso. apply Hno. split; [|assumption].
           apply elem_of_cons in Hin' as [?|?]; [contradiction|assumption].
    + destruct (IH count c Hnodup)
        as (n & c' & Hrun & Hsize & Hge & Hh & Hm & Hw & Hfiles).
      { intros k Hk. apply Hthere. apply elem_of_cons. right. exact Hk. }
      exists n, c'. split; [exact Hrun|]. split; [exact Hsize|].
      split; [exact Hge|]. do 3 (split; [assumption|]).
      intros k. rewrite Hfiles.
      destruct (decide _) as [[Hin Hok]|Hno], (decide _) as [[Hin' Hok']|Hno'];
        try reflexivity.
      * exfalso. apply Hno'. split; [apply elem_of_cons; right|]; assumption.
      * exfalso. apply Hno. split; [|assumption].
        apply elem_of_cons in Hin' as [->|?]; [|assumption].
        rewrite Hunlink in Hok'. discriminate.
Qed.

(** X10.  [clear] never raises and never touches the counters.  When [glob]
    lists the files of the directory, each once and in any order, the files
    left are those whose [unlink] raised, and the number returned is the
    number of files that are gone: [get_size] afterwards is the size before
    less that number. *)
Theorem clear_counts_removed_files :
  forall (glob : gmap string file -> list string)
         (unlink : string -> result unit) (c : EmbeddingCache),
    (forall m, glob m ≡ₚ elements (dom m)) ->
    exists (count : Z) (c' : EmbeddingCache),
      clear glob unlink c = (Ok count, c')
      /\ 0 <= count
      /\ get_size c' = (Ok (Z.of_nat (size (files c)) - count), c')
      /\ hits c' = hits c /\ misses c' = misses c /\ writes c' = writes c
      /\ forall k,
           files c' !! k
           = if is_ok (unlink k) then None else files c !! k.
Proof.
  intros glob unlink c Hglob.
  destruct (clear_loop_spec unlink (glob (files c)) 0 c)
    as (n & c' & Hrun & Hsize & Hge & Hh & Hm & Hw & Hfiles).
  { rewrite Hglob. apply NoDup_elements. }
  { intros k Hk. rewrite Hglob in Hk.
    apply elem_of_elements, elem_of_dom in Hk. exact Hk. }
  exists n, c'. split; [exact Hrun|]. split; [exact Hge|].
  split; [unfold get_size, gets; do 2 f_equal; lia|].
  do 3 (split; [assumption|]).
  intros k. rewrite Hfiles.
  destruct (decide _) as [[_ ->]|Hno]; [reflexivity|].
  destruct (is_ok (unlink k)) eqn:Hok; [|reflexivity].
  destruct (files c !! k) as [f|] eqn:Hk; [|reflexivity].
  exfalso. apply Hno. split; [|reflexivity].
  rewrite Hglob. apply elem_of_elements, elem_of_dom. eauto.
Qed.

Lemma clear_counts_removed_files_witness :
  exists (count : Z) (c' : EmbeddingCache),
    clear (fun m => elements (dom m)) (fun _ => Ok tt)
      (__init__ {[ "a"%string := Pickled [1%float] ]}) = (Ok count, c')
    /\ 0 <= count
    /\ get_size c'
       = (Ok (Z.of_nat (size (files
                 (__init__ {[ "a"%string := Pickled [1%float] ]})))
              - count), c')
    /\ hits c' = 0 /\ misses c' = 0 /\ writes c' = 0
    /\ forall k, files c' !! k = None.
Proof.
  apply (clear_counts_removed_files (fun m => elements (dom m))
           (fun _ => Ok tt) (__init__ {[ "a"%string := Pickled [1%float] ]})).
  intros m. reflexivity.
Defined.




End EmbeddingCacheExtra.

(** ** The generator: batches, counters and clearing the cache *)

Module EmbeddingGeneratorExtra.
Import EmbeddingGenerator EmbeddingGeneratorFacts EmbeddingGeneratorSpec.

Section WithHash.

Variable sha256_hexdigest : list ascii -> string.

Local Abbreviation generate := (generate_embedding sha256_hexdigest).
Local Abbreviation key := (_get_cache_key sha256_hexdigest).
Local Abbreviation batch_loop := (batch_loop sha256_hexdigest).


(** The same with caching off: nothing is looked up or stored. *)
Lemma generate_uncached (env : Backends) (text : list ascii)
    (g : EmbeddingGenerator) :
  blank text = false ->
  use_cache g = false ->
  chain env g <> [] ->
  exists g1,
    (g1 = g \/ g1 = model_loaded g)
    /\ generate env text g = (Ok (Some (chain env g)), add_generated g1).
Proof.
  intros Hb Hc Hne.
  unfold generate_embedding. rewrite Hb.
  unfold mbind at 1. unfold gets at 1.
  unfold mbind at 1. rewrite Hc.
  unfold ret at 1. unfold try_catch. unfold mbind at 1.
  destruct (impl_cases env text g) as (g1 & -> & Hg1).
  exists g1. split; [exact Hg1|].
  destruct (chain env g) as [|x v] eqn:Hch; [contradiction|].
  reflexivity.
Qed.


End WithHash.








(** X15.  With caching off, a batch never touches the cache or the hit and
    miss counters, and generates an embedding for every text that is not
    blank, repeated texts included. *)
Theorem uncached_batch_generates_every_text :
  forall (sha256_hexdigest : list ascii -> string) (env : nat -> Backends)
         (texts : list (list ascii)) (g : EmbeddingGenerator),
    use_cache g = false ->
    0 < embedding_dimension g ->
    exists embeddings g',
      generate_embeddings_batch sha256_hexdigest env texts g
      = (Ok embeddings, g')
      /\ _cache g' = _cache g
      /\ cache_hits (stats g') = cache_hits (stats g)
      /\ cache_misses (stats g') = cache_misses (stats g)
      /\ embeddings_generated (stats g')
         = embeddings_generated (stats g) + len (spoken texts).
Proof.
  intros sha env texts. unfold generate_embeddings_batch.
  generalize 0%nat as i. induction texts as [|text rest IH];
    intros i g Hc Hdim.
  - exists [], g. split; [reflexivity|]. unfold spoken, len. cbn.
    repeat split; lia.
  - assert (Hstep : exists r g1,
              generate_embedding sha (env i) text g = (Ok r, g1)
              /\ use_cache g1 = false
              /\ embedding_dimension g1 = embedding_dimension g
              /\ _cache g1 = _cache g
              /\ cache_hits (stats g1) = cache_hits (stats g)
              /\ cache_misses (stats g1) = cache_misses (stats g)
              /\ embeddings_generated (stats g1)
                 = embeddings_generated (stats g)
                   + (if blank text then 0 else 1)).
    { destruct (blank text) eqn:Hb.
      - exists None, g. rewrite generate_blank by exact Hb.
        repeat split; try assumption; lia.
      - destruct (generate_uncached sha (env i) text g Hb Hc
                    (chain_nonempty (env i) g Hdim)) as (g1 & Hg1 & ->).
        eexists _, _. split; [reflexivity|].
        destruct Hg1 as [->| ->]; cbn; repeat split; assumption. }
    destruct Hstep as (r & g1 & Hcall & Hc1 & Hdim1 & Hk & Hh & Hm & Hg).
    destruct (IH (S i) g1 Hc1 ltac:(lia))
      as (es & g' & Hrest & Hk' & Hh' & Hm' & Hg').
    exists (r :: es), g'. split.
    + cbn [batch_loop]. unfold mbind. rewrite Hcall. cbn.
      rewrite Hrest. reflexivity.
    + unfold spoken in *. cbn [List.filter].
      destruct (blank text); cbn [negb]; unfold len in *; cbn [length];
        repeat split; try congruence; lia.
Qed.

Lemma uncached_batch_generates_every_text_witness :
  exists embeddings g',
    generate_embeddings_batch identity_hash (fun _ => no_backend)
      [str "a"; str " "; str "a"] uncached_generator = (Ok embeddings, g')
    /\ _cache g' = _cache uncached_generator
    /\ cache_hits (stats g') = cache_hits (stats uncached_generator)
    /\ cache_misses (stats g') = cache_misses (stats uncached_generator)
    /\ embeddings_generated (stats g')
       = embeddings_generated (stats uncached_generator)
         + len (spoken [str "a"; str " "; str "a"]).
Proof.
  apply (uncached_batch_generates_every_text identity_hash
           (fun _ => no_backend) [str "a"; str " "; str "a"]
           uncached_generator); reflexivity.
Defined.

End EmbeddingGeneratorExtra.

(** ** The detector: what is written, and what the timestamps decide *)

Module SupersessionExtra.
Import Supersession SupersessionFacts.

Section WithLibrary.

Variable L : Library.

Lemma writes_for_app (new_document_id : string) (a b : list Superseded) :
  writes_for new_document_id (a ++ b)
  = writes_for new_document_id a ++ writes_for new_document_id b.
Proof. unfold writes_for. apply flat_map_app. Qed.

(** The loop over the candidates, when it comes to its end: what it has
    written is what it reports. *)
Lemma detect_loop_writes (new_document_id new_title new_file_path : string)
    (new_ingestion_date : pyval) (rows : list (gmap string pyval)) :
  forall (results results' : Results) (log log' : list StoreCall),
    detect_loop L new_document_id new_title new_file_path
      new_ingestion_date rows results log = (Ok results', log') ->
    exists entries,
      superseded results' = superseded results ++ entries
      /\ reasons results' = reasons results ++ (sup_reason <$> entries)
      /\ count results' = count results
      /\ log' = log ++ writes_for new_document_id entries
      /\ (length entries <= length rows)%nat.
Proof.
  induction rows as [|c rows IH]; intros results results' log log' Hrun.
  - cbn in Hrun. injection Hrun as <- <-. exists [].
    cbn. rewrite !app_nil_r. repeat split; lia.
  - cbn [detect_loop] in Hrun. unfold mbind in Hrun.
    rewrite detect_step_cases in Hrun.
    destruct (_should_supersede L new_title new_file_path
                new_ingestion_date c) as [[[|] reason]|e];
      [| |discriminate].
    + destruct (item c "document_id") as [i|e]; [|discriminate].
      cbn zeta in Hrun.
      destruct (item c "title") as [t|e]; [|discriminate].
      apply IH in Hrun as (entries & Hsup & Hreasons & Hcount & Hlog & Hlen).
      cbn in Hsup, Hreasons, Hcount.
      exists ({| sup_document_id := i; sup_title := t;
                 sup_reason := reason |} :: entries).
      rewrite Hsup, Hreasons, Hcount, Hlog, <- !app_assoc.
      repeat split; cbn; lia.
    + apply IH in Hrun as (entries & Hsup & Hreasons & Hcount & Hlog & Hlen).
      exists entries. repeat split; try assumption. cbn. lia.
Qed.

End WithLibrary.

(** X16.  When [detect_and_mark_supersession] returns, it has written
    exactly what it reports: for every entry of [superseded], in order, one
    [mark_document_superseded] and one [create_supersedes_relationship] with
    the entry's reason, and nothing else; [reasons] lists the entries'
    reasons, [count] is their number, and there are no more entries than
    candidates.  When the candidate query fails, it reports nothing and
    writes nothing. *)
Theorem detect_writes_what_it_reports :
  forall (L : Library) (execute_read : result (list (gmap string pyval)))
         (new_document_id new_title new_file_path : string)
         (new_ingestion_date : pyval) (results : Results)
         (log : list StoreCall),
    detect_and_mark_supersession L execute_read new_document_id new_title
      new_file_path new_ingestion_date [] = (Ok results, log) ->
    log = writes_for new_document_id (superseded results)
    /\ reasons results = sup_reason <$> superseded results
    /\ count results = len (superseded results)
    /\ len (superseded results)
       <= len (_find_supersession_candidates execute_read)
    /\ (forall e, execute_read = Raise e ->
                  superseded results = [] /\ log = []).
Proof.
  intros L execute_read new_id new_title new_path new_date results log Hrun.
  unfold detect_and_mark_supersession, mbind, ret in Hrun.
  destruct (detect_loop L new_id new_title new_path new_date
              (_find_supersession_candidates execute_read)
              {| superseded := []; reasons := []; count := 0 |} [])
    as [[r|e] log'] eqn:Hloop; [|discriminate].
  injection Hrun as <- <-.
  apply detect_loop_writes in Hloop
    as (entries & Hsup & Hreasons & _ & Hlog & Hlen).
  cbn in Hsup, Hreasons, Hlog. cbn.
  rewrite Hsup, Hreasons, Hlog.
  split; [reflexivity|]. split; [reflexivity|]. split; [reflexivity|].
  split; [unfold len; lia|].
  intros e ->. cbn in Hlen. destruct entries; [auto | cbn in Hlen; lia].
Qed.

Lemma detect_writes_what_it_reports_witness :
  exists results log,
    detect_and_mark_supersession example_library (Ok [older_row]) "doc-b"
      "Session Report" "notes/report-v2.md" (PyStr "2024-02-01T00:00:00") []
    = (Ok results, log)
    /\ log = writes_for "doc-b" (superseded results)
    /\ count results = 1.
Proof.
  eexists _, _. split; [vm_compute; reflexivity|].
  split.
  - apply (detect_writes_what_it_reports example_library (Ok [older_row])
             "doc-b" "Session Report" "notes/report-v2.md"
             (PyStr "2024-02-01T00:00:00")).
    vm_compute. reflexivity.
  - reflexivity.
Defined.

Section Timestamps.

Variable L : Library.

(** When either timestamp is rejected, the comparison is between the clock
    and [datetime.min]. *)
Lemma parse_dates_fallback (new_ingestion_date : pyval)
    (candidate : gmap string pyval) :
  unparseable L new_ingestion_date
  \/ (exists s, candidate !! "ingestion_date"%string = Some (PyStr s)
                /\ s <> EmptyString
                /\ fromisoformat L (replace_char "Z" "+00:00" s) = None) ->
  parse_dates L new_ingestion_date candidate = Ok (now L, datetime_min).
Proof.
  intros [Hnew|(s & Hs & Hne & Hbad)]; unfold parse_dates.
  - destruct new_ingestion_date as [|s]; cbn in Hnew |- *; [reflexivity|].
    unfold parse. rewrite Hnew. reflexivity.
  - unfold get_or. rewrite Hs.
    destruct (bind (replace_Z new_ingestion_date) (parse L)) as [d|e] eqn:Hd.
    + cbn. destruct s as [|a s]; [contradiction|]. cbn.
      unfold parse. cbn in Hbad. rewrite Hbad. reflexivity.
    + destruct new_ingestion_date as [|s']; cbn in Hd.
      * injection Hd as <-. reflexivity.
      * unfold parse in Hd.
        destruct (fromisoformat L (replace_char "Z" "+00:00" s'));
          [discriminate|].
        injection Hd as <-. reflexivity.
Qed.


End Timestamps.

(** X17.  A timestamp that cannot be parsed counts as the newest: if the new
    document's timestamp is null or rejected by [fromisoformat], or the
    candidate's is a string that is rejected, a candidate with the same title
    is superseded, whatever the two timestamps say about the order. *)
Theorem unparseable_timestamp_supersedes :
  forall (L : Library) (new_title new_file_path : string)
         (new_ingestion_date : pyval) (candidate : gmap string pyval),
    unparseable L new_ingestion_date
    \/ (exists s, candidate !! "ingestion_date"%string = Some (PyStr s)
                  /\ s <> EmptyString
                  /\ fromisoformat L (replace_char "Z" "+00:00" s) = None) ->
    candidate !! "title"%string = Some (PyStr new_title) ->
    _should_supersede L new_title new_file_path new_ingestion_date candidate
    = Ok (true, "exact_title_match"%string).
Proof.
  intros L new_title new_path new_date candidate Hbad Htitle.
  apply (should_supersede_same_title L _ _ _ _ (now L) datetime_min).
  - apply parse_dates_fallback. exact Hbad.
  - reflexivity.
  - cbn. lia.
  - exact Htitle.
Qed.

Lemma unparseable_timestamp_supersedes_witness :
  _should_supersede example_library "Session Report" "notes/report-v2.md"
    (PyStr "last week") older_row
  = Ok (true, "exact_title_match"%string).
Proof.
  apply (unparseable_timestamp_supersedes example_library).
  - left. reflexivity.
  - reflexivity.
Defined.



End SupersessionExtra.

(** ** The retroactive scan *)

Module RetroactiveScan.
Import Supersession SupersessionFacts.

Section WithLibrary.

Variable L : Library.

(** One round of the inner loop. *)
Lemma retro_inner_step (dry_run : bool)
    (doc_data later_data : gmap string pyval)
    (rest : list (gmap string pyval)) (st : RetroState) :
  retro_inner L dry_run doc_data (later_data :: rest) st
  = match verdict L doc_data later_data with
    | Raise e => (Raise e, st)
    | Ok None => retro_inner L dry_run doc_data rest st
    | Ok (Some reason) =>
        match scan_writes dry_run doc_data later_data reason with
        | Raise e => (Raise e, st)
        | Ok writes =>
            let st' := (st.1, st.2 ++ writes) in
            match item doc_data "title" with
            | Raise e => (Raise e, st')
            | Ok older_title =>
                match item later_data "title" with
                | Raise e => (Raise e, st')
                | Ok newer_title =>
                    (Ok tt,
                     add_found
                       (add_entry {| older := older_title;
                                     newer := newer_title;
                                     retro_reason := reason |} st'))
                end
            end
        end
    end.
Proof.
  cbn [retro_inner]. unfold verdict, scan_writes, mbind, lift, modify, ret.
  destruct (item later_data "title") as [title|e]; [|reflexivity]. cbn.
  destruct (item later_data "file_path") as [path|e]; [|reflexivity]. cbn.
  destruct (item later_data "ingestion_date") as [date|e]; [|reflexivity].
  cbn.
  destruct (_should_supersede_values L title path date doc_data)
    as [[should reason]|e]; [|reflexivity].
  cbn.
  destruct (should && negb (contains "no_supersession" reason))%bool;
    [|reflexivity].
  destruct dry_run.
  - cbn. destruct st as [res log]. cbn. rewrite app_nil_r.
    destruct (item doc_data "title"); reflexivity.
  - destruct (item doc_data "document_id") as [o|e]; [|reflexivity]. cbn.
    destruct (item later_data "document_id") as [n|e]; [|reflexivity]. cbn.
    destruct st as [res log]. unfold store_write. cbn.
    rewrite <- app_assoc. cbn.
    destruct (item doc_data "title"); reflexivity.
Qed.

Lemma extended_nil (results : RetroResults) : extended results [] = results.
Proof.
  destruct results. unfold extended, len. cbn.
  rewrite Z.add_0_r, app_nil_r. reflexivity.
Qed.

Lemma extended_app (results : RetroResults) (a b : list RetroEntry) :
  extended (extended results a) b = extended results (a ++ b).
Proof.
  unfold extended, len. cbn. rewrite length_app, <- app_assoc.
  f_equal. lia.
Qed.

(** The inner loop finds at most one supersession, and writes for it
    unless the run is dry. *)
Lemma retro_inner_spec (dry_run : bool) (doc_data : gmap string pyval)
    (later : list (gmap string pyval)) :
  forall (st : RetroState),
  exists out entries writes,
    retro_inner L dry_run doc_data later st
    = (out, (extended st.1 entries, st.2 ++ writes))
    /\ (length entries <= 1)%nat
    /\ (dry_run = true -> writes = [])
    /\ (dry_run = false -> out = Ok tt ->
        length writes = (2 * length entries)%nat).
Proof.
  induction later as [|later_data rest IH]; intros st.
  - exists (Ok tt), [], []. cbn. rewrite extended_nil, app_nil_r.
    destruct st. repeat split; auto.
  - rewrite retro_inner_step.
    destruct (verdict L doc_data later_data) as [[reason|]|e].
    + destruct (scan_writes dry_run doc_data later_data reason)
        as [writes|e] eqn:Hw.
      * assert (Hlen : (dry_run = true -> writes = [])
                       /\ (dry_run = false -> length writes = 2%nat)).
        { unfold scan_writes in Hw. destruct dry_run.
          - injection Hw as <-. split; [reflexivity | discriminate].
          - destruct (item doc_data "document_id"); [|discriminate].
            destruct (item later_data "document_id"); [|discriminate].
            injection Hw as <-. split; [discriminate | reflexivity]. }
        destruct Hlen as [Hdry Hreal]. cbn zeta.
        destruct (item doc_data "title") as [o|e].
        -- destruct (item later_data "title") as [n|e].
           ++ exists (Ok tt),
                [{| older := o; newer := n; retro_reason := reason |}],
                writes.
              split; [reflexivity|]. split; [cbn; lia|].
              split; [exact Hdry|]. intros Hd _. rewrite (Hreal Hd).
              reflexivity.
           ++ exists (Raise e), [], writes. rewrite extended_nil.
              split; [reflexivity|]. split; [cbn; lia|].
              split; [exact Hdry | discriminate].
        -- exists (Raise e), [], writes. rewrite extended_nil.
           split; [reflexivity|]. split; [cbn; lia|].
           split; [exact Hdry | discriminate].
      * exists (Raise e), [], []. rewrite extended_nil, app_nil_r.
        destruct st. split; [reflexivity|]. split; [cbn; lia|].
        split; [reflexivity | discriminate].
    + apply IH.
    + exists (Raise e), [], []. rewrite extended_nil, app_nil_r.
      destruct st. split; [reflexivity|]. split; [cbn; lia|].
      split; [reflexivity | discriminate].
Qed.

(** The outer loop finds at most one supersession per document. *)
Lemma retro_outer_spec (dry_run : bool)
    (documents : list (gmap string pyval)) :
  forall (st : RetroState),
  exists out entries writes,
    retro_outer L dry_run documents st
    = (out, (extended st.1 entries, st.2 ++ writes))
    /\ (length entries <= length documents)%nat
    /\ (dry_run = true -> writes = [])
    /\ (dry_run = false -> out = Ok tt ->
        length writes = (2 * length entries)%nat).
Proof.
  induction documents as [|doc later IH]; intros st.
  - exists (Ok tt), [], []. cbn. rewrite extended_nil, app_nil_r.
    destruct st. repeat split; auto.
  - cbn [retro_outer]. unfold mbind.
    destruct (retro_inner_spec dry_run doc later st)
      as (out & entries & writes & -> & Hlen & Hdry & Hreal).
    destruct out as [[]|e].
    + destruct (IH (extended st.1 entries, st.2 ++ writes))
        as (out' & entries' & writes' & -> & Hlen' & Hdry' & Hreal').
      exists out', (entries ++ entries'), (writes ++ writes').
      cbn [fst snd]. rewrite extended_app, <- app_assoc.
      split; [reflexivity|]. split; [rewrite length_app; cbn; lia|].
      split.
      * intros Hd. rewrite (Hdry Hd), (Hdry' Hd). reflexivity.
      * intros Hd Hout. rewrite !length_app.
        rewrite (Hreal Hd eq_refl), (Hreal' Hd Hout). lia.
    + exists (Raise e), entries, writes.
      split; [reflexivity|]. split; [cbn; lia|].
      split; [exact Hdry | discriminate].
Qed.

(** On rows with identifiers the dry run and the real run of the inner loop
    end alike and report alike. *)
Lemma retro_inner_dry (doc_data : gmap string pyval)
    (later : list (gmap string pyval)) :
  has_document_id doc_data ->
  Forall has_document_id later ->
  forall (results : RetroResults) (log log' : list RetroCall),
    (retro_inner L true doc_data later (results, log)).1
    = (retro_inner L false doc_data later (results, log')).1
    /\ (retro_inner L true doc_data later (results, log)).2.1
       = (retro_inner L false doc_data later (results, log')).2.1.
Proof.
  intros [o Ho] Hlater. induction Hlater as [|later_data rest [n Hn] _ IH];
    intros results log log'.
  - split; reflexivity.
  - rewrite !retro_inner_step.
    destruct (verdict L doc_data later_data) as [[reason|]|e];
      [|apply IH|split; reflexivity].
    unfold scan_writes, item. rewrite Ho, Hn. cbn.
    destruct (doc_data !! "title"%string); [|split; reflexivity].
    destruct (later_data !! "title"%string); split; reflexivity.
Qed.

Lemma retro_outer_dry (documents : list (gmap string pyval)) :
  Forall has_document_id documents ->
  forall (results : RetroResults) (log log' : list RetroCall),
    (retro_outer L true documents (results, log)).1
    = (retro_outer L false documents (results, log')).1
    /\ (retro_outer L true documents (results, log)).2.1
       = (retro_outer L false documents (results, log')).2.1.
Proof.
  induction 1 as [|doc later Hdoc Hlater IH]; intros results log log'.
  - split; reflexivity.
  - cbn [retro_outer]. unfold mbind.
    destruct (retro_inner_dry doc later Hdoc Hlater results log log')
      as [Hout Hres].
    destruct (retro_inner L true doc later (results, log))
      as [out1 [res1 log1]].
    destruct (retro_inner L false doc later (results, log'))
      as [out2 [res2 log2]].
    cbn in Hout, Hres. subst out2 res2.
    destruct out1 as [[]|e]; [apply IH | split; reflexivity].
Qed.

End WithLibrary.

(** X19.  The scan never raises.  It counts what it lists
    ([supersessions_found] is the length of [superseded_documents]), finds
    at most one successor per document, records at most one error, and a dry
    run writes nothing.  When the query fails, the error is all it
    reports. *)
Theorem scan_always_reports :
  forall (L : Library) (execute_read : result (list (gmap string pyval)))
         (dry_run : bool) (log : list RetroCall),
    exists results writes,
      retroactively_detect_supersessions L execute_read dry_run log
      = (Ok results, log ++ writes)
      /\ supersessions_found results = len (superseded_documents results)
      /\ (length (retro_errors results) <= 1)%nat
      /\ (dry_run = true -> writes = [])
      /\ (forall documents,
            execute_read = Ok documents ->
            documents_checked results = len documents
            /\ supersessions_found results <= len documents
            /\ (dry_run = false -> retro_errors results = [] ->
                len writes = 2 * supersessions_found results))
      /\ (forall e,
            execute_read = Raise e ->
            results = {| documents_checked := 0; supersessions_found := 0;
                         superseded_documents := []; retro_errors := [e] |}
            /\ writes = []).
Proof.
  intros L execute_read dry_run log.
  unfold retroactively_detect_supersessions.
  destruct execute_read as [documents|e].
  - unfold try_catch, mbind, lift, modify. cbn.
    destruct (retro_outer_spec L dry_run documents
                (set_checked (len documents)
                   ({| documents_checked := 0; supersessions_found := 0;
                       superseded_documents := []; retro_errors := [] |},
                    log)))
      as (out & entries & writes & -> & Hlen & Hdry & Hreal).
    cbn [fst snd set_checked] in *.
    destruct out as [[]|e]; cbn.
    + exists (extended
                {| documents_checked := len documents;
                   supersessions_found := 0; superseded_documents := [];
                   retro_errors := [] |} entries), writes.
      split; [reflexivity|]. cbn. split; [reflexivity|]. split; [lia|].
      split; [exact Hdry|]. split; [|discriminate].
      intros docs [= <-]. split; [reflexivity|].
      split; [unfold len; lia|].
      intros Hd _. unfold len. rewrite (Hreal Hd eq_refl). lia.
    + eexists _, writes. split; [reflexivity|]. cbn.
      split; [reflexivity|]. split; [lia|]. split; [exact Hdry|].
      split; [|discriminate].
      intros docs [= <-]. split; [reflexivity|].
      split; [unfold len; lia | discriminate].
  - exists {| documents_checked := 0; supersessions_found := 0;
              superseded_documents := []; retro_errors := [e] |}, [].
    cbn. rewrite app_nil_r. split; [reflexivity|].
    split; [reflexivity|]. split; [lia|]. split; [reflexivity|].
    split; [discriminate|]. intros e' [= <-]. split; reflexivity.
Qed.

(** X20.  A dry run tells what a real run does: when every row of the query
    has an identifier, both return the same results. *)
Theorem dry_run_predicts_real_run :
  forall (L : Library) (execute_read : result (list (gmap string pyval)))
         (log log' : list RetroCall),
    (forall documents,
       execute_read = Ok documents -> Forall has_document_id documents) ->
    (retroactively_detect_supersessions L execute_read true log).1
    = (retroactively_detect_supersessions L execute_read false log').1.
Proof.
  intros L execute_read log log' Hids.
  unfold retroactively_detect_supersessions.
  destruct execute_read as [documents|e]; [|reflexivity].
  unfold try_catch, mbind, lift, modify. cbn.
  destruct (retro_outer_dry L documents (Hids documents eq_refl)
              {| documents_checked := len documents;
                 supersessions_found := 0; superseded_documents := [];
                 retro_errors := [] |} log log') as [Hout Hres].
  unfold set_checked. cbn.
  destruct (retro_outer L true documents _) as [out1 [res1 log1]].
  destruct (retro_outer L false documents _) as [out2 [res2 log2]].
  cbn in Hout, Hres. subst out2 res2.
  destruct out1 as [[]|e]; reflexivity.
Qed.

Lemma dry_run_predicts_real_run_witness :
  (retroactively_detect_supersessions example_library
     (Ok [older_row; newer_row]) true []).1
  = (retroactively_detect_supersessions example_library
       (Ok [older_row; newer_row]) false []).1.
Proof.
  apply (dry_run_predicts_real_run example_library
           (Ok [older_row; newer_row]) [] []).
  intros documents [= <-].
  repeat constructor; eexists; reflexivity.
Defined.

End RetroactiveScan.

(** ** The fusion: where a row comes from, and how many there are *)

Module HybridSearchExtra.
Import HybridSearch HybridSearchFacts PyFacts.

Local Open Scope Qc_scope.

(** Rows with other identifiers leave an entry of the dictionary alone. *)
Lemma fold_add_row_untouched (results : list Hit) (i : string) :
  (forall r, r ∈ results -> chunk_id r <> Some i) ->
  forall m, fold_left add_row results m !! i = m !! i.
Proof.
  induction results as [|r results IH]; intros Hnone m; [reflexivity|].
  cbn [fold_left]. rewrite IH.
  - unfold add_row. destruct (chunk_id r) as [j|] eqn:Hj; [|reflexivity].
    apply lookup_insert_ne. intros ->.
    apply (Hnone r); [apply elem_of_cons; left; reflexivity | exact Hj].
  - intros r' Hr'. apply Hnone. apply elem_of_cons. right. exact Hr'.
Qed.

(** The dictionary keeps the score of the last row with an identifier. *)
Lemma score_of_last (pre post : list Hit) (r : Hit) (i : string) :
  chunk_id r = Some i ->
  (forall r', r' ∈ post -> chunk_id r' <> Some i) ->
  score_of (pre ++ r :: post) i = score r.
Proof.
  intros Hr Hpost. unfold score_of. rewrite score_dict_fold.
  rewrite fold_left_app. cbn [fold_left].
  rewrite (fold_add_row_untouched post i Hpost).
  unfold add_row at 1. rewrite Hr, lookup_insert_eq. reflexivity.
Qed.

(** The search for the row's data stops at the first row with the
    identifier. *)
Lemma find_row_first (pre post : list Hit) (r : Hit) (i : string) :
  chunk_id r = Some i ->
  (forall r', r' ∈ pre -> chunk_id r' <> Some i) ->
  find_row i (pre ++ r :: post) = Some r.
Proof.
  intros Hr Hpre. unfold find_row.
  induction pre as [|p pre IH]; cbn.
  - rewrite bool_decide_eq_true_2 by exact Hr. reflexivity.
  - rewrite bool_decide_eq_false_2.
    + apply IH. intros r' Hr'. apply Hpre. apply elem_of_cons. right.
      exact Hr'.
    + apply Hpre. apply elem_of_cons. left. reflexivity.
Qed.

Section Combine.

Variable iterate : gset string -> list string.
Hypothesis iterate_elements : forall s, iterate s ≡ₚ elements s.

Variable self : HybridSearch.
Variables semantic_results keyword_results : list Hit.

Local Abbreviation ids :=
  (dom (score_dict semantic_results) ∪ dom (score_dict keyword_results)).

Local Abbreviation one :=
  (combine_one self semantic_results keyword_results
     (score_dict semantic_results) (score_dict keyword_results)).

Local Abbreviation combined :=
  (_combine_results iterate self semantic_results keyword_results).

Lemma iterate_ids (i : string) : i ∈ iterate ids -> i ∈ ids.
Proof. rewrite iterate_elements. apply elem_of_elements. Qed.

(** A fused row is the row made for its identifier. *)
Lemma combined_row (x : Hit) (i : string) :
  x ∈ combined -> chunk_id x = Some i -> i ∈ ids /\ one i = Some x.
Proof.
  intros Hx Hi. unfold _combine_results in Hx.
  apply list_elem_of_omap in Hx as (j & Hj & Hone).
  apply iterate_ids in Hj.
  destruct (combine_one_some self semantic_results keyword_results j Hj)
    as (r & _ & Hr & Hmade).
  rewrite Hmade in Hone. injection Hone as <-. cbn in Hi.
  rewrite Hr in Hi. injection Hi as ->. split; assumption.
Qed.




End Combine.

(** X21.  Where a fused row comes from.  For an identifier that the semantic
    rows list, the fused row carries the data of the first semantic row with
    that identifier (also when the keyword rows list it with other data) and,
    as [semantic_score], the score of the last such row.  For an identifier
    that only the keyword rows list, it carries the data of the first such
    keyword row and [semantic_score] 0.  There is one fused row per
    identifier. *)
Theorem fused_row_provenance :
  forall (iterate : gset string -> list string) (self : HybridSearch)
         (semantic_results keyword_results : list Hit),
    (forall s, iterate s ≡ₚ elements s) ->
    let combined :=
      _combine_results iterate self semantic_results keyword_results in
    (forall pre r post i,
       semantic_results = pre ++ r :: post ->
       chunk_id r = Some i ->
       (forall r', r' ∈ pre -> chunk_id r' <> Some i) ->
       exists x,
         x ∈ combined /\ chunk_id x = Some i
         /\ content x = content r /\ document_id x = document_id r
         /\ ingestion_date x = ingestion_date r /\ score x = score r
         /\ (forall y, y ∈ combined -> chunk_id y = Some i -> y = x))
    /\ (forall pre r post i x,
          semantic_results = pre ++ r :: post ->
          chunk_id r = Some i ->
          (forall r', r' ∈ post -> chunk_id r' <> Some i) ->
          x ∈ combined -> chunk_id x = Some i ->
          semantic_score x = Some (score r))
    /\ (forall pre r post i,
          (forall r', r' ∈ semantic_results -> chunk_id r' <> Some i) ->
          keyword_results = pre ++ r :: post ->
          chunk_id r = Some i ->
          (forall r', r' ∈ pre -> chunk_id r' <> Some i) ->
          exists x,
            x ∈ combined /\ chunk_id x = Some i
            /\ content x = content r /\ document_id x = document_id r
            /\ ingestion_date x = ingestion_date r /\ score x = score r
            /\ semantic_score x = Some (Q2Qc 0)).
Proof.
  intros iterate self sem kw Hiter combined.
  assert (Hmade : forall i r,
            i ∈ dom (score_dict sem) ∪ dom (score_dict kw) ->
            (match find_row i sem with
             | Some r0 => Some r0
             | None => find_row i kw
             end) = Some r ->
            exists x, x ∈ combined /\ chunk_id x = chunk_id r
                      /\ content x = content r
                      /\ document_id x = document_id r
                      /\ ingestion_date x = ingestion_date r
                      /\ score x = score r
                      /\ combine_one self sem kw (score_dict sem)
                           (score_dict kw) i = Some x).
  { intros i r Hi Hfound.
    exists (attach (semantic_weight self * score_of sem i
                    + keyword_weight self * score_of kw i)
              (score_of sem i) (score_of kw i) r).
    split; [|repeat split].
    - unfold combined, _combine_results. apply list_elem_of_omap.
      exists i. split.
      + rewrite Hiter. apply elem_of_elements. exact Hi.
      + unfold combine_one. rewrite Hfound. reflexivity.
    - unfold combine_one. rewrite Hfound. reflexivity. }
  split; [|split].
  - intros pre r post i -> Hr Hpre.
    destruct (Hmade i r) as (x & Hx & Hid & Hc & Hd & Hdate & Hs & Hone).
    { apply elem_of_union. left. apply elem_of_dom_score_dict.
      exists r. split; [|exact Hr].
      apply elem_of_app. right. apply elem_of_cons. left. reflexivity. }
    { rewrite (find_row_first pre post r i Hr Hpre). reflexivity. }
    exists x. rewrite Hid. repeat split; try assumption.
    intros y Hy Hyi.
    destruct (combined_row iterate Hiter self _ _ y i Hy Hyi) as [_ Hy1].
    congruence.
  - intros pre r post i x -> Hr Hpost Hx Hxi.
    destruct (combined_scores self (pre ++ r :: post) kw
                (iterate (dom (score_dict (pre ++ r :: post))
                          ∪ dom (score_dict kw))) x)
      as (j & _ & Hj & Hsem & _).
    { intros j. apply (iterate_ids iterate Hiter). }
    { exact Hx. }
    rewrite Hsem. rewrite Hxi in Hj. injection Hj as <-.
    rewrite (score_of_last pre post r i Hr Hpost). reflexivity.
  - intros pre r post i Hnone -> Hr Hpre.
    destruct (Hmade i r) as (x & Hx & Hid & Hc & Hd & Hdate & Hs & Hone).
    { apply elem_of_union. right. apply elem_of_dom_score_dict.
      exists r. split; [|exact Hr].
      apply elem_of_app. right. apply elem_of_cons. left. reflexivity. }
    { destruct (find_row i sem) as [r0|] eqn:Hr0.
      - apply find_row_some in Hr0 as [Hin Hid0].
        exfalso. exact (Hnone r0 Hin Hid0).
      - apply (find_row_first pre post r i Hr Hpre). }
    exists x. rewrite Hid. repeat split; try assumption.
    destruct (combined_scores self sem (pre ++ r :: post)
                (iterate (dom (score_dict sem)
                          ∪ dom (score_dict (pre ++ r :: post)))) x)
      as (j & _ & Hj & Hsem & _).
    { intros j. apply (iterate_ids iterate Hiter). }
    { exact Hx. }
    rewrite Hsem. rewrite Hid, Hr in Hj. injection Hj as <-.
    rewrite (score_of_missing sem i Hnone). reflexivity.
Qed.

Lemma fused_row_provenance_witness :
  exists x,
    x ∈ _combine_results elements default_weights scenario_semantic
          scenario_keyword
    /\ chunk_id x = Some "c2"%string
    /\ score x = Q2Qc (4 # 10).
Proof.
  destruct (fused_row_provenance elements default_weights scenario_semantic
              scenario_keyword ltac:(intros; reflexivity)) as [Hfirst _].
  destruct (Hfirst [scenario_row "c1" (9 # 10)] (scenario_row "c2" (4 # 10))
              [] "c2"%string eq_refl eq_refl)
    as (x & Hx & Hid & _ & _ & _ & Hscore & _).
  { intros r' Hr'. apply list_elem_of_singleton in Hr'. subst r'.
    discriminate. }
  exists x. split; [exact Hx|]. split; [exact Hid | exact Hscore].
Defined.





End HybridSearchExtra.

(** ** The hybrid search from the query string: how it degrades *)

Module SearchStackExtra.
Import EmbeddingGenerator EmbeddingGeneratorSpec.
Import HybridSearch HybridSearchFacts HybridSearchExtra SearchStack PyFacts.

Local Open Scope Qc_scope.










End SearchStackExtra.

(** ** The batch processor *)

Module BatchProcessorFacts.
Import BatchEmbeddingProcessor PyFacts.

(** *** Loops *)

Lemma for_each_app {S A} (xs ys : list A) (body : A -> M S unit) (s : S) :
  for_each (xs ++ ys) body s
  = mbind (for_each xs body) (fun _ => for_each ys body) s.
Proof.
  revert s. induction xs as [|x xs IH]; intros s; [reflexivity|].
  cbn [app for_each]. unfold mbind.
  destruct (body x s) as [[[]|e] s1]; [|reflexivity].
  rewrite IH. reflexivity.
Qed.

(** A loop over batches is a loop over their items. *)
Lemma for_each_concat {S A B} (g : A -> list B) (body : B -> M S unit)
    (xs : list A) (s : S) :
  for_each xs (fun x => for_each (g x) body) s
  = for_each (concat (map g xs)) body s.
Proof.
  revert s. induction xs as [|x xs IH]; intros s; [reflexivity|].
  cbn [map concat for_each]. rewrite for_each_app. unfold mbind.
  destruct (for_each (g x) body s) as [[[]|e] s1]; [|reflexivity].
  apply IH.
Qed.

(** *** Batches *)

(** Cutting two lists of one length into batches of [size] and numbering
    the items of each batch from its start gives the items of the whole
    input, numbered. *)
Lemma batches_cover (size : nat) :
  (0 < size)%nat ->
  forall (count : nat) (ids : list string) (texts : list (list ascii))
         (first : nat),
    length ids = length texts ->
    (length ids <= count * size)%nat ->
    concat
      (map (fun j =>
              imap (fun k item => (first + j * size + k, item))%nat
                (zip (take size (drop (j * size) ids))
                     (take size (drop (j * size) texts))))
           (seq 0 count))
    = imap (fun k item => (first + k, item))%nat (zip ids texts).
Proof.
  intros Hsize. induction count as [|count IH];
    intros ids texts first Hlen Hfit.
  - destruct ids; [|cbn in Hfit; lia]. reflexivity.
  - cbn [seq map concat]. rewrite <- seq_shift, map_map.
    replace (zip ids texts)
      with (zip (take size ids ++ drop size ids)
              (take size texts ++ drop size texts))
      by (rewrite !take_drop; reflexivity).
    rewrite zip_with_app
      by (rewrite !length_take; lia).
    rewrite imap_app. f_equal.
    + cbn. apply imap_ext. intros k item _. f_equal. lia.
    + transitivity
        (imap (fun k item =>
                 (first + length (zip (take size ids) (take size texts)) + k,
                  item))%nat
           (zip (drop size ids) (drop size texts)));
        [|apply imap_ext; intros k item _; cbn; f_equal; lia].
      rewrite <- (IH (drop size ids) (drop size texts)
                    (first + length (zip (take size ids)
                                       (take size texts)))%nat).
      * f_equal. apply map_ext. intros j.
        rewrite !drop_drop.
        replace (size + j * size)%nat with (S j * size)%nat by lia.
        apply imap_ext. intros k item Hitem. f_equal.
        rewrite length_zip_with, !length_take.
        destruct (Nat.le_gt_cases size (length ids)) as [Hfull|Hshort].
        -- lia.
        -- exfalso. apply lookup_lt_Some in Hitem.
           rewrite length_zip_with, !length_take, !length_drop in Hitem.
           destruct j; cbn in Hitem; lia.
      * rewrite !length_drop. lia.
      * rewrite length_drop. cbn in Hfit. lia.
Qed.

Lemma for_each_map {S A B} (f : A -> B) (body : B -> M S unit)
    (xs : list A) (s : S) :
  for_each (map f xs) body s = for_each xs (fun x => body (f x)) s.
Proof.
  revert s. induction xs as [|x xs IH]; intros s; [reflexivity|].
  cbn [map for_each]. unfold mbind.
  destruct (body (f x) s) as [[[]|e] s1]; [apply IH | reflexivity].
Qed.

(** The starts of the batches reach the end of the input. *)
Lemma batch_count_fits (n size : Z) :
  0 <= n -> 0 < size ->
  (Z.to_nat n
   <= Z.to_nat ((n - 0 + size - 1) / size) * Z.to_nat size)%nat.
Proof.
  intros Hn Hsize.
  pose proof (Z.div_mod (n - 0 + size - 1) size ltac:(lia)) as Hdm.
  pose proof (Z.mod_pos_bound (n - 0 + size - 1) size Hsize) as Hmod.
  assert (0 <= (n - 0 + size - 1) / size) by (apply Z.div_pos; lia).
  nia.
Qed.

(** The batch that starts at item [j * size]. *)
Lemma batch_numbered (size : Z) (j : nat) (ids : list string)
    (texts : list (list ascii)) :
  0 < size ->
  numbered (0 + Z.of_nat j * size)
    (slice ids (0 + Z.of_nat j * size) (0 + Z.of_nat j * size + size))
    (slice texts (0 + Z.of_nat j * size) (0 + Z.of_nat j * size + size))
  = imap (fun k item => (0 + j * Z.to_nat size + k, item))%nat
      (zip (take (Z.to_nat size) (drop (j * Z.to_nat size) ids))
           (take (Z.to_nat size) (drop (j * Z.to_nat size) texts))).
Proof.
  intros Hsize. unfold numbered.
  rewrite !slice_nonneg by nia.
  replace (Z.to_nat (0 + Z.of_nat j * size + size)
           - Z.to_nat (0 + Z.of_nat j * size))%nat
    with (Z.to_nat size) by nia.
  replace (Z.to_nat (0 + Z.of_nat j * size))
    with (j * Z.to_nat size)%nat by nia.
  reflexivity.
Qed.

Section WithHash.

Variable sha256_hexdigest : list ascii -> string.

(** With a positive batch size the batches are not seen: the chunks are
    processed one after the other, in the order of the input. *)
Lemma process_chunks_flat (env : nat -> ItemEnv) (chunk_ids : list string)
    (chunk_texts : list (list ascii)) (store_in_neo4j : bool)
    (p : BatchEmbeddingProcessor) :
  0 < batch_size p ->
  length chunk_ids = length chunk_texts ->
  process_chunks sha256_hexdigest env chunk_ids chunk_texts store_in_neo4j p
  = mbind (process_all sha256_hexdigest env store_in_neo4j chunk_ids
             chunk_texts)
      (fun _ => get_statistics) p.
Proof.
  intros Hsize Hlen. unfold process_chunks, len. rewrite Hlen, Z.eqb_refl.
  cbn [negb]. unfold mbind at 1. unfold gets at 1.
  unfold mbind at 1. unfold lift, range3.
  destruct (Z.eqb_spec (batch_size p) 0) as [?|_]; [lia|].
  destruct (Z.gtb_spec (batch_size p) 0) as [_|?]; [|lia].
  unfold mbind. rewrite for_each_map.
  unfold process_all, process_batch.
  rewrite (for_each_concat
             (fun j => numbered (0 + Z.of_nat j * batch_size p)
                         (slice chunk_ids (0 + Z.of_nat j * batch_size p)
                            (0 + Z.of_nat j * batch_size p + batch_size p))
                         (slice chunk_texts (0 + Z.of_nat j * batch_size p)
                            (0 + Z.of_nat j * batch_size p + batch_size p)))).
  rewrite (map_ext _ _ (fun j => batch_numbered (batch_size p) j chunk_ids
                                   chunk_texts Hsize)).
  rewrite (batches_cover (Z.to_nat (batch_size p)) ltac:(lia) _ chunk_ids
             chunk_texts 0%nat Hlen).
  - reflexivity.
  - rewrite Hlen.
    pose proof (batch_count_fits (Z.of_nat (length chunk_texts))
                  (batch_size p) ltac:(lia) Hsize) as Hfit.
    rewrite Nat2Z.id in Hfit. exact Hfit.
Qed.

End WithHash.

(** *** Counters *)

Section Counters.

Variable sha256_hexdigest : list ascii -> string.

(** Case analysis on the innermost value that the goal inspects, with the
    calls of the cache and of the generator left folded. *)
Ltac split_innermost :=
  repeat (cbn -[EmbeddingCache.get EmbeddingCache.set
                EmbeddingGenerator.generate_embedding];
          match goal with
          | |- context [match ?x with _ => _ end] =>
              lazymatch x with
              | context [match _ with _ => _ end] => fail
              | _ => destruct x eqn:?
              end
          end);
  cbn -[EmbeddingCache.get EmbeddingCache.set
        EmbeddingGenerator.generate_embedding].

(** One chunk: it is counted when the body comes to its end, then as
    successful or as failed; an exception of the store leaves these three
    counters alone. *)
Lemma process_item_counts (env : ItemEnv) (store_in_neo4j : bool)
    (chunk_id : string) (text : list ascii) (p : BatchEmbeddingProcessor) :
  let '(r, p') :=
    process_item sha256_hexdigest env store_in_neo4j chunk_id text p in
  successful (stats p') + failed (stats p') - total_processed (stats p')
  = successful (stats p) + failed (stats p) - total_processed (stats p)
  /\ total_processed (stats p')
     = total_processed (stats p) + (if is_ok r then 1 else 0)
  /\ cached (stats p) <= cached (stats p') <= cached (stats p) + 1.
Proof.
  unfold process_item, mbind, gets, modify, ret, lift, on_cache,
    on_generator, zoom.
  split_innermost; repeat split; lia.
Qed.

(** A loop over chunks: the chunks that were processed to the end are
    counted, each once. *)
Lemma process_batch_counts (env : nat -> ItemEnv) (store_in_neo4j : bool)
    (items : list (nat * (string * list ascii))) :
  forall (p : BatchEmbeddingProcessor),
    let run := process_batch sha256_hexdigest env store_in_neo4j items p in
    successful (stats run.2) + failed (stats run.2)
    - total_processed (stats run.2)
    = successful (stats p) + failed (stats p) - total_processed (stats p)
    /\ total_processed (stats p) <= total_processed (stats run.2)
       <= total_processed (stats p) + len items
    /\ (is_ok run.1 = true ->
        total_processed (stats run.2) = total_processed (stats p) + len items)
    /\ cached (stats p) <= cached (stats run.2)
       <= cached (stats p) + len items.
Proof.
  unfold process_batch, len.
  induction items as [|[n [chunk_id text]] items IH]; intros p; cbn zeta.
  - cbn. repeat split; lia.
  - cbn [for_each]. unfold mbind.
    pose proof (process_item_counts (env n) store_in_neo4j chunk_id text p)
      as Hitem.
    destruct (process_item sha256_hexdigest (env n) store_in_neo4j chunk_id
                text p) as [[[]|e] p1].
    + destruct Hitem as (H1 & H2 & H3). cbn in H2.
      specialize (IH p1). cbn zeta in IH.
      destruct IH as (I1 & I2 & I3 & I4).
      cbn [length]. repeat split; try lia.
      intros Hok. specialize (I3 Hok). lia.
    + destruct Hitem as (H1 & H2 & H3). cbn in H2 |- *.
      repeat split; try lia; try discriminate.
Qed.

End Counters.

(** [get_statistics] reports the counters and changes nothing. *)
Lemma get_statistics_own (p : BatchEmbeddingProcessor) :
  exists st, get_statistics p = (Ok st, p) /\ own st = stats p.
Proof.
  destruct p as [size g [c|] vm st]; eexists; split; reflexivity.
Qed.

(** X26.  With a positive batch size the batches cannot be told from the
    outcome: [process_chunks] does what one loop over all chunks does, in
    the order of the input, and then reports the statistics. *)
Theorem batches_are_not_observable :
  forall (sha256_hexdigest : list ascii -> string) (env : nat -> ItemEnv)
         (chunk_ids : list string) (chunk_texts : list (list ascii))
         (store_in_neo4j : bool) (p : BatchEmbeddingProcessor),
    0 < batch_size p ->
    length chunk_ids = length chunk_texts ->
    process_chunks sha256_hexdigest env chunk_ids chunk_texts
      store_in_neo4j p
    = mbind (process_all sha256_hexdigest env store_in_neo4j chunk_ids
               chunk_texts)
        (fun _ => get_statistics) p.
Proof.
  intros sha env ids texts store p Hsize Hlen.
  apply process_chunks_flat; assumption.
Qed.

Lemma batches_are_not_observable_witness :
  process_chunks EmbeddingGenerator.identity_hash (fun _ => quiet_item)
    ["c1"; "c2"; "c3"]%string [str "a"; str " "; str "b"] false
    example_processor
  = mbind (process_all EmbeddingGenerator.identity_hash (fun _ => quiet_item)
             false ["c1"; "c2"; "c3"]%string [str "a"; str " "; str "b"])
      (fun _ => get_statistics) example_processor.
Proof.
  apply (batches_are_not_observable EmbeddingGenerator.identity_hash
           (fun _ => quiet_item) ["c1"; "c2"; "c3"]%string
           [str "a"; str " "; str "b"] false example_processor).
  - reflexivity.
  - reflexivity.
Defined.

(** X27.  What [process_chunks] does with input it cannot batch.  Lists of
    different lengths and a batch size of 0 raise [ValueError] before
    anything is processed.  A negative batch size raises nothing: no chunk
    is processed and the statistics are reported as they were. *)
Theorem unbatchable_input :
  forall (sha256_hexdigest : list ascii -> string) (env : nat -> ItemEnv)
         (chunk_ids : list string) (chunk_texts : list (list ascii))
         (store_in_neo4j : bool) (p : BatchEmbeddingProcessor),
    (length chunk_ids <> length chunk_texts ->
     process_chunks sha256_hexdigest env chunk_ids chunk_texts
       store_in_neo4j p = (Raise ValueError, p))
    /\ (length chunk_ids = length chunk_texts ->
        batch_size p = 0 ->
        process_chunks sha256_hexdigest env chunk_ids chunk_texts
          store_in_neo4j p = (Raise ValueError, p))
    /\ (length chunk_ids = length chunk_texts ->
        batch_size p < 0 ->
        exists st,
          process_chunks sha256_hexdigest env chunk_ids chunk_texts
            store_in_neo4j p = (Ok st, p)
          /\ own st = stats p).
Proof.
  intros sha env ids texts store p. split; [|split].
  - intros Hlen. unfold process_chunks, len.
    destruct (Z.eqb_spec (Z.of_nat (length ids)) (Z.of_nat (length texts)))
      as [Heq|_]; [lia | reflexivity].
  - intros Hlen Hsize. unfold process_chunks, len.
    rewrite Hlen, Z.eqb_refl. cbn [negb].
    unfold mbind, gets, lift, range3. rewrite Hsize. reflexivity.
  - intros Hlen Hsize. unfold process_chunks, len.
    rewrite Hlen, Z.eqb_refl. cbn [negb].
    unfold mbind at 1. unfold gets at 1. unfold mbind at 1.
    unfold lift, range3.
    destruct (Z.eqb_spec (batch_size p) 0) as [?|_]; [lia|].
    destruct (Z.gtb_spec (batch_size p) 0) as [?|_]; [lia|].
    assert (Hnone : (0 - Z.of_nat (length texts) - batch_size p - 1)
                    / - batch_size p < 1)
      by (apply Z.div_lt_upper_bound; lia).
    replace (Z.to_nat ((0 - Z.of_nat (length texts) - batch_size p - 1)
                       / - batch_size p)) with 0%nat by lia.
    cbn [seq map]. unfold mbind. cbn [for_each]. unfold ret.
    apply get_statistics_own.
Qed.

(** X28.  With a positive batch size every chunk that is processed to the
    end is counted once in [total_processed] and once as either
    [successful] or [failed], whatever the cache, the generator and the
    store do; when [process_chunks] returns, that is every chunk of the
    input, and the statistics it returns are the counters.  An exception of
    the store leaves the counters consistent. *)
Theorem every_chunk_is_counted_once :
  forall (sha256_hexdigest : list ascii -> string) (env : nat -> ItemEnv)
         (chunk_ids : list string) (chunk_texts : list (list ascii))
         (store_in_neo4j : bool) (p : BatchEmbeddingProcessor),
    0 < batch_size p ->
    length chunk_ids = length chunk_texts ->
    let run :=
      process_chunks sha256_hexdigest env chunk_ids chunk_texts
        store_in_neo4j p in
    successful (stats run.2) + failed (stats run.2)
    - total_processed (stats run.2)
    = successful (stats p) + failed (stats p) - total_processed (stats p)
    /\ total_processed (stats p) <= total_processed (stats run.2)
       <= total_processed (stats p) + len chunk_texts
    /\ cached (stats p) <= cached (stats run.2)
       <= cached (stats p) + len chunk_texts
    /\ forall st,
         run.1 = Ok st ->
         own st = stats run.2
         /\ total_processed (stats run.2)
            = total_processed (stats p) + len chunk_texts
         /\ successful (stats run.2) + failed (stats run.2)
            = successful (stats p) + failed (stats p) + len chunk_texts.
Proof.
  intros sha env ids texts store p Hsize Hlen run. unfold run.
  rewrite process_chunks_flat by assumption.
  unfold mbind, process_all.
  pose proof (process_batch_counts sha env store (numbered 0 ids texts) p)
    as Hcounts.
  cbn zeta in Hcounts.
  assert (Hitems : len (numbered 0 ids texts) = len texts).
  { unfold numbered, len. rewrite length_imap, length_zip_with. lia. }
  rewrite Hitems in Hcounts.
  destruct (process_batch sha env store (numbered 0 ids texts) p)
    as [[[]|e] p1]; cbn [fst snd] in Hcounts.
  - destruct Hcounts as (H1 & H2 & H3 & H4). specialize (H3 eq_refl).
    destruct (get_statistics_own p1) as (st & -> & Hown). cbn [fst snd].
    split; [lia|]. split; [lia|]. split; [lia|].
    intros st' [= <-]. split; [exact Hown|]. split; lia.
  - destruct Hcounts as (H1 & H2 & _ & H4). cbn [fst snd].
    split; [lia|]. split; [lia|]. split; [lia|]. discriminate.
Qed.

Lemma every_chunk_is_counted_once_witness :
  let run :=
    process_chunks EmbeddingGenerator.identity_hash (fun _ => quiet_item)
      ["c1"; "c2"; "c3"]%string [str "a"; str " "; str "b"] false
      example_processor in
  total_processed (stats run.2) = 3
  /\ successful (stats run.2) + failed (stats run.2) = 3.
Proof.
  destruct (every_chunk_is_counted_once EmbeddingGenerator.identity_hash
              (fun _ => quiet_item) ["c1"; "c2"; "c3"]%string
              [str "a"; str " "; str "b"] false example_processor
              ltac:(reflexivity) eq_refl) as (_ & _ & _ & Hdone).
  cbn zeta in Hdone |- *.
  destruct (Hdone _ eq_refl) as (_ & Htotal & Hsum).
  split; [exact Htotal | exact Hsum].
Defined.

End BatchProcessorFacts.
